(** * UL_DAG: the graph store, the validator, Kahn's sort and the VF2 matcher

    A shallow embedding of the four modules of [src/dag]: the store
    ([DAG.ts]), the types ([types.ts]), validation and traversal
    ([utils.ts]) and the subgraph matcher ([vf2.ts]).

    JavaScript's [Map] and [Set] iterate in insertion order, and the code
    iterates them ([toStructure], [getChildren], the seeding of Kahn's queue),
    so both are embedded as insertion-ordered lists: a [Map<string, V>] is an
    association list without repeated keys, a [Set<string>] a list without
    repeated elements. *)

From Stdlib Require Import String List ZArith Lia Bool Arith Permutation Relations Wellfounded.
Import ListNotations.
Local Open Scope string_scope.
Local Open Scope list_scope.

(* ================================================================= *)
(** ** JavaScript values used as node payloads *)

(** What [JSON.stringify] does with an object: it gives a text, it gives
    [undefined] (the object's [toJSON] returns [undefined]), or it raises
    (a circular structure, a [BigInt] inside). *)
Inductive Serialized : Type :=
| Text (s : string)
| NoText
| Raises.

(** The payload of a node is [unknown] in the source.  Numbers are kept to
    the integers plus [NaN]; an object carries its identity and what
    [JSON.stringify] does with it. *)
Inductive JSValue : Type :=
| VUndefined
| VNull
| VBool (b : bool)
| VNum (z : Z)
| VNaN
| VStr (s : string)
| VObj (ref : nat) (json : Serialized).

(** [a === b] *)
Definition strict_eq (a b : JSValue) : bool :=
  match a, b with
  | VUndefined, VUndefined => true
  | VNull, VNull => true
  | VBool x, VBool y => Bool.eqb x y
  | VNum x, VNum y => Z.eqb x y
  | VStr x, VStr y => String.eqb x y
  | VObj r _, VObj r' _ => Nat.eqb r r'
  | _, _ => false
  end.

(** [a == null] *)
Definition is_nullish (a : JSValue) : bool :=
  match a with VUndefined | VNull => true | _ => false end.

(** [typeof a === 'object'] *)
Definition typeof_object (a : JSValue) : bool :=
  match a with VNull | VObj _ _ => true | _ => false end.

(** [JSON.stringify a].  The source calls it on objects only, so what it
    gives for the other values is never read. *)
Definition JSON_stringify (a : JSValue) : Serialized :=
  match a with
  | VObj _ j => j
  | VNull => Text "null"
  | _ => NoText
  end.

(** [x === y] for two results of [JSON.stringify] that did not raise. *)
Definition serialized_eqb (x y : Serialized) : bool :=
  match x, y with
  | Text a, Text b => String.eqb a b
  | NoText, NoText => true
  | _, _ => false
  end.

(* ================================================================= *)
(** ** Insertion-ordered sets of strings: [Set<string>] *)

Module JSSet.

Definition t := list string.

Definition empty : t := [].

Definition has (x : string) (s : t) : bool := existsb (String.eqb x) s.

(** [s.add(x)]: a new element goes last, a present one stays in place. *)
Definition add (x : string) (s : t) : t := if has x s then s else s ++ [x].

(** [s.delete(x)] *)
Definition delete (x : string) (s : t) : t :=
  filter (fun y => negb (String.eqb x y)) s.

Definition size (s : t) : nat := length s.

End JSSet.

(* ================================================================= *)
(** ** Insertion-ordered maps with string keys: [Map<string, V>] *)

Module JSMap.
Section WithValue.

Variable V : Type.

Definition t := list (string * V).

Definition empty : t := [].

(** [m.get(k)], [None] standing for [undefined]. *)
Fixpoint get (k : string) (m : t) : option V :=
  match m with
  | [] => None
  | (k', v) :: r => if String.eqb k k' then Some v else get k r
  end.

Definition has (k : string) (m : t) : bool :=
  match get k m with Some _ => true | None => false end.

(** [m.set(k, v)]: a present key keeps its position, a new one goes last. *)
Fixpoint set (k : string) (v : V) (m : t) : t :=
  match m with
  | [] => [(k, v)]
  | (k', v') :: r =>
      if String.eqb k k' then (k, v) :: r else (k', v') :: set k v r
  end.

(** [m.delete(k)] *)
Fixpoint delete (k : string) (m : t) : t :=
  match m with
  | [] => []
  | (k', v') :: r =>
      if String.eqb k k' then delete k r else (k', v') :: delete k r
  end.

Definition keys (m : t) : list string := map fst m.
Definition values (m : t) : list V := map snd m.
Definition size (m : t) : nat := length m.

End WithValue.

Arguments empty {V}.
Arguments get {V} k m.
Arguments has {V} k m.
Arguments set {V} k v m.
Arguments delete {V} k m.
Arguments keys {V} m.
Arguments values {V} m.
Arguments size {V} m.

End JSMap.

(* ================================================================= *)
(** ** [types.ts] *)

Record DAGNode : Type := { id : string; data : JSValue }.

Record DAGEdge : Type := { from : string; to : string }.

Record DAGStructure : Type := { nodes : list DAGNode; edges : list DAGEdge }.

Inductive MissingSide : Type := MissingFrom | MissingTo.

Record DAGValidationResult : Type := {
  isValid : bool;
  isAcyclic : bool;
  cycles : option (list (list string));
  orphanNodes : option (list string);
  missingReferences : option (list (DAGEdge * MissingSide))
}.

Definition edge_eqb (e1 e2 : DAGEdge) : bool :=
  String.eqb (from e1) (from e2) && String.eqb (to e1) (to e2).

(** The identifiers of a structure's nodes, [structure.nodes.map(n => n.id)]. *)
Definition node_ids (s : DAGStructure) : list string := map id (nodes s).

(* ================================================================= *)
(** ** [DAG.ts]: the graph store *)

Record DAG : Type := {
  nodeMap : JSMap.t DAGNode;
  outgoingEdges : JSMap.t JSSet.t;
  incomingEdges : JSMap.t JSSet.t
}.

(** A store just constructed without a structure. *)
Definition new_DAG : DAG :=
  {| nodeMap := JSMap.empty; outgoingEdges := JSMap.empty; incomingEdges := JSMap.empty |}.

Definition addNode (node : DAGNode) (g : DAG) : DAG :=
  {| nodeMap := JSMap.set (id node) node (nodeMap g);
     outgoingEdges :=
       if JSMap.has (id node) (outgoingEdges g) then outgoingEdges g
       else JSMap.set (id node) JSSet.empty (outgoingEdges g);
     incomingEdges :=
       if JSMap.has (id node) (incomingEdges g) then incomingEdges g
       else JSMap.set (id node) JSSet.empty (incomingEdges g) |}.

(** [m.get(k)?.add(x)]: the set stored under [k] is updated in place, and
    nothing happens when [k] has no entry. *)
Definition add_to_entry (k x : string) (m : JSMap.t JSSet.t) : JSMap.t JSSet.t :=
  match JSMap.get k m with
  | Some s => JSMap.set k (JSSet.add x s) m
  | None => m
  end.

Definition addEdge (from to : string) (g : DAG) : DAG :=
  {| nodeMap := nodeMap g;
     outgoingEdges := add_to_entry from to (outgoingEdges g);
     incomingEdges := add_to_entry to from (incomingEdges g) |}.

(** [for (const set of edges.values()) set.delete(id)] *)
Definition scrub (x : string) (m : JSMap.t JSSet.t) : JSMap.t JSSet.t :=
  map (fun kv => (fst kv, JSSet.delete x (snd kv))) m.

Definition removeNode (x : string) (g : DAG) : DAG :=
  {| nodeMap := JSMap.delete x (nodeMap g);
     outgoingEdges := scrub x (JSMap.delete x (outgoingEdges g));
     incomingEdges := scrub x (JSMap.delete x (incomingEdges g)) |}.

Definition getNode (x : string) (g : DAG) : option DAGNode := JSMap.get x (nodeMap g).

Definition getNodes (g : DAG) : list DAGNode := JSMap.values (nodeMap g).

Definition getChildren (g : DAG) (x : string) : list string :=
  match JSMap.get x (outgoingEdges g) with Some s => s | None => [] end.

Definition getParents (g : DAG) (x : string) : list string :=
  match JSMap.get x (incomingEdges g) with Some s => s | None => [] end.

Definition entry_size (x : string) (m : JSMap.t JSSet.t) : nat :=
  match JSMap.get x m with Some s => JSSet.size s | None => 0 end.

Definition getRoots (g : DAG) : list string :=
  map id (filter (fun n => Nat.eqb (entry_size (id n) (incomingEdges g)) 0) (getNodes g)).

Definition getLeaves (g : DAG) : list string :=
  map id (filter (fun n => Nat.eqb (entry_size (id n) (outgoingEdges g)) 0) (getNodes g)).

Definition clear (g : DAG) : DAG := new_DAG.

Definition load (structure : DAGStructure) (g : DAG) : DAG :=
  let g1 := fold_left (fun acc node => addNode node acc) (nodes structure) (clear g) in
  fold_left (fun acc edge => addEdge (from edge) (to edge) acc) (edges structure) g1.

Definition toStructure (g : DAG) : DAGStructure :=
  {| nodes := getNodes g;
     edges :=
       flat_map (fun kv => map (fun t => {| from := fst kv; to := t |}) (snd kv))
                (outgoingEdges g) |}.

(** [new DAG(structure)] *)
Definition DAG_of (structure : DAGStructure) : DAG := load structure new_DAG.

(** The operations that change a store, for statements about every sequence
    of calls. *)
Inductive StoreOp : Type :=
| OpAddNode (node : DAGNode)
| OpAddEdge (from to : string)
| OpRemoveNode (x : string)
| OpLoad (structure : DAGStructure)
| OpClear.

Definition apply_op (g : DAG) (op : StoreOp) : DAG :=
  match op with
  | OpAddNode n => addNode n g
  | OpAddEdge f t => addEdge f t g
  | OpRemoveNode x => removeNode x g
  | OpLoad s => load s g
  | OpClear => clear g
  end.

Definition run_ops (ops : list StoreOp) (g : DAG) : DAG := fold_left apply_op ops g.

(** A store state that some sequence of calls on a fresh store produces. *)
Definition reachable (g : DAG) : Prop := exists ops, g = run_ops ops new_DAG.

(** The three maps have the same keys, in the same order. *)
Definition keys_agree (g : DAG) : Prop :=
  JSMap.keys (outgoingEdges g) = JSMap.keys (nodeMap g) /\
  JSMap.keys (incomingEdges g) = JSMap.keys (nodeMap g).

(* ================================================================= *)
(** ** [utils.ts]: cycle detection *)

(** The recursive functions of the source are embedded with a fuel argument
    that bounds the depth of the recursion; [None] (or [OutOfFuel]) is the
    answer of a run whose fuel is used up.  Each entry point supplies the
    fuel itself, and the lemmas [findCycles_returns], [topologicalSort_returns]
    and [vf2_fuel_suffices] below show that it is never used up. *)

Module FindCycles.

(** The five locals that the closure [dfs] shares. *)
Record state : Type := {
  visited : JSSet.t;
  recursionStack : JSSet.t;
  path : list string;
  pathIndex : JSMap.t nat;
  cycles : list (list string)
}.

Definition init : state :=
  {| visited := JSSet.empty; recursionStack := JSSet.empty; path := [];
     pathIndex := JSMap.empty; cycles := [] |}.

(** The four statements at the head of [dfs]. *)
Definition enter (nodeId : string) (st : state) : state :=
  {| visited := JSSet.add nodeId (visited st);
     recursionStack := JSSet.add nodeId (recursionStack st);
     path := path st ++ [nodeId];
     pathIndex := JSMap.set nodeId (length (path st)) (pathIndex st);
     cycles := cycles st |}.

(** The three statements before [return false]. *)
Definition leave (nodeId : string) (st : state) : state :=
  {| visited := visited st;
     recursionStack := JSSet.delete nodeId (recursionStack st);
     path := removelast (path st);
     pathIndex := JSMap.delete nodeId (pathIndex st);
     cycles := cycles st |}.

(** [cycles.push([...path.slice(cycleStart), childId])] *)
Definition record_cycle (childId : string) (st : state) : state :=
  let cycleStart :=
    match JSMap.get childId (pathIndex st) with Some i => i | None => 0 end in
  {| visited := visited st;
     recursionStack := recursionStack st;
     path := path st;
     pathIndex := pathIndex st;
     cycles := cycles st ++ [skipn cycleStart (path st) ++ [childId]] |}.

(** The loop over the children of [nodeId] and what follows it; [rec] is
    the recursive call. *)
Definition dfs_children (rec : string -> state -> option (bool * state))
    (nodeId : string) : list string -> state -> option (bool * state) :=
  fix loop (children : list string) (st : state) {struct children} :=
    match children with
    | [] => Some (false, leave nodeId st)
    | childId :: rest =>
        if negb (JSSet.has childId (visited st)) then
          match rec childId st with
          | None => None
          | Some (true, st') => Some (true, st')
          | Some (false, st') => loop rest st'
          end
        else if JSSet.has childId (recursionStack st) then
          Some (true, record_cycle childId st)
        else loop rest st
    end.

Fixpoint dfs (fuel : nat) (dag : DAG) (nodeId : string) (st : state)
  : option (bool * state) :=
  match fuel with
  | O => None
  | S fuel' =>
      dfs_children (dfs fuel' dag) nodeId (getChildren dag nodeId) (enter nodeId st)
  end.

(** [for (const id of nodeIds) if (!visited.has(id)) dfs(id)] *)
Fixpoint scan (fuel : nat) (dag : DAG) (nodeIds : list string) (st : state)
  : option state :=
  match nodeIds with
  | [] => Some st
  | x :: rest =>
      if negb (JSSet.has x (visited st)) then
        match dfs fuel dag x st with
        | None => None
        | Some (_, st') => scan fuel dag rest st'
        end
      else scan fuel dag rest st
  end.

(** Every identifier the search can meet: the registered nodes and all the
    members of the outgoing sets. *)
Definition universe (dag : DAG) : list string :=
  map id (getNodes dag) ++ flat_map (fun kv => snd kv) (outgoingEdges dag).

End FindCycles.

Definition findCycles_fuel (fuel : nat) (dag : DAG) : option (list (list string)) :=
  match FindCycles.scan fuel dag (map id (getNodes dag)) FindCycles.init with
  | Some st => Some (FindCycles.cycles st)
  | None => None
  end.

Definition findCycles (dag : DAG) : option (list (list string)) :=
  findCycles_fuel (S (length (FindCycles.universe dag))) dag.

(* ================================================================= *)
(** ** [utils.ts]: validation *)

Definition is_nil {A : Type} (l : list A) : bool :=
  match l with [] => true | _ => false end.

(** [l.length > 0 ? l : undefined] *)
Definition nonempty_or_undefined {A : Type} (l : list A) : option (list A) :=
  if is_nil l then None else Some l.

Definition missing_of (nodeIds : JSSet.t) (structure : DAGStructure)
  : list (DAGEdge * MissingSide) :=
  flat_map (fun edge =>
      (if negb (JSSet.has (from edge) nodeIds) then [(edge, MissingFrom)] else []) ++
      (if negb (JSSet.has (to edge) nodeIds) then [(edge, MissingTo)] else []))
    (edges structure).

Definition orphans_of (structure : DAGStructure) : list string :=
  map id
    (filter (fun n =>
        let hasIn := existsb (fun e => String.eqb (to e) (id n)) (edges structure) in
        let hasOut := existsb (fun e => String.eqb (from e) (id n)) (edges structure) in
        negb hasIn && negb hasOut)
      (nodes structure)).

(** [new Set(ids)] *)
Definition set_of_list (l : list string) : JSSet.t :=
  fold_left (fun s x => JSSet.add x s) l JSSet.empty.

Definition validateDAG (structure : DAGStructure) : option DAGValidationResult :=
  let dag := DAG_of structure in
  let nodeIds := set_of_list (node_ids structure) in
  let missing := missing_of nodeIds structure in
  match findCycles dag with
  | None => None
  | Some cs =>
      let orphans := orphans_of structure in
      Some {| isValid := is_nil missing && is_nil cs;
              isAcyclic := is_nil cs;
              cycles := nonempty_or_undefined cs;
              orphanNodes := nonempty_or_undefined orphans;
              missingReferences := nonempty_or_undefined missing |}
  end.

(* ================================================================= *)
(** ** [utils.ts]: Kahn's topological sort *)

Module Kahn.

(** The in-degree table after the two initial loops. *)
Definition initial_inDegree (structure : DAGStructure) : JSMap.t Z :=
  let zeroed :=
    fold_left (fun m node => JSMap.set (id node) 0%Z m) (nodes structure) JSMap.empty in
  fold_left (fun m edge =>
      JSMap.set (to edge)
        ((match JSMap.get (to edge) m with Some d => d | None => 0 end) + 1)%Z m)
    (edges structure) zeroed.

(** [for (const [id, deg] of inDegree) if (deg === 0) queue.push(id)] *)
Definition initial_queue (inDegree : JSMap.t Z) : list string :=
  map fst (filter (fun kv => Z.eqb (snd kv) 0) inDegree).

(** One turn of the loop over the children of the dequeued node. *)
Definition visit_child (acc : JSMap.t Z * list string) (child : string)
  : JSMap.t Z * list string :=
  let deg := ((match JSMap.get child (fst acc) with Some d => d | None => 1 end) - 1)%Z in
  (JSMap.set child deg (fst acc),
   if Z.eqb deg 0 then snd acc ++ [child] else snd acc).

(** The [while (queue.length > 0)] loop. *)
Fixpoint loop (fuel : nat) (dag : DAG) (inDegree : JSMap.t Z)
    (queue result : list string) : option (list string) :=
  match queue with
  | [] => Some result
  | x :: rest =>
      match fuel with
      | O => None
      | S fuel' =>
          let acc := fold_left visit_child (getChildren dag x) (inDegree, rest) in
          loop fuel' dag (fst acc) (snd acc) (result ++ [x])
      end
  end.

End Kahn.

Definition topologicalSort_fuel (fuel : nat) (structure : DAGStructure)
  : option (list string) :=
  let dag := DAG_of structure in
  let inDegree := Kahn.initial_inDegree structure in
  Kahn.loop fuel dag inDegree (Kahn.initial_queue inDegree) [].

Definition topologicalSort (structure : DAGStructure) : option (list string) :=
  topologicalSort_fuel (length (nodes structure) + length (edges structure)) structure.

(* ================================================================= *)
(** ** [utils.ts]: traversals *)

(** [startIds ?? dag.getRoots()] *)
Definition start_ids (dag : DAG) (startIds : option (list string)) : list string :=
  match startIds with Some l => l | None => getRoots dag end.

Module Bfs.

(** [for (const child of dag.getChildren(id)) if (!visited.has(child)) queue.push(child)] *)
Definition enqueue_children (visited : JSSet.t) (children queue : list string)
  : list string :=
  fold_left (fun q child => if negb (JSSet.has child visited) then q ++ [child] else q)
    children queue.

(** The [while (queue.length > 0)] loop; one unit of fuel per turn. *)
Fixpoint loop (fuel : nat) (dag : DAG) (visited : JSSet.t) (queue result : list string)
  : option (list string) :=
  match queue with
  | [] => Some result
  | x :: rest =>
      match fuel with
      | O => None
      | S fuel' =>
          if JSSet.has x visited then loop fuel' dag visited rest result
          else
            let visited' := JSSet.add x visited in
            loop fuel' dag visited'
              (enqueue_children visited' (getChildren dag x) rest) (result ++ [x])
      end
  end.

End Bfs.

Definition bfsFromRoots_fuel (fuel : nat) (structure : DAGStructure)
    (startIds : option (list string)) : option (list string) :=
  let dag := DAG_of structure in
  Bfs.loop fuel dag JSSet.empty (start_ids dag startIds) [].

(** Every turn takes one identifier from the queue, and the queue receives
    the start identifiers and, once for each visited node, its children. *)
Definition bfsFromRoots (structure : DAGStructure) (startIds : option (list string))
  : option (list string) :=
  let dag := DAG_of structure in
  bfsFromRoots_fuel
    (length (start_ids dag startIds) + length (flat_map snd (outgoingEdges dag)))
    structure startIds.

Module PostOrder.

Record state : Type := {
  visited : JSSet.t;
  result : list string
}.

Definition init : state := {| visited := JSSet.empty; result := [] |}.

(** [for (const x of xs) visit(x)], the shape of the loop over the children
    and of the loop over the start identifiers; [rec] is the call
    [visit]. *)
Definition visit_each (rec : string -> state -> option state)
  : list string -> state -> option state :=
  fix loop (xs : list string) (st : state) {struct xs} :=
    match xs with
    | [] => Some st
    | x :: rest =>
        match rec x st with
        | None => None
        | Some st' => loop rest st'
        end
    end.

Fixpoint visit (fuel : nat) (dag : DAG) (x : string) (st : state) : option state :=
  match fuel with
  | O => None
  | S fuel' =>
      if JSSet.has x (visited st) then Some st
      else
        match visit_each (visit fuel' dag) (getChildren dag x)
                {| visited := JSSet.add x (visited st); result := result st |} with
        | None => None
        | Some st' => Some {| visited := visited st'; result := result st' ++ [x] |}
        end
  end.

End PostOrder.

Definition dfsPostOrder_fuel (fuel : nat) (structure : DAGStructure)
    (startIds : option (list string)) : option (list string) :=
  let dag := DAG_of structure in
  match PostOrder.visit_each (PostOrder.visit fuel dag) (start_ids dag startIds)
          PostOrder.init with
  | Some st => Some (PostOrder.result st)
  | None => None
  end.

(** A nested call that goes on to its children has marked one more key of
    the outgoing map, so the depth stays within the number of keys plus
    one. *)
Definition dfsPostOrder (structure : DAGStructure) (startIds : option (list string))
  : option (list string) :=
  dfsPostOrder_fuel (S (JSMap.size (outgoingEdges (DAG_of structure)))) structure startIds.

(* ================================================================= *)
(** ** [vf2.ts]: the subgraph matcher *)

(** What a call can end in: a value, the [TypeError] JavaScript raises when
    a property of [undefined] is read or when [JSON.stringify] cannot
    serialize its argument, or used-up fuel. *)
Inductive outcome (A : Type) : Type :=
| Ok (a : A)
| TypeError
| OutOfFuel.

Arguments Ok {A} a.
Arguments TypeError {A}.
Arguments OutOfFuel {A}.

(** [JSON.stringify(a) === JSON.stringify(b)] ends in the exception of
    whichever call raises. *)
Definition dataMatches (a b : JSValue) : outcome bool :=
  if strict_eq a b then Ok true
  else if is_nullish a || is_nullish b then Ok (strict_eq a b)
  else if typeof_object a && typeof_object b then
    match JSON_stringify a, JSON_stringify b with
    | Raises, _ => TypeError
    | _, Raises => TypeError
    | x, y => Ok (serialized_eqb x y)
    end
  else Ok false.

Record Adjacency : Type := {
  outgoing : JSMap.t JSSet.t;
  incoming : JSMap.t JSSet.t
}.

(** [outgoing.set(n.id, new Set()); incoming.set(n.id, new Set())] *)
Definition blank_step (adj : Adjacency) (n : DAGNode) : Adjacency :=
  {| outgoing := JSMap.set (id n) JSSet.empty (outgoing adj);
     incoming := JSMap.set (id n) JSSet.empty (incoming adj) |}.

(** The body of the loop over the edges.  Inside the guard both keys are
    present (the keys are the identifiers of [nodeIds]), so the two
    [get(...)!] of the source are defined. *)
Definition edge_step (nodeIds : JSSet.t) (adj : Adjacency) (e : DAGEdge) : Adjacency :=
  if JSSet.has (from e) nodeIds && JSSet.has (to e) nodeIds then
    {| outgoing := add_to_entry (from e) (to e) (outgoing adj);
       incoming := add_to_entry (to e) (from e) (incoming adj) |}
  else adj.

Definition buildAdjacency (structure : DAGStructure) : Adjacency :=
  let nodeIds := set_of_list (node_ids structure) in
  fold_left (edge_step nodeIds) (edges structure)
    (fold_left blank_step (nodes structure)
       {| outgoing := JSMap.empty; incoming := JSMap.empty |}).

(** [new Map(structure.nodes.map(n => [n.id, n]))] *)
Definition node_table (structure : DAGStructure) : JSMap.t DAGNode :=
  fold_left (fun m n => JSMap.set (id n) n m) (nodes structure) JSMap.empty.

(** [m.get(k)?.has(x)], [undefined] counting as false. *)
Definition entry_has (k x : string) (m : JSMap.t JSSet.t) : bool :=
  match JSMap.get k m with Some s => JSSet.has x s | None => false end.

(** [m.get(k) ?? []] *)
Definition entry_list (k : string) (m : JSMap.t JSSet.t) : list string :=
  match JSMap.get k m with Some s => s | None => [] end.

Module VF2.

(** The constants that the closures [feasible] and [search] share. *)
Record context : Type := {
  pNodes : list string;
  tNodes : list string;
  pAdj : Adjacency;
  tAdj : Adjacency;
  pNodeMap : JSMap.t DAGNode;
  tNodeMap : JSMap.t DAGNode
}.

Definition context_of (pattern target : DAGStructure) : context :=
  {| pNodes := node_ids pattern;
     tNodes := node_ids target;
     pAdj := buildAdjacency pattern;
     tAdj := buildAdjacency target;
     pNodeMap := node_table pattern;
     tNodeMap := node_table target |}.

(** The two maps that [search] updates and rolls back. *)
Record state : Type := {
  mapping : JSMap.t string;
  reverseMapping : JSMap.t string
}.

Definition init : state :=
  {| mapping := JSMap.empty; reverseMapping := JSMap.empty |}.

(** The degree test of [feasible], on the four sizes. *)
Definition degrees_pass (pOut pIn tOut tIn : nat) : bool :=
  let isRoot := Nat.eqb pIn 0 in
  let isLeaf := Nat.eqb pOut 0 in
  if isRoot && negb (Nat.eqb pOut tOut) then false
  else if isLeaf && negb (Nat.eqb pIn tIn) then false
  else if negb isRoot && negb isLeaf &&
          (negb (Nat.eqb pOut tOut) || negb (Nat.eqb pIn tIn)) then false
  else true.

(** [feasible(p, t)].  [p] is [None] when [pNodes.find] gave [undefined];
    reading [.data] of a missing table entry raises, and so does a
    comparison of payloads that cannot be serialized. *)
Definition feasible (c : context) (m : JSMap.t string) (p : option string) (t : string)
  : outcome bool :=
  match p with
  | None => TypeError
  | Some p =>
      match JSMap.get p (pNodeMap c), JSMap.get t (tNodeMap c) with
      | Some pNode, Some tNode =>
          match dataMatches (data pNode) (data tNode) with
          | Ok false => Ok false
          | Ok true =>
              if negb (degrees_pass (entry_size p (outgoing (pAdj c)))
                                    (entry_size p (incoming (pAdj c)))
                                    (entry_size t (outgoing (tAdj c)))
                                    (entry_size t (incoming (tAdj c)))) then Ok false
              else if negb (forallb (fun p2 =>
                              match JSMap.get p2 m with
                              | Some t2 => entry_has t t2 (outgoing (tAdj c))
                              | None => true
                              end) (entry_list p (outgoing (pAdj c)))) then Ok false
              else if negb (forallb (fun p1 =>
                              match JSMap.get p1 m with
                              | Some t1 => entry_has t t1 (incoming (tAdj c))
                              | None => true
                              end) (entry_list p (incoming (pAdj c)))) then Ok false
              else Ok true
          | TypeError => TypeError
          | OutOfFuel => OutOfFuel
          end
      | _, _ => TypeError
      end
  end.

Definition commit (p t : string) (st : state) : state :=
  {| mapping := JSMap.set p t (mapping st);
     reverseMapping := JSMap.set t p (reverseMapping st) |}.

Definition undo (p t : string) (st : state) : state :=
  {| mapping := JSMap.delete p (mapping st);
     reverseMapping := JSMap.delete t (reverseMapping st) |}.

(** The loop over the target nodes; [rec] is the recursive call
    [search()].  After [feasible] has answered [true] the pattern node is
    a string, since [feasible] raises on [undefined]. *)
Definition try_targets (c : context) (rec : state -> outcome (bool * state))
    (p : option string) (usedTargets : JSSet.t)
  : list string -> state -> outcome (bool * state) :=
  fix loop (ts : list string) (st : state) {struct ts} :=
    match ts with
    | [] => Ok (false, st)
    | t :: rest =>
        if JSSet.has t usedTargets then loop rest st
        else
          match feasible c (mapping st) p t with
          | Ok false => loop rest st
          | Ok true =>
              match p with
              | None => TypeError
              | Some p' =>
                  match rec (commit p' t st) with
                  | Ok (true, st') => Ok (true, st')
                  | Ok (false, st') => loop rest (undo p' t st')
                  | TypeError => TypeError
                  | OutOfFuel => OutOfFuel
                  end
              end
          | TypeError => TypeError
          | OutOfFuel => OutOfFuel
          end
    end.

Fixpoint search (fuel : nat) (c : context) (st : state) : outcome (bool * state) :=
  match fuel with
  | O => OutOfFuel
  | S fuel' =>
      if Nat.eqb (JSMap.size (mapping st)) (length (pNodes c)) then Ok (true, st)
      else
        let p := find (fun x => negb (JSMap.has x (mapping st))) (pNodes c) in
        let usedTargets := set_of_list (JSMap.values (mapping st)) in
        try_targets c (search fuel' c) p usedTargets (tNodes c) st
  end.

End VF2.

Definition vf2_fuel (fuel : nat) (pattern target : DAGStructure)
  : outcome (option (JSMap.t string)) :=
  let c := VF2.context_of pattern target in
  if Nat.eqb (length (VF2.pNodes c)) 0 then Ok (Some JSMap.empty)
  else if Nat.ltb (length (VF2.tNodes c)) (length (VF2.pNodes c)) then Ok None
  else
    match VF2.search fuel c VF2.init with
    | Ok (true, st) => Ok (Some (VF2.mapping st))
    | Ok (false, _) => Ok None
    | TypeError => TypeError
    | OutOfFuel => OutOfFuel
    end.

(** One level of [search] per pattern node, and one more for the test that
    ends the recursion. *)
Definition vf2SubgraphIsomorphism (pattern target : DAGStructure)
  : outcome (option (JSMap.t string)) :=
  vf2_fuel (S (length (nodes pattern))) pattern target.

Definition isSubgraphIsomorphic (pattern target : DAGStructure) : outcome bool :=
  match vf2SubgraphIsomorphism pattern target with
  | Ok (Some _) => Ok true
  | Ok None => Ok false
  | TypeError => TypeError
  | OutOfFuel => OutOfFuel
  end.

(* ================================================================= *)
(** ** Sample structures *)

Definition bare (x : string) : DAGNode := {| id := x; data := VUndefined |}.

Definition arrow (a b : string) : DAGEdge := {| from := a; to := b |}.

Definition diamond : DAGStructure :=
  {| nodes := [bare "a"; bare "b"; bare "c"; bare "d"];
     edges := [arrow "a" "b"; arrow "a" "c"; arrow "b" "d"; arrow "c" "d"] |}.

Definition single_edge : DAGStructure :=
  {| nodes := [bare "p"; bare "q"]; edges := [arrow "p" "q"] |}.

Definition one_node_store : DAG := run_ops [OpAddNode (bare "a")] new_DAG.

Definition two_edge_store : DAG :=
  run_ops [OpAddNode (bare "a"); OpAddNode (bare "b"); OpAddEdge "a" "b"] new_DAG.




Definition dangling_pattern : DAGStructure :=
  {| nodes := [bare "p"]; edges := [arrow "p" "z"] |}.

Definition lone_target : DAGStructure := {| nodes := [bare "a"]; edges := [] |}.



Definition repeated_pattern : DAGStructure :=
  {| nodes := [bare "p"; bare "p"]; edges := [] |}.

Definition two_targets : DAGStructure :=
  {| nodes := [bare "a"; bare "b"]; edges := [] |}.

Definition dangling_source : DAGStructure :=
  {| nodes := [bare "a"]; edges := [arrow "z" "a"] |}.

Definition doubled_edge : DAGStructure :=
  {| nodes := [bare "a"; bare "b"]; edges := [arrow "a" "b"; arrow "a" "b"] |}.

Definition doubled_node : DAGStructure :=
  {| nodes := [bare "a"; bare "a"]; edges := [] |}.

Definition loop_and_dangling : DAGStructure :=
  {| nodes := [bare "a"; bare "b"]; edges := [arrow "a" "a"; arrow "b" "z"] |}.

Definition cycle_with_tail : DAGStructure :=
  {| nodes := [bare "r"; bare "x"; bare "y"; bare "t"; bare "s"];
     edges := [arrow "r" "x"; arrow "x" "y"; arrow "y" "x"; arrow "y" "t";
               arrow "r" "s"] |}.

(* ================================================================= *)
(** ** Vocabulary of the statements *)

(** The edge relation a structure lists. *)
Definition edge_rel (s : DAGStructure) (u v : string) : Prop :=
  In (arrow u v) (edges s).

(** No identifier reaches itself along one or more listed edges. *)
Definition acyclic (s : DAGStructure) : Prop :=
  forall v, ~ clos_trans string (edge_rel s) v v.

(** Every edge names two nodes of the structure. *)
Definition no_dangling (s : DAGStructure) : Prop :=
  forall e, In e (edges s) -> In (from e) (node_ids s) /\ In (to e) (node_ids s).

(** Identifiers are pairwise distinct, no edge is listed twice, and no edge
    dangles. *)
Definition well_formed (s : DAGStructure) : Prop :=
  NoDup (node_ids s) /\ NoDup (edges s) /\ no_dangling s.

(** [u] stands before [v] in [l]. *)
Definition precedes (l : list string) (u v : string) : Prop :=
  exists l1 l2 l3, l = l1 ++ u :: l2 ++ v :: l3.

(** Position of the first occurrence of [x] in [l], [length l] when absent. *)
Fixpoint index_of (x : string) (l : list string) : nat :=
  match l with
  | [] => 0
  | y :: r => if String.eqb x y then 0 else S (index_of x r)
  end.

(** The relation the store's outgoing sets describe. *)
Definition child_rel (g : DAG) (u v : string) : Prop := In v (getChildren g u).

(** Deep value equality of payloads, in the words of the specification: the
    same primitive value, or two composite values that produce the same
    serialized form (one and the same object is equal to itself). *)
Definition deep_equal (a b : JSValue) : Prop :=
  a = b \/
  (exists r j r' j', a = VObj r j /\ b = VObj r' j' /\
                     (r = r' \/ (j = j' /\ j <> Raises))).

(** [x] is the identifier of a node of [s]. *)
Definition is_node (s : DAGStructure) (x : string) : bool :=
  existsb (String.eqb x) (node_ids s).

(** The distinct nodes that the listed edges from the node [u] lead to. *)
Definition successors (s : DAGStructure) (u : string) : list string :=
  nodup string_dec
    (map to (filter (fun e => String.eqb (from e) u && is_node s (from e) && is_node s (to e))
                    (edges s))).

(** The distinct nodes that the listed edges into the node [v] come from. *)
Definition predecessors (s : DAGStructure) (v : string) : list string :=
  nodup string_dec
    (map from (filter (fun e => String.eqb (to e) v && is_node s (from e) && is_node s (to e))
                      (edges s))).

(** The degrees of an identifier in the graph that a structure describes:
    the number of distinct listed edges that join it to a node, the
    identifier being a node itself.  An edge that names a missing node is
    not counted, and a repeated edge counts once. *)
Definition out_degree (s : DAGStructure) (u : string) : nat := length (successors s u).

Definition in_degree (s : DAGStructure) (v : string) : nat := length (predecessors s v).

(** The number of listed edges that name [u] as their source, and as their
    destination, every entry of the list counted. *)
Definition listed_out (s : DAGStructure) (u : string) : nat :=
  length (filter (fun e => String.eqb (from e) u) (edges s)).

Definition listed_in (s : DAGStructure) (v : string) : nat :=
  length (filter (fun e => String.eqb (to e) v) (edges s)).

(** The degree rule for a pattern node [p] and a target node [t], on the
    degrees of the two structures: a root and its image agree on the
    out-degree, a leaf and its image on the in-degree, any other node and
    its image on both. *)
Definition degree_rule (pattern target : DAGStructure) (p t : string) : Prop :=
  (in_degree pattern p = 0 -> out_degree pattern p = out_degree target t) /\
  (out_degree pattern p = 0 -> in_degree pattern p = in_degree target t) /\
  (in_degree pattern p <> 0 -> out_degree pattern p <> 0 ->
     out_degree pattern p = out_degree target t /\
     in_degree pattern p = in_degree target t).

(** The degree rule as [feasible] reads it off the sizes of the sets of the
    adjacency index. *)
Definition degree_condition (c : VF2.context) (p t : string) : Prop :=
  let pOut := entry_size p (outgoing (VF2.pAdj c)) in
  let pIn := entry_size p (incoming (VF2.pAdj c)) in
  let tOut := entry_size t (outgoing (VF2.tAdj c)) in
  let tIn := entry_size t (incoming (VF2.tAdj c)) in
  (pIn = 0 -> pOut = tOut) /\
  (pOut = 0 -> pIn = tIn) /\
  (pIn <> 0 -> pOut <> 0 -> pOut = tOut /\ pIn = tIn).

(** An identifier with an entry in the node map. *)
Definition registered (g : DAG) (x : string) : Prop := JSMap.has x (nodeMap g) = true.

(** The stored node of every key carries the key as its identifier. *)
Definition ids_match (g : DAG) : Prop :=
  map id (getNodes g) = JSMap.keys (nodeMap g).

(* ================================================================= *)
(** ** Invariants of the matcher's search *)

(** What [feasible] has established of a committed pair. *)
Definition pair_ok (pattern target : DAGStructure) (p t : string) : Prop :=
  (exists pn tn,
      JSMap.get p (VF2.pNodeMap (VF2.context_of pattern target)) = Some pn /\
      JSMap.get t (VF2.tNodeMap (VF2.context_of pattern target)) = Some tn /\
      dataMatches (data pn) (data tn) = Ok true) /\
  degree_condition (VF2.context_of pattern target) p t.

(** The invariant of the partial mapping during the search. *)
Definition consistent (pattern target : DAGStructure) (m : JSMap.t string) : Prop :=
  NoDup (JSMap.keys m) /\
  incl (JSMap.keys m) (VF2.pNodes (VF2.context_of pattern target)) /\
  NoDup (JSMap.values m) /\
  incl (JSMap.values m) (VF2.tNodes (VF2.context_of pattern target)) /\
  (forall p t, In (p, t) m -> pair_ok pattern target p t) /\
  (forall p1 t1 p2 t2,
      In (p1, t1) m -> In (p2, t2) m -> p1 <> p2 ->
      In p2 (entry_list p1 (outgoing (VF2.pAdj (VF2.context_of pattern target)))) ->
      In (arrow t1 t2) (edges target)).

(** Every pattern node has an image. *)
Definition complete (pattern target : DAGStructure) (m : JSMap.t string) : Prop :=
  consistent pattern target m /\
  JSMap.size m = length (VF2.pNodes (VF2.context_of pattern target)).

(* ================================================================= *)
(** ** Invariants of the depth-first search *)

(** Some identifier reaches itself along the store's outgoing sets. *)
Definition has_cycle (g : DAG) : Prop :=
  exists v, clos_trans string (child_rel g) v v.

(** The lists that are walks in the store, grown at the end as [path] is. *)
Inductive walk (g : DAG) : list string -> Prop :=
| walk_nil : walk g []
| walk_one (x : string) : walk g [x]
| walk_snoc (l : list string) (x y : string) :
    walk g (l ++ [x]) -> child_rel g x y -> walk g ((l ++ [x]) ++ [y]).

(** Every walk that starts in [x] ends: [x] is accessible for the relation
    "is a child of". *)
Definition finishes (g : DAG) (x : string) : Prop :=
  Acc (fun child parent => child_rel g parent child) x.

(** The state at the head of a call [dfs(n)] that no cycle has preceded. *)
Definition dfs_pre (dag : DAG) (n : string) (st : FindCycles.state) : Prop :=
  FindCycles.cycles st = [] /\
  walk dag (FindCycles.path st ++ [n]) /\
  incl (FindCycles.recursionStack st) (FindCycles.path st) /\
  incl (FindCycles.recursionStack st) (FindCycles.visited st) /\
  ~ In n (FindCycles.visited st) /\
  (forall x, In x (FindCycles.visited st) -> ~ In x (FindCycles.recursionStack st) ->
     finishes dag x).

(** What the call has done when it returns. *)
Definition dfs_post (dag : DAG) (n : string) (st : FindCycles.state)
    (r : bool * FindCycles.state) : Prop :=
  incl (FindCycles.visited st) (FindCycles.visited (snd r)) /\
  if fst r then FindCycles.cycles (snd r) <> [] /\ has_cycle dag
  else FindCycles.cycles (snd r) = [] /\
       FindCycles.path (snd r) = FindCycles.path st /\
       FindCycles.recursionStack (snd r) = FindCycles.recursionStack st /\
       In n (FindCycles.visited (snd r)) /\
       (forall x, In x (FindCycles.visited (snd r)) ->
          In x (FindCycles.visited st) \/ finishes dag x).

(** The state at the head of a turn of the children loop of [dfs(n)],
    entered from [st0]. *)
Definition loop_inv (dag : DAG) (n : string) (st0 st : FindCycles.state) : Prop :=
  FindCycles.cycles st = [] /\
  FindCycles.path st = FindCycles.path st0 ++ [n] /\
  FindCycles.recursionStack st = JSSet.add n (FindCycles.recursionStack st0) /\
  incl (FindCycles.visited st0) (FindCycles.visited st) /\
  In n (FindCycles.visited st) /\
  (forall x, In x (FindCycles.visited st) ->
     x = n \/ In x (FindCycles.visited st0) \/ finishes dag x).

(** The state between two calls of the outer loop: either no cycle has been
    recorded, nothing is on the stack and every visited node finishes, or a
    cycle has been recorded and the store has one. *)
Definition scan_inv (dag : DAG) (st : FindCycles.state) : Prop :=
  (FindCycles.cycles st = [] /\ FindCycles.path st = [] /\
   FindCycles.recursionStack st = [] /\
   forall x, In x (FindCycles.visited st) -> finishes dag x)
  \/ (FindCycles.cycles st <> [] /\ has_cycle dag).

(** The identifiers of the universe that are not yet visited. *)
Definition unvisited (dag : DAG) (st : FindCycles.state) : nat :=
  length (filter (fun x => negb (JSSet.has x (FindCycles.visited st)))
            (FindCycles.universe dag)).

(* ================================================================= *)
(** ** Invariant of Kahn's loop *)

(** The listed edges into [v] whose source is not in [result]. *)
Definition remaining (es : list DAGEdge) (result : list string) (v : string) : nat :=
  length (filter (fun e => String.eqb (to e) v && negb (JSSet.has (from e) result)) es).

(** [u -> v] is a listed edge. *)
Definition has_edge (es : list DAGEdge) (u v : string) : bool :=
  existsb (edge_eqb (arrow u v)) es.

(** The value [visit_child] writes for [c]. *)
Definition lowered (inDegree : JSMap.t Z) (c : string) : Z :=
  ((match JSMap.get c inDegree with Some d => d | None => 1 end) - 1)%Z.

(** Between two turns of the [while] loop: nothing is queued or output
    twice; the table holds for every node the number of its incoming edges
    from nodes not yet output; the nodes queued or output are those whose
    count is zero; and every edge into an output node comes from a node
    output earlier. *)
Definition kahn_inv (s : DAGStructure) (inDegree : JSMap.t Z)
    (queue result : list string) : Prop :=
  NoDup (result ++ queue) /\
  (forall v, In v (node_ids s) ->
     JSMap.get v inDegree = Some (Z.of_nat (remaining (edges s) result v))) /\
  (forall v, In v (result ++ queue) <->
     In v (node_ids s) /\ JSMap.get v inDegree = Some 0%Z) /\
  (forall u v, In (arrow u v) (edges s) -> In v result ->
     In u result /\ index_of u result < index_of v result).

(** What holds between two turns of the loop on any structure, well formed
    or not: nothing is queued or output twice, and what is queued or output
    has a count of zero or less and is an identifier of a node or the
    destination of an edge. *)
Definition kahn_bounded (s : DAGStructure) (inDegree : JSMap.t Z)
    (queue result : list string) : Prop :=
  NoDup (result ++ queue) /\
  (forall x, In x (result ++ queue) ->
     exists d, JSMap.get x inDegree = Some d /\ (d <= 0)%Z) /\
  incl (result ++ queue) (node_ids s ++ map to (edges s)).

(* ================================================================= *)
(** ** Vocabulary of the further statements *)

(** A listed edge whose source is a node of the structure: the edges that
    the store built by [load] follows. *)
Definition registered_edge (s : DAGStructure) (u v : string) : Prop :=
  In u (node_ids s) /\ In (arrow u v) (edges s).

(** What [validateDAG] reports under [missingReferences], [undefined] read
    as the empty list. *)
Definition reported_missing (res : DAGValidationResult) : list (DAGEdge * MissingSide) :=
  match missingReferences res with Some l => l | None => [] end.

(** What [validateDAG] reports under [orphanNodes]. *)
Definition reported_orphans (res : DAGValidationResult) : list string :=
  match orphanNodes res with Some l => l | None => [] end.

(** The node that the matcher's table holds for [x]: the last listed node
    with that identifier. *)
Definition node_of (s : DAGStructure) (x : string) : option DAGNode :=
  find (fun n => String.eqb (id n) x) (rev (nodes s)).

(** [M] assigns to every pattern node a target node of its own, so that the
    payloads of each pair match, each pair meets the degree rule, and every
    listed pattern edge between two different nodes has its image among the
    listed target edges. *)
Definition matching (pattern target : DAGStructure) (M : JSMap.t string) : Prop :=
  NoDup (JSMap.keys M) /\
  (forall p, In p (JSMap.keys M) <-> In p (node_ids pattern)) /\
  NoDup (JSMap.values M) /\
  incl (JSMap.values M) (node_ids target) /\
  (forall p t, In (p, t) M ->
     (exists pn tn, node_of pattern p = Some pn /\ node_of target t = Some tn /\
                    dataMatches (data pn) (data tn) = Ok true) /\
     degree_rule pattern target p t) /\
  (forall p1 t1 p2 t2, In (p1, t1) M -> In (p2, t2) M -> p1 <> p2 ->
     In (arrow p1 p2) (edges pattern) -> In (arrow t1 t2) (edges target)).

(** Every pair of [m] is a pair of [M]. *)
Definition sub_mapping (m M : JSMap.t string) : Prop :=
  forall p t, In (p, t) m -> In (p, t) M.

(** A structure without the edges that name an identifier which is no
    node. *)
Definition without_dangling (s : DAGStructure) : DAGStructure :=
  {| nodes := nodes s;
     edges := filter (fun e => JSSet.has (from e) (set_of_list (node_ids s)) &&
                               JSSet.has (to e) (set_of_list (node_ids s)))
                     (edges s) |}.

(* ================================================================= *)
(** ** Invariants of the traversals *)

(** [x] is one of [starts] or is reached from one of them along the
    store's outgoing sets. *)
Definition reaches (g : DAG) (starts : list string) (x : string) : Prop :=
  exists s0, In s0 starts /\ clos_refl_trans string (child_rel g) s0 x.

(** [u] is in [l] and its first occurrence is before that of [v]. *)
Definition before (l : list string) (u v : string) : Prop :=
  In u l /\ index_of u l < index_of v l.

(** The entries of the outgoing map that the breadth-first loop has yet to
    enqueue, together with the queue: what bounds the turns to come. *)
Definition bfs_potential (g : DAG) (visited : JSSet.t) (queue : list string) : nat :=
  length queue +
  length (flat_map snd
            (filter (fun kv => negb (JSSet.has (fst kv) visited)) (outgoingEdges g))).

(** Between two turns of the breadth-first loop. *)
Definition bfs_inv (g : DAG) (starts : list string) (visited : JSSet.t)
    (queue result : list string) : Prop :=
  visited = result /\
  NoDup result /\
  (forall x, In x (result ++ queue) -> reaches g starts x) /\
  incl starts (result ++ queue) /\
  (forall x y, In x result -> child_rel g x y -> In y (result ++ queue)) /\
  (forall x, In x result -> In x starts \/ exists u, child_rel g u x /\ before result u x) /\
  (forall x, In x queue -> In x starts \/ exists u, child_rel g u x /\ In u result).

(** The keys of the outgoing map that are not yet visited. *)
Definition unmarked (g : DAG) (visited : JSSet.t) : nat :=
  length (filter (fun x => negb (JSSet.has x visited)) (JSMap.keys (outgoingEdges g))).

(** The state at the head of [visit] or of a loop over [xs]: what is output
    has been visited, nothing is output twice, and whatever is visited but
    not yet output reaches every identifier about to be visited. *)
Definition post_pre (g : DAG) (xs : list string) (st : PostOrder.state) : Prop :=
  NoDup (PostOrder.result st) /\
  incl (PostOrder.result st) (PostOrder.visited st) /\
  (forall a x, In a (PostOrder.visited st) -> ~ In a (PostOrder.result st) ->
     In x xs -> clos_refl_trans string (child_rel g) a x).

(** What the calls [visit(x)] for [x] in [xs] have done when they return:
    the new output [new] is what has been newly visited, all of it reached
    from [xs]; every [x] is visited; and every child of a new identifier
    is visited and stands before it in the output or reaches it. *)
Definition post_post (g : DAG) (xs : list string) (st st' : PostOrder.state) : Prop :=
  exists new,
    PostOrder.result st' = PostOrder.result st ++ new /\
    NoDup new /\
    (forall y, In y new -> ~ In y (PostOrder.visited st)) /\
    (forall y, In y (PostOrder.visited st') <-> In y (PostOrder.visited st) \/ In y new) /\
    incl xs (PostOrder.visited st') /\
    (forall y, In y new -> reaches g xs y) /\
    (forall y z, In y new -> child_rel g y z ->
       In z (PostOrder.visited st') /\
       (before (PostOrder.result st') z y \/ clos_refl_trans string (child_rel g) z y)).

(* ================================================================= *)
(** ** Invariants for the first recorded cycle *)

(** What [pathIndex] holds while no cycle has been recorded: the i-th
    identifier of the path under the index i. *)
Definition positions (l : list string) : JSMap.t nat := combine l (seq 0 (length l)).

(** Every two neighbours of [l] are related by [R]. *)
Definition chain (R : string -> string -> Prop) (l : list string) : Prop :=
  forall l1 a b l2, l = l1 ++ a :: b :: l2 -> R a b.

(** A list that ends where it starts, repeats no other identifier, and is
    a walk of the store. *)
Definition closed_walk (g : DAG) (c : list string) : Prop :=
  (exists v l, c = v :: l ++ [v] /\ NoDup (v :: l)) /\ walk g c.

(** The state at the head of a call [dfs(n)] that no cycle has preceded:
    the recursion stack and the index follow the path, which repeats
    nothing. *)
Definition first_pre (g : DAG) (n : string) (st : FindCycles.state) : Prop :=
  FindCycles.cycles st = [] /\
  walk g (FindCycles.path st ++ [n]) /\
  NoDup (FindCycles.path st) /\
  FindCycles.recursionStack st = FindCycles.path st /\
  FindCycles.pathIndex st = positions (FindCycles.path st) /\
  incl (FindCycles.path st) (FindCycles.visited st) /\
  ~ In n (FindCycles.visited st).

(** What the call has done when it returns: it has recorded one closed
    walk, or it has put the path, the stack and the index back. *)
Definition first_post (g : DAG) (st : FindCycles.state)
    (r : bool * FindCycles.state) : Prop :=
  if fst r then exists c, FindCycles.cycles (snd r) = [c] /\ closed_walk g c
  else FindCycles.cycles (snd r) = [] /\
       FindCycles.path (snd r) = FindCycles.path st /\
       FindCycles.recursionStack (snd r) = FindCycles.recursionStack st /\
       FindCycles.pathIndex (snd r) = FindCycles.pathIndex st /\
       incl (FindCycles.visited st) (FindCycles.visited (snd r)).

(** The state at the head of a turn of the children loop of [dfs(n)],
    entered from [st0]. *)
Definition first_loop (n : string) (st0 st : FindCycles.state) : Prop :=
  FindCycles.cycles st = [] /\
  FindCycles.path st = FindCycles.path st0 ++ [n] /\
  FindCycles.recursionStack st = FindCycles.path st /\
  FindCycles.pathIndex st = positions (FindCycles.path st) /\
  incl (FindCycles.visited st0) (FindCycles.visited st) /\
  In n (FindCycles.visited st).

(** The state between two calls of the outer loop: nothing recorded and
    nothing on the path, or a closed walk recorded first. *)
Definition first_scan (g : DAG) (st : FindCycles.state) : Prop :=
  (FindCycles.cycles st = [] /\ FindCycles.path st = [] /\
   FindCycles.recursionStack st = [] /\ FindCycles.pathIndex st = [])
  \/ (exists c cs, FindCycles.cycles st = c :: cs /\ closed_walk g c).

(* ================================================================= *)
(** ** Levels of the breadth-first traversal *)

(** [x] is reached from one of [starts] in [n] steps of [R]. *)
Inductive steps_from (R : string -> string -> Prop) (starts : list string)
  : nat -> string -> Prop :=
| steps_start (x : string) : In x starts -> steps_from R starts 0 x
| steps_next (n : nat) (u x : string) :
    steps_from R starts n u -> R u x -> steps_from R starts (S n) x.

(** No number of the list is followed by a smaller one. *)
Fixpoint nondecreasing (l : list nat) : Prop :=
  match l with
  | [] => True
  | a :: r => (forall b, In b r -> a <= b) /\ nondecreasing r
  end.

(** [x] stands in the output or in the queue with a level of at most [n]. *)
Definition covered (resultT queueT : list (string * nat)) (x : string) (n : nat) : Prop :=
  exists t, t <= n /\ In (x, t) (resultT ++ queueT).

(** Between two turns of the breadth-first loop, for the output and the
    queue annotated with the number of steps by which each identifier was
    found: levels never go down, the queue spans at most two levels, every
    level is the length of a walk from a start identifier, and the start
    identifiers and the children of what is output are covered one level
    further. *)
Definition bfs_levels (g : DAG) (starts : list string)
    (resultT queueT : list (string * nat)) : Prop :=
  nondecreasing (map snd (resultT ++ queueT)) /\
  (forall a b, In a (map snd queueT) -> In b (map snd queueT) -> b <= S a) /\
  (forall x t, In (x, t) (resultT ++ queueT) -> steps_from (child_rel g) starts t x) /\
  (forall s0, In s0 starts -> covered resultT queueT s0 0) /\
  (forall u tu x, In (u, tu) resultT -> child_rel g u x ->
     covered resultT queueT x (S tu)).

(* ================================================================= *)
(** ** Lemmas on the insertion-ordered sets *)

Lemma set_has_In (x : string) (s : JSSet.t) : JSSet.has x s = true <-> In x s.
Proof.
  unfold JSSet.has. rewrite existsb_exists. split.
  - intros [y [Hy Heq]]. apply String.eqb_eq in Heq. now subst.
  - intros H. exists x. split; [assumption | apply String.eqb_refl].
Qed.

Lemma set_has_false (x : string) (s : JSSet.t) : JSSet.has x s = false <-> ~ In x s.
Proof.
  rewrite <- set_has_In. destruct (JSSet.has x s); split; congruence.
Qed.

Lemma set_In_add (x y : string) (s : JSSet.t) :
  In y (JSSet.add x s) <-> y = x \/ In y s.
Proof.
  unfold JSSet.add. destruct (JSSet.has x s) eqn:E.
  - apply set_has_In in E. split; [now right | intros [-> | H]; assumption].
  - rewrite in_app_iff. simpl. split.
    + intros [H | [H | []]]; [now right | now left].
    + intros [-> | H]; [right; now left | now left].
Qed.

Lemma set_NoDup_add (x : string) (s : JSSet.t) : NoDup s -> NoDup (JSSet.add x s).
Proof.
  intros H. unfold JSSet.add. destruct (JSSet.has x s) eqn:E; [assumption |].
  apply set_has_false in E.
  apply NoDup_app; [assumption | repeat constructor; simpl; tauto |].
  intros a Ha [<- | []]. contradiction.
Qed.

Lemma set_In_delete (x y : string) (s : JSSet.t) :
  In y (JSSet.delete x s) <-> In y s /\ y <> x.
Proof.
  unfold JSSet.delete. rewrite filter_In. rewrite negb_true_iff, String.eqb_neq.
  split; intros [H1 H2]; split; auto.
Qed.

Lemma set_delete_fresh (x : string) (s : JSSet.t) :
  ~ In x s -> JSSet.delete x s = s.
Proof.
  unfold JSSet.delete. induction s as [| y s IH]; simpl; intros H; [reflexivity |].
  destruct (String.eqb_spec x y) as [-> | Hne]; simpl.
  - exfalso. apply H. now left.
  - f_equal. apply IH. tauto.
Qed.

Lemma set_delete_add_fresh (x : string) (s : JSSet.t) :
  ~ In x s -> JSSet.delete x (JSSet.add x s) = s.
Proof.
  intros H. unfold JSSet.add. rewrite (proj2 (set_has_false x s) H).
  unfold JSSet.delete. rewrite filter_app. simpl. rewrite String.eqb_refl. simpl.
  rewrite app_nil_r. now apply set_delete_fresh.
Qed.

Lemma set_of_list_acc (l : list string) (s : JSSet.t) (y : string) :
  In y (fold_left (fun s x => JSSet.add x s) l s) <-> In y s \/ In y l.
Proof.
  revert s. induction l as [| a l IH]; simpl; intros s; [tauto |].
  rewrite IH, set_In_add. intuition congruence.
Qed.

Lemma set_of_list_In (l : list string) (y : string) :
  In y (set_of_list l) <-> In y l.
Proof.
  unfold set_of_list. rewrite set_of_list_acc. simpl. tauto.
Qed.

Lemma set_of_list_acc_NoDup (l : list string) (s : JSSet.t) :
  NoDup s -> NoDup (fold_left (fun s x => JSSet.add x s) l s).
Proof.
  revert s. induction l as [| a l IH]; simpl; intros s H; [assumption |].
  apply IH. now apply set_NoDup_add.
Qed.

(* ================================================================= *)
(** ** Lemmas on the insertion-ordered maps *)

Section MapFacts.

Variable V : Type.
Implicit Types (m : JSMap.t V) (k : string) (v : V).

Lemma map_get_set_eq k v m : JSMap.get k (JSMap.set k v m) = Some v.
Proof.
  induction m as [| [k' v'] m IH]; simpl.
  - now rewrite String.eqb_refl.
  - destruct (String.eqb_spec k k') as [-> | Hne]; simpl.
    + now rewrite String.eqb_refl.
    + rewrite (proj2 (String.eqb_neq k k') Hne). exact IH.
Qed.

Lemma map_get_set_neq k k' v m :
  k <> k' -> JSMap.get k' (JSMap.set k v m) = JSMap.get k' m.
Proof.
  intros Hne. induction m as [| [k0 v0] m IH]; simpl.
  - rewrite (proj2 (String.eqb_neq k' k)); [reflexivity | congruence].
  - destruct (String.eqb_spec k k0) as [-> | Hne0]; simpl.
    + rewrite (proj2 (String.eqb_neq k' k0)); [reflexivity | congruence].
    + destruct (String.eqb k' k0); [reflexivity | exact IH].
Qed.

Lemma map_has_In k m : JSMap.has k m = true <-> In k (JSMap.keys m).
Proof.
  unfold JSMap.has, JSMap.keys.
  induction m as [| [k' v'] m IH]; simpl.
  - split; [discriminate | tauto].
  - destruct (String.eqb_spec k k') as [-> | Hne].
    + split; auto.
    + rewrite IH. split; [tauto | intros [H | H]; congruence].
Qed.

Lemma map_has_false k m : JSMap.has k m = false <-> ~ In k (JSMap.keys m).
Proof.
  rewrite <- map_has_In. destruct (JSMap.has k m); split; congruence.
Qed.

Lemma map_get_None k m : JSMap.get k m = None <-> ~ In k (JSMap.keys m).
Proof.
  rewrite <- map_has_false. unfold JSMap.has.
  destruct (JSMap.get k m); split; congruence.
Qed.

Lemma map_get_Some_keys k v m : JSMap.get k m = Some v -> In k (JSMap.keys m).
Proof.
  intros H. apply map_has_In. unfold JSMap.has. now rewrite H.
Qed.

Lemma map_get_Some_In k v m : JSMap.get k m = Some v -> In (k, v) m.
Proof.
  induction m as [| [k' v'] m IH]; simpl; [discriminate |].
  destruct (String.eqb_spec k k') as [-> | Hne].
  - intros [= ->]. now left.
  - intros H. right. now apply IH.
Qed.

Lemma map_In_get k v m : NoDup (JSMap.keys m) -> In (k, v) m -> JSMap.get k m = Some v.
Proof.
  unfold JSMap.keys.
  induction m as [| [k' v'] m IH]; simpl; [tauto |].
  intros Hnd [H | H].
  - inversion H; subst. now rewrite String.eqb_refl.
  - inversion Hnd as [| ? ? Hnotin Hnd']; subst.
    destruct (String.eqb_spec k k') as [-> | Hne].
    + exfalso. apply Hnotin. change k' with (fst (k', v)). now apply in_map.
    + now apply IH.
Qed.

Lemma map_keys_set k v m :
  JSMap.keys (JSMap.set k v m) =
  if JSMap.has k m then JSMap.keys m else JSMap.keys m ++ [k].
Proof.
  unfold JSMap.has, JSMap.keys.
  induction m as [| [k' v'] m IH]; simpl; [reflexivity |].
  destruct (String.eqb_spec k k') as [-> | Hne]; simpl; [reflexivity |].
  rewrite IH. now destruct (JSMap.get k m).
Qed.

Lemma map_keys_set_In k v m x :
  In x (JSMap.keys (JSMap.set k v m)) <-> x = k \/ In x (JSMap.keys m).
Proof.
  rewrite map_keys_set. destruct (JSMap.has k m) eqn:E.
  - apply map_has_In in E. split; [tauto | intros [-> | H]; assumption].
  - rewrite in_app_iff. simpl. intuition.
Qed.

Lemma map_NoDup_set k v m : NoDup (JSMap.keys m) -> NoDup (JSMap.keys (JSMap.set k v m)).
Proof.
  intros H. rewrite map_keys_set. destruct (JSMap.has k m) eqn:E; [assumption |].
  apply map_has_false in E.
  apply NoDup_app; [assumption | repeat constructor; simpl; tauto |].
  intros a Ha [<- | []]. contradiction.
Qed.

Lemma map_keys_delete k m :
  JSMap.keys (JSMap.delete k m) = filter (fun y => negb (String.eqb k y)) (JSMap.keys m).
Proof.
  unfold JSMap.keys.
  induction m as [| [k' v'] m IH]; simpl; [reflexivity |].
  destruct (String.eqb k k'); simpl; [exact IH | now rewrite IH].
Qed.

Lemma map_get_delete_eq k m : JSMap.get k (JSMap.delete k m) = None.
Proof.
  apply map_get_None. rewrite map_keys_delete, filter_In.
  rewrite String.eqb_refl. simpl. intros [_ H]. discriminate.
Qed.

Lemma map_get_delete_neq k k' m :
  k <> k' -> JSMap.get k' (JSMap.delete k m) = JSMap.get k' m.
Proof.
  intros Hne. induction m as [| [k0 v0] m IH]; simpl; [reflexivity |].
  destruct (String.eqb_spec k k0) as [-> | Hne0]; simpl.
  - rewrite (proj2 (String.eqb_neq k' k0)); [exact IH | congruence].
  - destruct (String.eqb k' k0); [reflexivity | exact IH].
Qed.

Lemma map_delete_fresh k m : ~ In k (JSMap.keys m) -> JSMap.delete k m = m.
Proof.
  unfold JSMap.keys.
  induction m as [| [k' v'] m IH]; simpl; intros H; [reflexivity |].
  destruct (String.eqb_spec k k') as [-> | Hne].
  - exfalso. apply H. now left.
  - f_equal. apply IH. tauto.
Qed.

Lemma map_set_fresh k v m : ~ In k (JSMap.keys m) -> JSMap.set k v m = m ++ [(k, v)].
Proof.
  unfold JSMap.keys.
  induction m as [| [k' v'] m IH]; simpl; intros H; [reflexivity |].
  destruct (String.eqb_spec k k') as [-> | Hne].
  - exfalso. apply H. now left.
  - f_equal. apply IH. tauto.
Qed.

Lemma map_delete_set_fresh k v m :
  ~ In k (JSMap.keys m) -> JSMap.delete k (JSMap.set k v m) = m.
Proof.
  intros H. rewrite (map_set_fresh k v m H).
  induction m as [| [k' v'] m IH]; simpl.
  - now rewrite String.eqb_refl.
  - simpl in H. destruct (String.eqb_spec k k') as [-> | Hne]; [tauto |].
    f_equal. apply IH. unfold JSMap.keys in *. simpl in H. tauto.
Qed.

Lemma map_NoDup_delete k m : NoDup (JSMap.keys m) -> NoDup (JSMap.keys (JSMap.delete k m)).
Proof.
  intros H. rewrite map_keys_delete. now apply NoDup_filter.
Qed.

End MapFacts.

(* ================================================================= *)
(** ** The graph store: keys of the three maps *)

Lemma map_has_same_keys {A B : Type} (k : string) (m1 : JSMap.t A) (m2 : JSMap.t B) :
  JSMap.keys m1 = JSMap.keys m2 -> JSMap.has k m1 = JSMap.has k m2.
Proof.
  intros H. apply Bool.eq_iff_eq_true. rewrite !map_has_In. now rewrite H.
Qed.

Lemma add_to_entry_keys (k x : string) (m : JSMap.t JSSet.t) :
  JSMap.keys (add_to_entry k x m) = JSMap.keys m.
Proof.
  unfold add_to_entry. destruct (JSMap.get k m) eqn:E; [| reflexivity].
  rewrite map_keys_set. unfold JSMap.has. now rewrite E.
Qed.

Lemma add_to_entry_get (k x k' : string) (m : JSMap.t JSSet.t) :
  JSMap.get k' (add_to_entry k x m) =
  if String.eqb k k' then option_map (JSSet.add x) (JSMap.get k m) else JSMap.get k' m.
Proof.
  unfold add_to_entry. destruct (String.eqb_spec k k') as [<- | Hne].
  - destruct (JSMap.get k m) eqn:E; simpl; [apply map_get_set_eq | exact E].
  - destruct (JSMap.get k m); [now apply map_get_set_neq | reflexivity].
Qed.

Lemma scrub_keys (x : string) (m : JSMap.t JSSet.t) :
  JSMap.keys (scrub x m) = JSMap.keys m.
Proof.
  unfold scrub, JSMap.keys. rewrite map_map. reflexivity.
Qed.

Lemma keys_agree_new : keys_agree new_DAG.
Proof. split; reflexivity. Qed.

Lemma keys_agree_addNode (n : DAGNode) (g : DAG) :
  keys_agree g -> keys_agree (addNode n g).
Proof.
  intros [Ho Hi]. unfold keys_agree, addNode. simpl.
  rewrite (map_has_same_keys (id n) _ _ Ho), (map_has_same_keys (id n) _ _ Hi).
  rewrite (map_keys_set _ (id n) n (nodeMap g)).
  destruct (JSMap.has (id n) (nodeMap g)) eqn:E.
  - now split.
  - rewrite !map_keys_set.
    rewrite (map_has_same_keys (id n) _ _ Ho), (map_has_same_keys (id n) _ _ Hi), E.
    now rewrite Ho, Hi.
Qed.

Lemma keys_agree_addEdge (f t : string) (g : DAG) :
  keys_agree g -> keys_agree (addEdge f t g).
Proof.
  intros [Ho Hi]. unfold keys_agree, addEdge. simpl.
  now rewrite !add_to_entry_keys.
Qed.

Lemma keys_agree_removeNode (x : string) (g : DAG) :
  keys_agree g -> keys_agree (removeNode x g).
Proof.
  intros [Ho Hi]. unfold keys_agree, removeNode. simpl.
  rewrite !scrub_keys, !map_keys_delete. now rewrite Ho, Hi.
Qed.

Lemma keys_agree_fold_addNode (ns : list DAGNode) (g : DAG) :
  keys_agree g -> keys_agree (fold_left (fun acc node => addNode node acc) ns g).
Proof.
  revert g. induction ns as [| n ns IH]; simpl; intros g H; [assumption |].
  apply IH. now apply keys_agree_addNode.
Qed.

Lemma keys_agree_fold_addEdge (es : list DAGEdge) (g : DAG) :
  keys_agree g ->
  keys_agree (fold_left (fun acc edge => addEdge (from edge) (to edge) acc) es g).
Proof.
  revert g. induction es as [| e es IH]; simpl; intros g H; [assumption |].
  apply IH. now apply keys_agree_addEdge.
Qed.

Lemma keys_agree_load (s : DAGStructure) (g : DAG) : keys_agree (load s g).
Proof.
  unfold load. apply keys_agree_fold_addEdge, keys_agree_fold_addNode.
  exact keys_agree_new.
Qed.

Lemma keys_agree_apply_op (g : DAG) (op : StoreOp) :
  keys_agree g -> keys_agree (apply_op g op).
Proof.
  intros H. destruct op; simpl.
  - now apply keys_agree_addNode.
  - now apply keys_agree_addEdge.
  - now apply keys_agree_removeNode.
  - apply keys_agree_load.
  - exact keys_agree_new.
Qed.

Lemma keys_agree_run_ops (ops : list StoreOp) (g : DAG) :
  keys_agree g -> keys_agree (run_ops ops g).
Proof.
  unfold run_ops. revert g. induction ops as [| op ops IH]; simpl; intros g H.
  - assumption.
  - apply IH. now apply keys_agree_apply_op.
Qed.

Lemma keys_agree_reachable (g : DAG) : reachable g -> keys_agree g.
Proof.
  intros [ops ->]. apply keys_agree_run_ops, keys_agree_new.
Qed.

(** C7: starting from an empty store, after every sequence of [addNode],
    [addEdge], [removeNode], [load] and [clear] the outgoing map, the
    incoming map and the node map have the same keys (here: the same keys in
    the same order, which gives the same set of keys), and every single
    operation preserves this. *)
Theorem store_keys_invariant :
  (forall ops, keys_agree (run_ops ops new_DAG)) /\
  (forall g op, keys_agree g -> keys_agree (apply_op g op)) /\
  (forall ops x,
      let g := run_ops ops new_DAG in
      (In x (JSMap.keys (outgoingEdges g)) <-> In x (JSMap.keys (nodeMap g))) /\
      (In x (JSMap.keys (incomingEdges g)) <-> In x (JSMap.keys (nodeMap g)))).
Proof.
  split; [| split].
  - intros ops. apply keys_agree_run_ops, keys_agree_new.
  - exact keys_agree_apply_op.
  - intros ops x g.
    destruct (keys_agree_run_ops ops new_DAG keys_agree_new) as [Ho Hi].
    fold g in Ho, Hi. rewrite Ho, Hi. tauto.
Qed.

(* ================================================================= *)
(** ** The graph store: [addEdge] and [addNode] *)


Lemma getChildren_addEdge (g : DAG) (f t x : string) :
  getChildren (addEdge f t g) x =
  if String.eqb f x && JSMap.has f (outgoingEdges g)
  then JSSet.add t (getChildren g f) else getChildren g x.
Proof.
  unfold getChildren, addEdge, JSMap.has. simpl. rewrite add_to_entry_get.
  destruct (String.eqb_spec f x) as [<- | Hne]; simpl; [| reflexivity].
  destruct (JSMap.get f (outgoingEdges g)); reflexivity.
Qed.

Lemma getParents_addEdge (g : DAG) (f t x : string) :
  getParents (addEdge f t g) x =
  if String.eqb t x && JSMap.has t (incomingEdges g)
  then JSSet.add f (getParents g t) else getParents g x.
Proof.
  unfold getParents, addEdge, JSMap.has. simpl. rewrite add_to_entry_get.
  destruct (String.eqb_spec t x) as [<- | Hne]; simpl; [| reflexivity].
  destruct (JSMap.get t (incomingEdges g)); reflexivity.
Qed.

Lemma add_to_entry_absent (k x : string) (m : JSMap.t JSSet.t) :
  JSMap.has k m = false -> add_to_entry k x m = m.
Proof.
  unfold JSMap.has, add_to_entry. destruct (JSMap.get k m); [discriminate | reflexivity].
Qed.

(** C6, as the code has it: in every state of the store, [addEdge(from, to)]
    inserts [to] into [from]'s outgoing set whenever [from] is registered
    and [from] into [to]'s incoming set whenever [to] is registered, each
    side on its own; the node map and the sets of the other identifiers
    stay as they are, and the whole store is unchanged when neither endpoint
    is registered. *)
Theorem addEdge_effect (g : DAG) (f t : string) :
  reachable g ->
  let g' := addEdge f t g in
  nodeMap g' = nodeMap g /\
  (registered g f -> getChildren g' f = JSSet.add t (getChildren g f)) /\
  (registered g t -> getParents g' t = JSSet.add f (getParents g t)) /\
  (~ registered g f -> outgoingEdges g' = outgoingEdges g) /\
  (~ registered g t -> incomingEdges g' = incomingEdges g) /\
  (forall x, x <> f -> getChildren g' x = getChildren g x) /\
  (forall x, x <> t -> getParents g' x = getParents g x) /\
  (~ registered g f -> ~ registered g t -> g' = g).
Proof.
  intros Hr g'. destruct (keys_agree_reachable g Hr) as [Ho Hi].
  unfold registered.
  assert (Hof : JSMap.has f (outgoingEdges g) = JSMap.has f (nodeMap g))
    by now apply map_has_same_keys.
  assert (Hit : JSMap.has t (incomingEdges g) = JSMap.has t (nodeMap g))
    by now apply map_has_same_keys.
  repeat split.
  - intros H. unfold g'. rewrite getChildren_addEdge, String.eqb_refl, Hof, H. reflexivity.
  - intros H. unfold g'. rewrite getParents_addEdge, String.eqb_refl, Hit, H. reflexivity.
  - intros H. simpl. apply add_to_entry_absent. rewrite Hof.
    now destruct (JSMap.has f (nodeMap g)).
  - intros H. simpl. apply add_to_entry_absent. rewrite Hit.
    now destruct (JSMap.has t (nodeMap g)).
  - intros x Hx. unfold g'. rewrite getChildren_addEdge.
    destruct (String.eqb_spec f x); [congruence | reflexivity].
  - intros x Hx. unfold g'. rewrite getParents_addEdge.
    destruct (String.eqb_spec t x); [congruence | reflexivity].
  - intros H1 H2. unfold g', addEdge. destruct g as [nm out inc]. simpl in *. f_equal.
    + apply add_to_entry_absent. rewrite Hof. now destruct (JSMap.has f nm).
    + apply add_to_entry_absent. rewrite Hit. now destruct (JSMap.has t nm).
Qed.


Lemma addEdge_effect_witness :
  let g' := addEdge "a" "z" one_node_store in
  nodeMap g' = nodeMap one_node_store /\
  (registered one_node_store "a" ->
   getChildren g' "a" = JSSet.add "z" (getChildren one_node_store "a")) /\
  (registered one_node_store "z" ->
   getParents g' "z" = JSSet.add "a" (getParents one_node_store "z")) /\
  (~ registered one_node_store "a" -> outgoingEdges g' = outgoingEdges one_node_store) /\
  (~ registered one_node_store "z" -> incomingEdges g' = incomingEdges one_node_store) /\
  (forall x, x <> "a" -> getChildren g' x = getChildren one_node_store x) /\
  (forall x, x <> "z" -> getParents g' x = getParents one_node_store x) /\
  (~ registered one_node_store "a" -> ~ registered one_node_store "z" ->
   g' = one_node_store).
Proof.
  apply (addEdge_effect one_node_store "a" "z").
  exists [OpAddNode (bare "a")]. reflexivity.
Defined.

(** C6 as written fails: with [a] registered and [z] not, [addEdge(a, z)]
    is not a no-op, [z] enters [a]'s outgoing set. *)
Lemma addEdge_unregistered_target_changes_store :
  reachable one_node_store /\
  registered one_node_store "a" /\
  ~ registered one_node_store "z" /\
  addEdge "a" "z" one_node_store <> one_node_store /\
  getChildren (addEdge "a" "z" one_node_store) "a" = ["z"].
Proof.
  split; [exists [OpAddNode (bare "a")]; reflexivity |].
  split; [reflexivity |].
  split; [unfold registered; simpl; discriminate |].
  split; [| reflexivity].
  intros H. apply (f_equal outgoingEdges) in H. discriminate H.
Qed.

(** C10: in every state of the store, [addNode] of a node whose identifier
    is already registered stores the new node under that identifier and
    leaves the outgoing and the incoming map exactly as they were; the other
    nodes stay as well. *)
Theorem addNode_registered_frame (g : DAG) (n : DAGNode) :
  reachable g ->
  registered g (id n) ->
  getNode (id n) (addNode n g) = Some n /\
  outgoingEdges (addNode n g) = outgoingEdges g /\
  incomingEdges (addNode n g) = incomingEdges g /\
  (forall x, x <> id n -> getNode x (addNode n g) = getNode x g) /\
  JSMap.keys (nodeMap (addNode n g)) = JSMap.keys (nodeMap g).
Proof.
  intros Hr Hreg. destruct (keys_agree_reachable g Hr) as [Ho Hi].
  unfold registered in Hreg. unfold getNode, addNode. simpl.
  rewrite (map_has_same_keys (id n) _ _ Ho), (map_has_same_keys (id n) _ _ Hi), Hreg.
  repeat split.
  - apply map_get_set_eq.
  - intros x Hx. apply map_get_set_neq. congruence.
  - rewrite map_keys_set, Hreg. reflexivity.
Qed.


Lemma addNode_registered_frame_witness :
  let n := {| id := "a"; data := VNum 7 |} in
  getNode (id n) (addNode n two_edge_store) = Some n /\
  outgoingEdges (addNode n two_edge_store) = outgoingEdges two_edge_store /\
  incomingEdges (addNode n two_edge_store) = incomingEdges two_edge_store /\
  (forall x, x <> id n -> getNode x (addNode n two_edge_store) = getNode x two_edge_store) /\
  JSMap.keys (nodeMap (addNode n two_edge_store)) = JSMap.keys (nodeMap two_edge_store).
Proof.
  apply (addNode_registered_frame two_edge_store {| id := "a"; data := VNum 7 |}).
  - exists [OpAddNode (bare "a"); OpAddNode (bare "b"); OpAddEdge "a" "b"]. reflexivity.
  - reflexivity.
Defined.

(* ================================================================= *)
(** ** The graph store: [load] and [toStructure] *)

Lemma edge_eta (e : DAGEdge) : arrow (from e) (to e) = e.
Proof. now destruct e. Qed.

Lemma getChildren_addNode (n : DAGNode) (g : DAG) (x : string) :
  getChildren (addNode n g) x = getChildren g x.
Proof.
  unfold getChildren, addNode, JSMap.has. simpl.
  destruct (JSMap.get (id n) (outgoingEdges g)) eqn:E; [reflexivity |].
  destruct (String.eqb_spec (id n) x) as [<- | Hne].
  - now rewrite map_get_set_eq, E.
  - now rewrite map_get_set_neq.
Qed.

Lemma getChildren_fold_addNode (ns : list DAGNode) (g : DAG) (x : string) :
  getChildren (fold_left (fun acc node => addNode node acc) ns g) x = getChildren g x.
Proof.
  revert g. induction ns as [| n ns IH]; simpl; intros g; [reflexivity |].
  rewrite IH. apply getChildren_addNode.
Qed.

Lemma nodeMap_fold_addNode (ns : list DAGNode) (g : DAG) :
  nodeMap (fold_left (fun acc node => addNode node acc) ns g) =
  fold_left (fun m n => JSMap.set (id n) n m) ns (nodeMap g).
Proof.
  revert g. induction ns as [| n ns IH]; simpl; intros g; [reflexivity |].
  now rewrite IH.
Qed.

Lemma nodeMap_fold_addEdge (es : list DAGEdge) (g : DAG) :
  nodeMap (fold_left (fun acc edge => addEdge (from edge) (to edge) acc) es g) = nodeMap g.
Proof.
  revert g. induction es as [| e es IH]; simpl; intros g; [reflexivity |].
  now rewrite IH.
Qed.

Lemma outgoing_keys_fold_addEdge (es : list DAGEdge) (g : DAG) :
  JSMap.keys (outgoingEdges (fold_left (fun acc edge => addEdge (from edge) (to edge) acc) es g))
  = JSMap.keys (outgoingEdges g).
Proof.
  revert g. induction es as [| e es IH]; simpl; intros g; [reflexivity |].
  rewrite IH. simpl. apply add_to_entry_keys.
Qed.

Lemma getChildren_fold_addEdge (es : list DAGEdge) (g : DAG) (u v : string) :
  In v (getChildren (fold_left (fun acc edge => addEdge (from edge) (to edge) acc) es g) u)
  <-> In v (getChildren g u) \/
      (JSMap.has u (outgoingEdges g) = true /\ In (arrow u v) es).
Proof.
  revert g. induction es as [| e es IH]; simpl; intros g; [tauto |].
  rewrite IH. rewrite getChildren_addEdge.
  assert (Hk : JSMap.has u (outgoingEdges (addEdge (from e) (to e) g))
               = JSMap.has u (outgoingEdges g)).
  { apply map_has_same_keys. simpl. apply add_to_entry_keys. }
  rewrite Hk. destruct (String.eqb_spec (from e) u) as [Heq | Hne]; simpl.
  - subst u. destruct (JSMap.has (from e) (outgoingEdges g)) eqn:Eh.
    + rewrite set_In_add. split.
      * intros [[-> | H] | [_ H]]; auto.
        right. split; [reflexivity |]. left. symmetry. apply edge_eta.
      * intros [H | [_ [H | H]]]; auto.
        left. left. apply (f_equal to) in H. simpl in H. now symmetry.
    + split; [intros [H | [H _]]; [now left | discriminate] |].
      intros [H | [H _]]; [now left | discriminate].
  - split.
    + intros [H | [H1 H2]]; auto.
    + intros [H | [H1 [H2 | H2]]]; auto.
      exfalso. apply Hne. apply (f_equal from) in H2. exact H2.
Qed.

Lemma fold_set_keys_In (ns : list DAGNode) (m : JSMap.t DAGNode) (x : string) :
  In x (JSMap.keys (fold_left (fun m n => JSMap.set (id n) n m) ns m))
  <-> In x (JSMap.keys m) \/ In x (map id ns).
Proof.
  revert m. induction ns as [| n ns IH]; simpl; intros m; [tauto |].
  rewrite IH, map_keys_set_In. intuition.
Qed.

Lemma fold_set_keys_NoDup (ns : list DAGNode) (m : JSMap.t DAGNode) :
  NoDup (JSMap.keys m) ->
  NoDup (JSMap.keys (fold_left (fun m n => JSMap.set (id n) n m) ns m)).
Proof.
  revert m. induction ns as [| n ns IH]; simpl; intros m H; [assumption |].
  apply IH. now apply map_NoDup_set.
Qed.

Lemma fold_set_fresh (ns : list DAGNode) (m : JSMap.t DAGNode) :
  NoDup (map id ns) ->
  (forall n, In n ns -> ~ In (id n) (JSMap.keys m)) ->
  fold_left (fun m n => JSMap.set (id n) n m) ns m = m ++ map (fun n => (id n, n)) ns.
Proof.
  revert m. induction ns as [| n ns IH]; simpl; intros m Hnd Hfresh.
  - now rewrite app_nil_r.
  - inversion Hnd as [| ? ? Hnotin Hnd']; subst.
    rewrite IH; [| assumption |].
    + rewrite map_set_fresh by (apply Hfresh; now left).
      now rewrite <- app_assoc.
    + intros n' Hn'. rewrite map_keys_set_In. intros [Heq | Hin].
      * apply Hnotin. rewrite <- Heq. now apply in_map.
      * apply (Hfresh n'); [now right | assumption].
Qed.

(** The store built from a structure: its keys, its nodes, its children. *)
Lemma DAG_of_keys_agree (s : DAGStructure) : keys_agree (DAG_of s).
Proof. apply keys_agree_load. Qed.

Lemma DAG_of_nodeMap (s : DAGStructure) : nodeMap (DAG_of s) = node_table s.
Proof.
  unfold DAG_of, load, node_table. rewrite nodeMap_fold_addEdge, nodeMap_fold_addNode.
  reflexivity.
Qed.

Lemma DAG_of_registered (s : DAGStructure) (x : string) :
  In x (JSMap.keys (nodeMap (DAG_of s))) <-> In x (node_ids s).
Proof.
  rewrite DAG_of_nodeMap. unfold node_table. rewrite fold_set_keys_In. simpl.
  unfold node_ids. tauto.
Qed.

Lemma DAG_of_keys_NoDup (s : DAGStructure) : NoDup (JSMap.keys (nodeMap (DAG_of s))).
Proof.
  rewrite DAG_of_nodeMap. apply fold_set_keys_NoDup. constructor.
Qed.

Lemma DAG_of_getNodes (s : DAGStructure) :
  NoDup (node_ids s) -> getNodes (DAG_of s) = nodes s.
Proof.
  intros Hnd. unfold getNodes. rewrite DAG_of_nodeMap. unfold node_table.
  rewrite fold_set_fresh; [| exact Hnd | intros n _ []].
  simpl. unfold JSMap.values. rewrite map_map. simpl. apply map_id.
Qed.

Lemma DAG_of_children (s : DAGStructure) (u v : string) :
  In v (getChildren (DAG_of s) u) <-> In u (node_ids s) /\ In (arrow u v) (edges s).
Proof.
  unfold DAG_of, load. rewrite getChildren_fold_addEdge, getChildren_fold_addNode.
  set (g1 := fold_left (fun acc node => addNode node acc) (nodes s) (clear new_DAG)).
  assert (Hk : keys_agree g1) by (apply keys_agree_fold_addNode, keys_agree_new).
  destruct Hk as [Ho _].
  rewrite (map_has_same_keys u _ _ Ho), map_has_In.
  unfold g1. rewrite nodeMap_fold_addNode, fold_set_keys_In. simpl.
  unfold getChildren. simpl. unfold node_ids. tauto.
Qed.

Lemma toStructure_edges (g : DAG) (e : DAGEdge) :
  NoDup (JSMap.keys (outgoingEdges g)) ->
  (In e (edges (toStructure g)) <-> In (to e) (getChildren g (from e))).
Proof.
  intros Hnd. unfold toStructure, getChildren. simpl. rewrite in_flat_map. split.
  - intros [[k s] [Hin He]]. simpl in He. apply in_map_iff in He.
    destruct He as [t [<- Ht]]. cbn [from to fst].
    now rewrite (map_In_get JSSet.t k s _ Hnd Hin).
  - intros H. destruct (JSMap.get (from e) (outgoingEdges g)) as [s |] eqn:E; [| destruct H].
    exists (from e, s). split; [now apply map_get_Some_In |].
    simpl. apply in_map_iff. exists (to e). split; [apply edge_eta | assumption].
Qed.





(* ================================================================= *)
(** ** The matcher: the adjacency index *)

Lemma entry_list_add_to_entry (k x k' : string) (m : JSMap.t JSSet.t) :
  entry_list k' (add_to_entry k x m) =
  if String.eqb k k' && JSMap.has k m then JSSet.add x (entry_list k m) else entry_list k' m.
Proof.
  unfold entry_list, JSMap.has. rewrite add_to_entry_get.
  destruct (String.eqb_spec k k') as [<- | Hne]; simpl; [| reflexivity].
  destruct (JSMap.get k m); reflexivity.
Qed.

Lemma entry_has_In (k x : string) (m : JSMap.t JSSet.t) :
  entry_has k x m = true <-> In x (entry_list k m).
Proof.
  unfold entry_has, entry_list. destruct (JSMap.get k m).
  - apply set_has_In.
  - simpl. split; [discriminate | tauto].
Qed.

Lemma entry_list_set_empty (k k' : string) (m : JSMap.t JSSet.t) :
  entry_list k' m = [] -> entry_list k' (JSMap.set k JSSet.empty m) = [].
Proof.
  unfold entry_list. intros H. destruct (String.eqb_spec k k') as [<- | Hne].
  - now rewrite map_get_set_eq.
  - now rewrite map_get_set_neq.
Qed.

Section AdjacencyOf.

Variable s : DAGStructure.

Lemma blank_fold (ns : list DAGNode) (adj : Adjacency) :
  (forall u, entry_list u (outgoing adj) = []) ->
  (forall u, entry_list u (incoming adj) = []) ->
  let adj' := fold_left blank_step ns adj in
  (forall u, entry_list u (outgoing adj') = []) /\
  (forall u, entry_list u (incoming adj') = []) /\
  (forall u, In u (JSMap.keys (outgoing adj')) <->
             In u (JSMap.keys (outgoing adj)) \/ In u (map id ns)) /\
  (forall u, In u (JSMap.keys (incoming adj')) <->
             In u (JSMap.keys (incoming adj)) \/ In u (map id ns)).
Proof.
  revert adj. induction ns as [| n ns IH]; simpl; intros adj Ho Hi.
  - repeat split; intros; auto; tauto.
  - destruct (IH (blank_step adj n)) as [H1 [H2 [H3 H4]]].
    + intros u. simpl. now apply entry_list_set_empty.
    + intros u. simpl. now apply entry_list_set_empty.
    + split; [exact H1 |]. split; [exact H2 |]. split.
      * intros u. rewrite H3. simpl. rewrite map_keys_set_In. intuition congruence.
      * intros u. rewrite H4. simpl. rewrite map_keys_set_In. intuition congruence.
Qed.

Lemma edge_step_has_out (adj : Adjacency) (e : DAGEdge) (u : string) :
  JSMap.has u (outgoing (edge_step (set_of_list (node_ids s)) adj e)) = JSMap.has u (outgoing adj).
Proof.
  unfold edge_step. destruct (_ && _); [| reflexivity].
  apply map_has_same_keys. simpl. apply add_to_entry_keys.
Qed.

Lemma edge_step_has_in (adj : Adjacency) (e : DAGEdge) (u : string) :
  JSMap.has u (incoming (edge_step (set_of_list (node_ids s)) adj e)) = JSMap.has u (incoming adj).
Proof.
  unfold edge_step. destruct (_ && _); [| reflexivity].
  apply map_has_same_keys. simpl. apply add_to_entry_keys.
Qed.

Lemma edge_step_guard (e : DAGEdge) :
  JSSet.has (from e) (set_of_list (node_ids s)) && JSSet.has (to e) (set_of_list (node_ids s))
  = true <-> In (from e) (node_ids s) /\ In (to e) (node_ids s).
Proof.
  rewrite andb_true_iff, !set_has_In, !set_of_list_In. tauto.
Qed.

Lemma edge_fold_out (es : list DAGEdge) (adj : Adjacency) (u v : string) :
  In v (entry_list u (outgoing (fold_left (edge_step (set_of_list (node_ids s))) es adj))) <->
  In v (entry_list u (outgoing adj)) \/
  (JSMap.has u (outgoing adj) = true /\ In u (node_ids s) /\ In v (node_ids s) /\
   In (arrow u v) es).
Proof.
  revert adj. induction es as [| e es IH]; simpl; intros adj; [tauto |].
  rewrite IH, edge_step_has_out. unfold edge_step at 1.
  destruct (_ && _) eqn:G.
  - apply edge_step_guard in G. destruct G as [G1 G2]. simpl.
    rewrite entry_list_add_to_entry.
    destruct (String.eqb_spec (from e) u) as [Heq | Hne]; simpl.
    + subst u. destruct (JSMap.has (from e) (outgoing adj)) eqn:Eh.
      * rewrite set_In_add. split.
        -- intros [[-> | H] | H]; [| tauto | tauto].
           right. repeat split; auto. left. symmetry. apply edge_eta.
        -- intros [H | [_ [H1 [H2 [H | H]]]]]; [tauto | | tauto].
           left. left. apply (f_equal to) in H. simpl in H. now symmetry.
      * split; [intros [H | [H _]]; [now left | discriminate] |].
        intros [H | [H _]]; [now left | discriminate].
    + split; [tauto |]. intros [H | [H1 [H2 [H3 [H | H]]]]]; [tauto | | tauto].
      exfalso. apply Hne. apply (f_equal from) in H. exact H.
  - split; [tauto |]. intros [H | [H1 [H2 [H3 [H | H]]]]]; [tauto | | tauto].
    exfalso. subst e.
    rewrite (proj2 (edge_step_guard (arrow u v))) in G; [discriminate | now split].
Qed.

Lemma edge_fold_in (es : list DAGEdge) (adj : Adjacency) (u v : string) :
  In u (entry_list v (incoming (fold_left (edge_step (set_of_list (node_ids s))) es adj))) <->
  In u (entry_list v (incoming adj)) \/
  (JSMap.has v (incoming adj) = true /\ In u (node_ids s) /\ In v (node_ids s) /\
   In (arrow u v) es).
Proof.
  revert adj. induction es as [| e es IH]; simpl; intros adj; [tauto |].
  rewrite IH, edge_step_has_in. unfold edge_step at 1.
  destruct (_ && _) eqn:G.
  - apply edge_step_guard in G. destruct G as [G1 G2]. simpl.
    rewrite entry_list_add_to_entry.
    destruct (String.eqb_spec (to e) v) as [Heq | Hne]; simpl.
    + subst v. destruct (JSMap.has (to e) (incoming adj)) eqn:Eh.
      * rewrite set_In_add. split.
        -- intros [[-> | H] | H]; [| tauto | tauto].
           right. repeat split; auto. left. symmetry. apply edge_eta.
        -- intros [H | [_ [H1 [H2 [H | H]]]]]; [tauto | | tauto].
           left. left. apply (f_equal from) in H. simpl in H. now symmetry.
      * split; [intros [H | [H _]]; [now left | discriminate] |].
        intros [H | [H _]]; [now left | discriminate].
    + split; [tauto |]. intros [H | [H1 [H2 [H3 [H | H]]]]]; [tauto | | tauto].
      exfalso. apply Hne. apply (f_equal to) in H. exact H.
  - split; [tauto |]. intros [H | [H1 [H2 [H3 [H | H]]]]]; [tauto | | tauto].
    exfalso. subst e.
    rewrite (proj2 (edge_step_guard (arrow u v))) in G; [discriminate | now split].
Qed.

(** The outgoing and incoming sets of the index hold exactly the listed
    edges between two nodes of the structure. *)
Lemma buildAdjacency_out (u v : string) :
  In v (entry_list u (outgoing (buildAdjacency s))) <->
  In u (node_ids s) /\ In v (node_ids s) /\ In (arrow u v) (edges s).
Proof.
  unfold buildAdjacency. cbv zeta.
  rewrite edge_fold_out.
  destruct (blank_fold (nodes s) {| outgoing := JSMap.empty; incoming := JSMap.empty |})
    as [H1 [H2 [H3 H4]]]; [reflexivity | reflexivity |].
  rewrite H1, map_has_In, H3. simpl. unfold node_ids. tauto.
Qed.

Lemma buildAdjacency_in (u v : string) :
  In u (entry_list v (incoming (buildAdjacency s))) <->
  In u (node_ids s) /\ In v (node_ids s) /\ In (arrow u v) (edges s).
Proof.
  unfold buildAdjacency. cbv zeta.
  rewrite edge_fold_in.
  destruct (blank_fold (nodes s) {| outgoing := JSMap.empty; incoming := JSMap.empty |})
    as [H1 [H2 [H3 H4]]]; [reflexivity | reflexivity |].
  rewrite H2, map_has_In, H4. simpl. unfold node_ids. tauto.
Qed.

Lemma node_table_fold (ns : list DAGNode) (m : JSMap.t DAGNode) (x : string) (n : DAGNode) :
  JSMap.get x (fold_left (fun m n => JSMap.set (id n) n m) ns m) = Some n ->
  (In n ns /\ id n = x) \/ JSMap.get x m = Some n.
Proof.
  revert m. induction ns as [| a ns IH]; simpl; intros m H; [now right |].
  destruct (IH _ H) as [[H1 H2] | H1]; [left; tauto |].
  destruct (String.eqb_spec (id a) x) as [Heq | Hne].
  - subst x. rewrite map_get_set_eq in H1. injection H1 as <-. left. tauto.
  - rewrite map_get_set_neq in H1 by assumption. now right.
Qed.

Lemma node_table_get (x : string) (n : DAGNode) :
  JSMap.get x (node_table s) = Some n -> In n (nodes s) /\ id n = x.
Proof.
  intros H. destruct (node_table_fold _ _ _ _ H) as [H1 | H1]; [exact H1 | discriminate].
Qed.

Lemma node_table_unique (n : DAGNode) :
  NoDup (node_ids s) -> In n (nodes s) -> JSMap.get (id n) (node_table s) = Some n.
Proof.
  intros Hnd Hin. unfold node_table.
  rewrite fold_set_fresh; [| exact Hnd | intros ? _ []]. simpl.
  apply map_In_get.
  - unfold JSMap.keys. rewrite map_map. simpl. exact Hnd.
  - apply in_map_iff. exists n. tauto.
Qed.

End AdjacencyOf.


Lemma dataMatches_deep_equal (a b : JSValue) :
  dataMatches a b = Ok true -> deep_equal a b.
Proof.
  unfold dataMatches, deep_equal.
  destruct a, b; simpl; try discriminate; intros H; try (now left).
  - destruct (Bool.eqb _ _) eqn:E in H; [| discriminate].
    apply Bool.eqb_prop in E. left. now f_equal.
  - destruct (Z.eqb _ _) eqn:E in H; [| discriminate].
    apply Z.eqb_eq in E. left. now f_equal.
  - destruct (String.eqb _ _) eqn:E in H; [| discriminate].
    apply String.eqb_eq in E. left. now f_equal.
  - right. do 4 eexists. split; [reflexivity |]. split; [reflexivity |].
    destruct (Nat.eqb _ _) eqn:E in H.
    + left. now apply Nat.eqb_eq.
    + right. simpl in H.
      destruct json as [x | |], json0 as [y | |]; simpl in H; try discriminate.
      * injection H as H. apply String.eqb_eq in H. subst. split; [reflexivity | discriminate].
      * split; [reflexivity | discriminate].
Qed.

Lemma dataMatches_not_OutOfFuel (a b : JSValue) : dataMatches a b <> OutOfFuel.
Proof.
  unfold dataMatches.
  destruct (strict_eq a b); [discriminate |].
  destruct (is_nullish a || is_nullish b); [discriminate |].
  destruct (typeof_object a && typeof_object b); [| discriminate].
  destruct (JSON_stringify a), (JSON_stringify b); discriminate.
Qed.

Lemma feasible_not_OutOfFuel (c : VF2.context) (m : JSMap.t string)
    (p : option string) (t : string) :
  VF2.feasible c m p t <> OutOfFuel.
Proof.
  unfold VF2.feasible. destruct p as [p |]; [| discriminate].
  destruct (JSMap.get p _); [| discriminate].
  destruct (JSMap.get t _); [| discriminate].
  destruct (dataMatches _ _) as [[|] | |] eqn:Ed; try discriminate.
  - repeat (destruct (negb _); [discriminate |]). discriminate.
  - exfalso. exact (dataMatches_not_OutOfFuel _ _ Ed).
Qed.

Lemma degrees_pass_sound (pOut pIn tOut tIn : nat) :
  VF2.degrees_pass pOut pIn tOut tIn = true ->
  (pIn = 0 -> pOut = tOut) /\
  (pOut = 0 -> pIn = tIn) /\
  (pIn <> 0 -> pOut <> 0 -> pOut = tOut /\ pIn = tIn).
Proof.
  unfold VF2.degrees_pass.
  destruct (Nat.eqb_spec pIn 0), (Nat.eqb_spec pOut 0),
           (Nat.eqb_spec pOut tOut), (Nat.eqb_spec pIn tIn);
    simpl; intros H; try discriminate; repeat split; intros; congruence.
Qed.

Section Matcher.

Variables pattern target : DAGStructure.

Local Abbreviation c := (VF2.context_of pattern target).




Lemma feasible_true (m : JSMap.t string) (p : option string) (t : string) :
  VF2.feasible c m p t = Ok true ->
  exists p', p = Some p' /\ pair_ok pattern target p' t /\
    (forall p2 t2, In p2 (entry_list p' (outgoing (VF2.pAdj c))) ->
                   JSMap.get p2 m = Some t2 -> In t2 (entry_list t (outgoing (VF2.tAdj c)))) /\
    (forall p1 t1, In p1 (entry_list p' (incoming (VF2.pAdj c))) ->
                   JSMap.get p1 m = Some t1 -> In t1 (entry_list t (incoming (VF2.tAdj c)))).
Proof.
  unfold VF2.feasible. destruct p as [p |]; [| discriminate].
  destruct (JSMap.get p (VF2.pNodeMap c)) as [pn |] eqn:Ep; [| discriminate].
  destruct (JSMap.get t (VF2.tNodeMap c)) as [tn |] eqn:Et; [| discriminate].
  destruct (dataMatches (data pn) (data tn)) as [[|] | |] eqn:Ed; try discriminate.
  destruct (VF2.degrees_pass _ _ _ _) eqn:Eg; cbn [negb]; [| discriminate].
  destruct (forallb _ (entry_list p (outgoing (VF2.pAdj c)))) eqn:Eo; cbn [negb];
    [| discriminate].
  destruct (forallb _ (entry_list p (incoming (VF2.pAdj c)))) eqn:Ei; cbn [negb];
    [| discriminate].
  intros _. exists p. split; [reflexivity |]. split; [| split].
  - split.
    + exists pn, tn. auto.
    + apply degrees_pass_sound in Eg. exact Eg.
  - intros p2 t2 Hin Hget. rewrite forallb_forall in Eo.
    specialize (Eo p2 Hin). rewrite Hget in Eo. now apply entry_has_In.
  - intros p1 t1 Hin Hget. rewrite forallb_forall in Ei.
    specialize (Ei p1 Hin). rewrite Hget in Ei. now apply entry_has_In.
Qed.

Lemma pattern_adjacency_symmetric (u v : string) :
  In v (entry_list u (outgoing (VF2.pAdj c))) <-> In u (entry_list v (incoming (VF2.pAdj c))).
Proof.
  simpl. rewrite buildAdjacency_out, buildAdjacency_in. tauto.
Qed.

Lemma target_out_edge (t t2 : string) :
  In t2 (entry_list t (outgoing (VF2.tAdj c))) -> In (arrow t t2) (edges target).
Proof. simpl. rewrite buildAdjacency_out. tauto. Qed.

Lemma target_in_edge (t t1 : string) :
  In t1 (entry_list t (incoming (VF2.tAdj c))) -> In (arrow t1 t) (edges target).
Proof. simpl. rewrite buildAdjacency_in. tauto. Qed.

Lemma values_app (m1 m2 : JSMap.t string) :
  JSMap.values (m1 ++ m2) = JSMap.values m1 ++ JSMap.values m2.
Proof. unfold JSMap.values. apply map_app. Qed.

Lemma keys_app (m1 m2 : JSMap.t string) :
  JSMap.keys (m1 ++ m2) = JSMap.keys m1 ++ JSMap.keys m2.
Proof. unfold JSMap.keys. apply map_app. Qed.

Lemma NoDup_snoc (A : Type) (l : list A) (x : A) : NoDup l -> ~ In x l -> NoDup (l ++ [x]).
Proof.
  intros Hl Hx. apply NoDup_app; [assumption | repeat constructor; simpl; tauto |].
  intros a Ha [<- | []]. contradiction.
Qed.

(** Committing a feasible pair keeps the invariant. *)
Lemma consistent_commit (m : JSMap.t string) (p t : string) :
  consistent pattern target m ->
  In p (VF2.pNodes c) -> ~ In p (JSMap.keys m) ->
  In t (VF2.tNodes c) -> ~ In t (JSMap.values m) ->
  VF2.feasible c m (Some p) t = Ok true ->
  consistent pattern target (JSMap.set p t m).
Proof.
  intros [K1 [K2 [K3 [K4 [K5 K6]]]]] Hp Hfresh Ht Hunused Hfeas.
  apply feasible_true in Hfeas.
  destruct Hfeas as [p' [Heq [Hok [Hout Hin]]]]. injection Heq as <-.
  rewrite (map_set_fresh _ p t m Hfresh).
  unfold consistent. rewrite keys_app, values_app. simpl.
  split; [now apply NoDup_snoc |].
  split; [intros x Hx; apply in_app_iff in Hx; destruct Hx as [Hx | [<- | []]]; auto |].
  split; [now apply NoDup_snoc |].
  split; [intros x Hx; apply in_app_iff in Hx; destruct Hx as [Hx | [<- | []]]; auto |].
  split.
  - intros p0 t0 H0. apply in_app_iff in H0. destruct H0 as [H0 | [H0 | []]].
    + now apply K5.
    + injection H0 as <- <-. exact Hok.
  - intros p1 t1 p2 t2 H1 H2 Hne Hadj.
    apply in_app_iff in H1. apply in_app_iff in H2.
    destruct H1 as [H1 | [H1 | []]]; destruct H2 as [H2 | [H2 | []]].
    + now apply (K6 p1 t1 p2 t2).
    + injection H2 as <- <-. apply target_in_edge.
      apply (Hin p1 t1).
      * now apply pattern_adjacency_symmetric.
      * now apply map_In_get.
    + injection H1 as <- <-. apply target_out_edge.
      apply (Hout p2 t2); [assumption | now apply map_In_get].
    + injection H1 as <- <-. injection H2 as <- <-. now contradiction Hne.
Qed.

Lemma find_unmapped (m : JSMap.t string) (p : string) :
  find (fun x => negb (JSMap.has x m)) (VF2.pNodes c) = Some p ->
  In p (VF2.pNodes c) /\ ~ In p (JSMap.keys m).
Proof.
  intros H. apply find_some in H. destruct H as [H1 H2]. split; [assumption |].
  apply map_has_false. now apply negb_true_iff.
Qed.

(** The loop over the targets, for any recursive call that keeps the
    invariant and leaves the mapping as it was when it fails. *)
Lemma try_targets_sound (rec : VF2.state -> outcome (bool * VF2.state))
    (p : option string) (used : JSSet.t) :
  (forall st b st', rec st = Ok (b, st') -> consistent pattern target (VF2.mapping st) ->
     if b then complete pattern target (VF2.mapping st') else VF2.mapping st' = VF2.mapping st) ->
  forall ts st b st',
    consistent pattern target (VF2.mapping st) ->
    incl ts (VF2.tNodes c) ->
    (forall t, ~ In t used -> ~ In t (JSMap.values (VF2.mapping st))) ->
    (forall p', p = Some p' -> In p' (VF2.pNodes c) /\ ~ In p' (JSMap.keys (VF2.mapping st))) ->
    VF2.try_targets c rec p used ts st = Ok (b, st') ->
    if b then complete pattern target (VF2.mapping st') else VF2.mapping st' = VF2.mapping st.
Proof.
  intros Hrec. induction ts as [| t ts IH]; simpl; intros st b st' Hc Hts Hused Hp H.
  - injection H as <- <-. reflexivity.
  - assert (Hts' : incl ts (VF2.tNodes c)) by (intros x Hx; apply Hts; now right).
    destruct (JSSet.has t used) eqn:Eu; [now apply (IH st) |].
    destruct (VF2.feasible c (VF2.mapping st) p t) as [[|] | |] eqn:Ef; try discriminate.
    + destruct p as [p' |]; [| discriminate].
      destruct (Hp p' eq_refl) as [Hp1 Hp2].
      assert (Hc' : consistent pattern target (VF2.mapping (VF2.commit p' t st))).
      { simpl. apply consistent_commit; auto.
        - apply Hts. now left.
        - apply Hused. now apply set_has_false. }
      destruct (rec (VF2.commit p' t st)) as [[[|] st1] | |] eqn:Er; try discriminate.
      * injection H as <- <-. exact (Hrec _ _ _ Er Hc').
      * pose proof (Hrec _ _ _ Er Hc') as Hback. simpl in Hback.
        assert (Hm : VF2.mapping (VF2.undo p' t st1) = VF2.mapping st).
        { simpl. rewrite Hback. now apply map_delete_set_fresh. }
        specialize (IH (VF2.undo p' t st1) b st'). rewrite Hm in IH.
        now apply IH.
    + now apply (IH st).
Qed.

Lemma search_sound (fuel : nat) :
  forall st b st',
    VF2.search fuel c st = Ok (b, st') -> consistent pattern target (VF2.mapping st) ->
    if b then complete pattern target (VF2.mapping st') else VF2.mapping st' = VF2.mapping st.
Proof.
  induction fuel as [| fuel IH]; intros st b st' H Hc; [discriminate |].
  cbn [VF2.search] in H.
  destruct (Nat.eqb_spec (JSMap.size (VF2.mapping st)) (length (VF2.pNodes c))) as [Hs | Hs].
  - injection H as <- <-. now split.
  - revert H. apply try_targets_sound; auto.
    + intros x Hx. exact Hx.
    + intros t Ht Hin. apply Ht. now apply set_of_list_In.
    + intros p' Hp'. now apply find_unmapped.
Qed.

Lemma consistent_empty : consistent pattern target JSMap.empty.
Proof.
  unfold consistent. simpl.
  split; [constructor |]. split; [intros ? [] |].
  split; [constructor |]. split; [intros ? [] |].
  split; [intros ? ? [] | intros ? ? ? ? []].
Qed.

(** A complete mapping has every pattern identifier as a key, and the
    pattern's identifiers are then pairwise distinct. *)
Lemma complete_total (m : JSMap.t string) :
  complete pattern target m -> NoDup (VF2.pNodes c) /\ incl (VF2.pNodes c) (JSMap.keys m).
Proof.
  intros [[K1 [K2 _]] Hsize]. unfold JSMap.size in Hsize.
  assert (Hlen : length (VF2.pNodes c) <= length (JSMap.keys m)).
  { unfold JSMap.keys. rewrite length_map. lia. }
  split.
  - now apply (NoDup_incl_NoDup K1 Hlen K2).
  - now apply (NoDup_length_incl K1 Hlen K2).
Qed.

End Matcher.

(* ================================================================= *)
(** ** The matcher: the fuel is never used up *)

Section MatcherFuel.

Variables pattern target : DAGStructure.

Local Abbreviation c := (VF2.context_of pattern target).

Lemma consistent_size (m : JSMap.t string) :
  consistent pattern target m -> JSMap.size m <= length (VF2.pNodes c).
Proof.
  intros [K1 [K2 _]]. unfold JSMap.size.
  replace (length m) with (length (JSMap.keys m)) by (unfold JSMap.keys; apply length_map).
  now apply NoDup_incl_length.
Qed.

Lemma try_targets_total (rec : VF2.state -> outcome (bool * VF2.state))
    (p : option string) (used : JSSet.t) (m : JSMap.t string) :
  (forall st b st', rec st = Ok (b, st') -> consistent pattern target (VF2.mapping st) ->
     if b then complete pattern target (VF2.mapping st')
     else VF2.mapping st' = VF2.mapping st) ->
  (forall st, consistent pattern target (VF2.mapping st) ->
              JSMap.size (VF2.mapping st) = S (JSMap.size m) -> rec st <> OutOfFuel) ->
  consistent pattern target m ->
  (forall t, ~ In t used -> ~ In t (JSMap.values m)) ->
  (forall p', p = Some p' -> In p' (VF2.pNodes c) /\ ~ In p' (JSMap.keys m)) ->
  forall ts st,
    VF2.mapping st = m ->
    incl ts (VF2.tNodes c) ->
    VF2.try_targets c rec p used ts st <> OutOfFuel.
Proof.
  intros Hrec Htot Hc Hused Hp.
  induction ts as [| t ts IH]; simpl; intros st Hm Hts; [discriminate |].
  assert (Hts' : incl ts (VF2.tNodes c)) by (intros x Hx; apply Hts; now right).
  destruct (JSSet.has t used) eqn:Eu; [now apply IH |].
  rewrite Hm.
  destruct (VF2.feasible c m p t) as [[|] | |] eqn:Ef.
  - destruct p as [p' |]; [| discriminate].
    destruct (Hp p' eq_refl) as [Hp1 Hp2].
    assert (Hc' : consistent pattern target (VF2.mapping (VF2.commit p' t st))).
    { simpl. rewrite Hm. apply consistent_commit; auto.
      - apply Hts. now left.
      - apply Hused. now apply set_has_false. }
    assert (Hsz : JSMap.size (VF2.mapping (VF2.commit p' t st)) = S (JSMap.size m)).
    { simpl. rewrite Hm, (map_set_fresh _ p' t m Hp2). unfold JSMap.size.
      rewrite length_app. simpl. lia. }
    pose proof (Htot _ Hc' Hsz) as Hne.
    destruct (rec (VF2.commit p' t st)) as [[[|] st1] | |] eqn:Er;
      [discriminate | | discriminate | contradiction].
    apply IH; [| assumption].
    pose proof (Hrec _ _ _ Er Hc') as Hback. simpl in Hback. simpl.
    rewrite Hback, Hm. now apply map_delete_set_fresh.
  - now apply IH.
  - discriminate.
  - exfalso. exact (feasible_not_OutOfFuel _ _ _ _ Ef).
Qed.

Lemma search_total (fuel : nat) :
  forall st,
    consistent pattern target (VF2.mapping st) ->
    length (VF2.pNodes c) - JSMap.size (VF2.mapping st) < fuel ->
    VF2.search fuel c st <> OutOfFuel.
Proof.
  induction fuel as [| fuel IH]; intros st Hc Hlt; [lia |].
  cbn [VF2.search].
  destruct (Nat.eqb_spec (JSMap.size (VF2.mapping st)) (length (VF2.pNodes c))) as [Hs | Hs];
    [discriminate |].
  pose proof (consistent_size _ Hc) as Hle.
  apply (try_targets_total (VF2.search fuel c) _ _ (VF2.mapping st)); auto.
  - intros st0 b st' H0 Hc0. exact (search_sound pattern target fuel st0 b st' H0 Hc0).
  - intros st0 Hc0 Hsz. apply IH; [assumption | lia].
  - intros t Ht Hin. apply Ht. now apply set_of_list_In.
  - intros p' Hp'. now apply (find_unmapped pattern target).
  - intros x Hx. exact Hx.
Qed.

End MatcherFuel.

(** The fuel [vf2SubgraphIsomorphism] hands to [search] is never used up. *)
Lemma vf2_fuel_suffices (pattern target : DAGStructure) :
  vf2SubgraphIsomorphism pattern target <> OutOfFuel.
Proof.
  unfold vf2SubgraphIsomorphism, vf2_fuel.
  destruct (Nat.eqb _ 0); [discriminate |].
  destruct (Nat.ltb _ _); [discriminate |].
  pose proof (search_total pattern target (S (length (nodes pattern))) VF2.init
                (consistent_empty pattern target)) as H.
  destruct (VF2.search _ _ _) as [[[|] st] | |]; try discriminate.
  exfalso. apply H; [| reflexivity].
  simpl. unfold node_ids. rewrite length_map. lia.
Qed.

(* ================================================================= *)
(** ** The matcher: no [TypeError] when the pattern's identifiers are distinct
       and no comparison of payloads raises *)

Lemma node_table_has (s : DAGStructure) (x : string) :
  In x (node_ids s) -> exists n, JSMap.get x (node_table s) = Some n.
Proof.
  intros H. destruct (JSMap.get x (node_table s)) as [n |] eqn:E; [now exists n |].
  exfalso. apply map_get_None in E. apply E. unfold node_table.
  apply fold_set_keys_In. right. exact H.
Qed.

Section MatcherReturns.

Variables pattern target : DAGStructure.
Hypothesis Hdistinct : NoDup (node_ids pattern).
Hypothesis Hpayload :
  forall pn tn, In pn (nodes pattern) -> In tn (nodes target) ->
    dataMatches (data pn) (data tn) <> TypeError.

Local Abbreviation c := (VF2.context_of pattern target).

Lemma feasible_returns (m : JSMap.t string) (p t : string) :
  In p (VF2.pNodes c) -> In t (VF2.tNodes c) ->
  exists b, VF2.feasible c m (Some p) t = Ok b.
Proof.
  intros Hp Ht. unfold VF2.feasible.
  destruct (node_table_has pattern p Hp) as [pn Epn].
  destruct (node_table_has target t Ht) as [tn Etn].
  cbn [VF2.pNodeMap VF2.tNodeMap VF2.context_of]. rewrite Epn, Etn.
  destruct (dataMatches (data pn) (data tn)) as [[|] | |] eqn:Ed.
  - repeat (destruct (negb _); [now eexists |]). now eexists.
  - now eexists.
  - exfalso. apply (Hpayload pn tn); [| | exact Ed].
    + apply (node_table_get pattern p pn Epn).
    + apply (node_table_get target t tn Etn).
  - exfalso. exact (dataMatches_not_OutOfFuel _ _ Ed).
Qed.

Lemma find_unmapped_exists (m : JSMap.t string) :
  consistent pattern target m ->
  JSMap.size m <> length (VF2.pNodes c) ->
  exists p, find (fun x => negb (JSMap.has x m)) (VF2.pNodes c) = Some p.
Proof.
  intros Hc Hne.
  destruct (find _ (VF2.pNodes c)) as [p |] eqn:E; [now exists p |].
  exfalso. apply Hne.
  pose proof (consistent_size pattern target m Hc) as Hle.
  assert (Hge : length (VF2.pNodes c) <= length (JSMap.keys m)).
  { apply NoDup_incl_length; [exact Hdistinct |].
    intros x Hx. pose proof (find_none _ _ E x Hx) as Hx'. simpl in Hx'.
    apply negb_false_iff in Hx'. now apply map_has_In. }
  unfold JSMap.keys in Hge. rewrite length_map in Hge. unfold JSMap.size in *. lia.
Qed.

Lemma try_targets_returns (rec : VF2.state -> outcome (bool * VF2.state))
    (p : string) (used : JSSet.t) (m : JSMap.t string) :
  (forall st b st', rec st = Ok (b, st') -> consistent pattern target (VF2.mapping st) ->
     if b then complete pattern target (VF2.mapping st')
     else VF2.mapping st' = VF2.mapping st) ->
  (forall st, consistent pattern target (VF2.mapping st) ->
              JSMap.size (VF2.mapping st) = S (JSMap.size m) -> exists r, rec st = Ok r) ->
  consistent pattern target m ->
  (forall t, ~ In t used -> ~ In t (JSMap.values m)) ->
  In p (VF2.pNodes c) -> ~ In p (JSMap.keys m) ->
  forall ts st,
    VF2.mapping st = m ->
    incl ts (VF2.tNodes c) ->
    exists r, VF2.try_targets c rec (Some p) used ts st = Ok r.
Proof.
  intros Hrec Hret Hc Hused Hp1 Hp2.
  induction ts as [| t ts IH]; cbn [VF2.try_targets]; intros st Hm Hts; [now eexists |].
  assert (Hts' : incl ts (VF2.tNodes c)) by (intros x Hx; apply Hts; now right).
  assert (Ht : In t (VF2.tNodes c)) by (apply Hts; now left).
  destruct (JSSet.has t used) eqn:Eu; [now apply IH |].
  rewrite Hm. destruct (feasible_returns m p t Hp1 Ht) as [[|] Ef]; rewrite Ef.
  - assert (Hc' : consistent pattern target (VF2.mapping (VF2.commit p t st))).
    { simpl. rewrite Hm. apply consistent_commit; auto.
      apply Hused. now apply set_has_false. }
    assert (Hsz : JSMap.size (VF2.mapping (VF2.commit p t st)) = S (JSMap.size m)).
    { simpl. rewrite Hm, (map_set_fresh _ p t m Hp2). unfold JSMap.size.
      rewrite length_app. simpl. lia. }
    destruct (Hret _ Hc' Hsz) as [[[|] st1] Er]; rewrite Er; [now eexists |].
    apply IH; [| assumption].
    pose proof (Hrec _ _ _ Er Hc') as Hback. simpl in Hback. simpl.
    rewrite Hback, Hm. now apply map_delete_set_fresh.
  - now apply IH.
Qed.

Lemma search_returns (fuel : nat) :
  forall st,
    consistent pattern target (VF2.mapping st) ->
    length (VF2.pNodes c) - JSMap.size (VF2.mapping st) < fuel ->
    exists r, VF2.search fuel c st = Ok r.
Proof.
  induction fuel as [| fuel IH]; intros st Hc Hlt; [lia |].
  cbn [VF2.search].
  destruct (Nat.eqb_spec (JSMap.size (VF2.mapping st)) (length (VF2.pNodes c))) as [Hs | Hs];
    [now eexists |].
  pose proof (consistent_size pattern target _ Hc) as Hle.
  destruct (find_unmapped_exists _ Hc Hs) as [p Hp]. rewrite Hp.
  destruct (find_unmapped pattern target _ _ Hp) as [Hp1 Hp2].
  apply (try_targets_returns (VF2.search fuel c) p _ (VF2.mapping st)); auto.
  - intros st0 b st' H0 Hc0. exact (search_sound pattern target fuel st0 b st' H0 Hc0).
  - intros st0 Hc0 Hsz. apply IH; [assumption | lia].
  - intros t Ht Hin. apply Ht. now apply set_of_list_In.
  - intros x Hx. exact Hx.
Qed.

(** With pairwise distinct pattern identifiers and payloads whose comparison
    does not raise, the matcher returns a mapping or [null]. *)
Lemma vf2_returns_on_distinct_ids :
  exists r, vf2SubgraphIsomorphism pattern target = Ok r.
Proof.
  unfold vf2SubgraphIsomorphism, vf2_fuel.
  destruct (Nat.eqb _ 0); [now eexists |].
  destruct (Nat.ltb _ _); [now eexists |].
  destruct (search_returns (S (length (nodes pattern))) VF2.init
              (consistent_empty pattern target)) as [[[|] st] Hr].
  - simpl. unfold node_ids. rewrite length_map. lia.
  - rewrite Hr. now eexists.
  - rewrite Hr. now eexists.
Qed.

End MatcherReturns.

(* ================================================================= *)
(** ** The matcher: what a returned mapping satisfies *)

Lemma vf2_fuel_result (fuel : nat) (pattern target : DAGStructure) (M : JSMap.t string) :
  vf2_fuel fuel pattern target = Ok (Some M) ->
  (nodes pattern = [] /\ M = JSMap.empty) \/ complete pattern target M.
Proof.
  unfold vf2_fuel. simpl.
  destruct (Nat.eqb_spec (length (node_ids pattern)) 0) as [H0 | H0].
  - intros [= <-]. left. split; [| reflexivity].
    unfold node_ids in H0. rewrite length_map in H0. now apply length_zero_iff_nil.
  - destruct (Nat.ltb _ _); [discriminate |].
    destruct (VF2.search _ _ _) as [[[|] st] | |] eqn:Es; try discriminate.
    intros [= <-]. right.
    exact (search_sound pattern target fuel VF2.init true st Es (consistent_empty pattern target)).
Qed.

Lemma values_injective (m : JSMap.t string) (p1 p2 t : string) :
  NoDup (JSMap.values m) -> In (p1, t) m -> In (p2, t) m -> p1 = p2.
Proof.
  unfold JSMap.values. induction m as [| [k v] m IH]; simpl; [tauto |].
  intros Hnd H1 H2. inversion Hnd as [| ? ? Hnotin Hnd']; subst.
  destruct H1 as [H1 | H1], H2 as [H2 | H2].
  - congruence.
  - injection H1 as <- <-. exfalso. apply Hnotin.
    change v with (snd (p2, v)). now apply in_map.
  - injection H2 as <- <-. exfalso. apply Hnotin.
    change v with (snd (p1, v)). now apply in_map.
  - now apply IH.
Qed.










(** C2, as the code answers: on the diamond and the one-edge pattern, all
    payloads absent, [vf2SubgraphIsomorphism] returns no mapping, because no
    edge of the diamond leaves a node of out-degree one and enters a node of
    in-degree one; so whatever mapping it returned would have its image of
    the pattern edge in the target, there being none. *)
Theorem vf2_diamond_single_edge :
  vf2SubgraphIsomorphism single_edge diamond = Ok None /\
  (forall M, vf2SubgraphIsomorphism single_edge diamond = Ok (Some M) ->
     exists tp tq, JSMap.get "p" M = Some tp /\ JSMap.get "q" M = Some tq /\
                   In (arrow tp tq) (edges diamond)) /\
  (forall u v, In (arrow u v) (edges diamond) ->
     ~ (entry_size u (outgoing (buildAdjacency diamond)) = 1 /\
        entry_size v (incoming (buildAdjacency diamond)) = 1)).
Proof.
  split; [reflexivity |]. split.
  - intros M H. discriminate H.
  - intros u v Huv. simpl in Huv.
    destruct Huv as [H | [H | [H | [H | []]]]]; injection H as <- <-;
      vm_compute; intros [H1 H2]; discriminate.
Qed.

(** C2 as written fails: no non-empty mapping is returned for the diamond
    and the one-edge pattern. *)
Lemma vf2_diamond_single_edge_no_mapping :
  ~ exists M, vf2SubgraphIsomorphism single_edge diamond = Ok (Some M) /\ M <> JSMap.empty.
Proof.
  intros [M [H _]]. discriminate H.
Qed.



(** C3 fails in the matcher: on a pattern that lists one identifier twice
    and a target with two nodes, [search] asks [pNodes.find] for an unmapped
    pattern node, gets [undefined], and [feasible] reads [.data] of a
    missing table entry; the call ends in a [TypeError], not in a value. *)
Theorem vf2_throws_on_repeated_pattern_id :
  vf2SubgraphIsomorphism repeated_pattern two_targets = TypeError /\
  find (fun x => negb (JSMap.has x [("p", "a")])) (node_ids repeated_pattern) = None /\
  forall m t, VF2.feasible (VF2.context_of repeated_pattern two_targets) m None t = TypeError.
Proof.
  split; [reflexivity |]. split; reflexivity.
Qed.

(* ================================================================= *)
(** ** The matcher: the sizes of the index are the degrees of the structure *)

Lemma is_node_In (s : DAGStructure) (x : string) :
  is_node s x = true <-> In x (node_ids s).
Proof. unfold is_node. apply set_has_In. Qed.

Lemma successors_In (s : DAGStructure) (u v : string) :
  In v (successors s u) <->
  In u (node_ids s) /\ In v (node_ids s) /\ In (arrow u v) (edges s).
Proof.
  unfold successors. rewrite nodup_In, in_map_iff. split.
  - intros [e [<- He]]. apply filter_In in He. destruct He as [He Hc].
    apply andb_true_iff in Hc. destruct Hc as [Hc H2].
    apply andb_true_iff in Hc. destruct Hc as [H0 H1].
    apply String.eqb_eq in H0. apply is_node_In in H1, H2. subst u.
    rewrite edge_eta. tauto.
  - intros [Hu [Hv He]]. exists (arrow u v). split; [reflexivity |].
    apply filter_In. split; [exact He |]. simpl.
    rewrite String.eqb_refl, (proj2 (is_node_In s u) Hu), (proj2 (is_node_In s v) Hv).
    reflexivity.
Qed.

Lemma predecessors_In (s : DAGStructure) (u v : string) :
  In u (predecessors s v) <->
  In u (node_ids s) /\ In v (node_ids s) /\ In (arrow u v) (edges s).
Proof.
  unfold predecessors. rewrite nodup_In, in_map_iff. split.
  - intros [e [<- He]]. apply filter_In in He. destruct He as [He Hc].
    apply andb_true_iff in Hc. destruct Hc as [Hc H2].
    apply andb_true_iff in Hc. destruct Hc as [H0 H1].
    apply String.eqb_eq in H0. apply is_node_In in H1, H2. subst v.
    rewrite edge_eta. tauto.
  - intros [Hu [Hv He]]. exists (arrow u v). split; [reflexivity |].
    apply filter_In. split; [exact He |]. simpl.
    rewrite String.eqb_refl, (proj2 (is_node_In s u) Hu), (proj2 (is_node_In s v) Hv).
    reflexivity.
Qed.

Lemma add_to_entry_NoDup (k x : string) (m : JSMap.t JSSet.t) :
  (forall u, NoDup (entry_list u m)) ->
  forall u, NoDup (entry_list u (add_to_entry k x m)).
Proof.
  intros H u. rewrite entry_list_add_to_entry.
  destruct (String.eqb k u && JSMap.has k m); [apply set_NoDup_add |]; apply H.
Qed.

Lemma edge_fold_NoDup (ids : JSSet.t) (es : list DAGEdge) (adj : Adjacency) :
  (forall u, NoDup (entry_list u (outgoing adj))) ->
  (forall u, NoDup (entry_list u (incoming adj))) ->
  (forall u, NoDup (entry_list u (outgoing (fold_left (edge_step ids) es adj)))) /\
  (forall u, NoDup (entry_list u (incoming (fold_left (edge_step ids) es adj)))).
Proof.
  revert adj. induction es as [| e es IH]; simpl; intros adj Ho Hi; [now split |].
  apply IH; unfold edge_step; destruct (_ && _); simpl; auto;
    now apply add_to_entry_NoDup.
Qed.

Lemma buildAdjacency_NoDup (s : DAGStructure) :
  (forall u, NoDup (entry_list u (outgoing (buildAdjacency s)))) /\
  (forall u, NoDup (entry_list u (incoming (buildAdjacency s)))).
Proof.
  unfold buildAdjacency. cbv zeta.
  destruct (blank_fold (nodes s) {| outgoing := JSMap.empty; incoming := JSMap.empty |})
    as [H1 [H2 _]]; [reflexivity | reflexivity |].
  apply edge_fold_NoDup; intros u; [rewrite H1 | rewrite H2]; constructor.
Qed.

Lemma entry_size_length (x : string) (m : JSMap.t JSSet.t) :
  entry_size x m = length (entry_list x m).
Proof. unfold entry_size, entry_list, JSSet.size. now destruct (JSMap.get x m). Qed.

(** The size that [feasible] reads for [u] in the outgoing map of the index
    is the out-degree of [u] in the structure, and likewise for the incoming
    map and the in-degree. *)
Lemma index_out_degree (s : DAGStructure) (u : string) :
  entry_size u (outgoing (buildAdjacency s)) = out_degree s u.
Proof.
  rewrite entry_size_length. unfold out_degree. apply Permutation_length.
  apply NoDup_Permutation.
  - apply buildAdjacency_NoDup.
  - apply NoDup_nodup.
  - intros v. now rewrite buildAdjacency_out, successors_In.
Qed.

Lemma index_in_degree (s : DAGStructure) (v : string) :
  entry_size v (incoming (buildAdjacency s)) = in_degree s v.
Proof.
  rewrite entry_size_length. unfold in_degree. apply Permutation_length.
  apply NoDup_Permutation.
  - apply buildAdjacency_NoDup.
  - apply NoDup_nodup.
  - intros u. now rewrite buildAdjacency_in, predecessors_In.
Qed.

Lemma degree_condition_rule (pattern target : DAGStructure) (p t : string) :
  degree_condition (VF2.context_of pattern target) p t <-> degree_rule pattern target p t.
Proof.
  unfold degree_condition, degree_rule. cbn [VF2.pAdj VF2.tAdj VF2.context_of]. cbv zeta.
  rewrite !index_out_degree, !index_in_degree. tauto.
Qed.

Lemma NoDup_map_filter_edges (f g : DAGEdge -> string) (x : string) (es : list DAGEdge) :
  (forall e e', f e = x -> f e' = x -> g e = g e' -> e = e') ->
  NoDup es ->
  NoDup (map g (filter (fun e => String.eqb (f e) x) es)).
Proof.
  intros Hinj. induction 1 as [| e es Hnotin Hnd IH]; simpl; [constructor |].
  destruct (String.eqb_spec (f e) x) as [He | He]; [| exact IH].
  simpl. constructor; [| exact IH].
  intros Hin. apply in_map_iff in Hin. destruct Hin as [e' [Hg He']].
  apply filter_In in He'. destruct He' as [He' Hf]. apply String.eqb_eq in Hf.
  apply Hnotin. now rewrite (Hinj e e' He Hf (eq_sym Hg)).
Qed.

(** On a structure without dangling and without repeated edges the degrees
    are the numbers of listed edges. *)
Lemma degrees_listed (s : DAGStructure) (u : string) :
  no_dangling s -> NoDup (edges s) ->
  out_degree s u = listed_out s u /\ in_degree s u = listed_in s u.
Proof.
  intros Hd Hnd.
  assert (Hguard : forall e, In e (edges s) -> is_node s (from e) && is_node s (to e) = true).
  { intros e He. destruct (Hd e He) as [H1 H2].
    now rewrite (proj2 (is_node_In s _) H1), (proj2 (is_node_In s _) H2). }
  split.
  - unfold out_degree, successors, listed_out.
    rewrite (filter_ext_in _ (fun e => String.eqb (from e) u)).
    + rewrite nodup_fixed_point; [apply length_map |].
      apply NoDup_map_filter_edges; [| exact Hnd].
      intros [a b] [a' b']. simpl. congruence.
    + intros e He. rewrite <- andb_assoc, (Hguard e He). apply andb_true_r.
  - unfold in_degree, predecessors, listed_in.
    rewrite (filter_ext_in _ (fun e => String.eqb (to e) u)).
    + rewrite nodup_fixed_point; [apply length_map |].
      apply NoDup_map_filter_edges; [| exact Hnd].
      intros [a b] [a' b']. simpl. congruence.
    + intros e He. rewrite <- andb_assoc, (Hguard e He). apply andb_true_r.
Qed.

(** C8, with the degrees of the structures: those count the distinct listed
    edges that join two nodes.  [feasible] answers [true] only for a pair
    that meets the degree rule (a root pattern node and its image agree on
    the out-degree, a leaf on the in-degree, any other node on both); every
    pair of a mapping that [vf2SubgraphIsomorphism] returns meets it; and on
    a structure without dangling and without repeated edges these degrees
    are the numbers of listed edges at the node. *)
Theorem vf2_degree_rule (pattern target : DAGStructure) :
  (forall m p t, VF2.feasible (VF2.context_of pattern target) m p t = Ok true ->
     exists p', p = Some p' /\ degree_rule pattern target p' t) /\
  (forall M p t, vf2SubgraphIsomorphism pattern target = Ok (Some M) ->
     JSMap.get p M = Some t -> degree_rule pattern target p t) /\
  (forall s u, no_dangling s -> NoDup (edges s) ->
     out_degree s u = listed_out s u /\ in_degree s u = listed_in s u).
Proof.
  split; [| split].
  - intros m p t H. apply feasible_true in H.
    destruct H as [p' [Hp [[_ Hd] _]]]. exists p'. split; [exact Hp |].
    now apply degree_condition_rule.
  - intros M p t H Hp. apply vf2_fuel_result in H. destruct H as [[_ ->] | Hc].
    + discriminate Hp.
    + destruct Hc as [[_ [_ [_ [_ [K5 _]]]]] _].
      apply map_get_Some_In in Hp. apply degree_condition_rule. exact (proj2 (K5 _ _ Hp)).
  - intros s u. apply degrees_listed.
Qed.

(** C8 as worded, with every listed edge counted: the matcher maps the root
    [p] of a pattern that lists one edge from [p] (to an identifier that is
    no node) onto the only node of a target that lists no edge. *)
Theorem vf2_degree_rule_skips_dangling_edge :
  vf2SubgraphIsomorphism dangling_pattern lone_target = Ok (Some [("p", "a")]) /\
  listed_in dangling_pattern "p" = 0 /\
  listed_out dangling_pattern "p" = 1 /\
  listed_out lone_target "a" = 0.
Proof. repeat split; reflexivity. Qed.

(* ================================================================= *)
(** ** Cycle detection: what the depth-first search establishes *)




Section DepthFirst.

Variable dag : DAG.

Import FindCycles.

Lemma walk_reaches_last (l : list string) :
  walk dag l ->
  forall l' n c, l = l' ++ [n] -> In c l -> clos_refl_trans string (child_rel dag) c n.
Proof.
  induction 1 as [| x | l x y Hw IH Hxy]; intros l' n c Heq Hin.
  - destruct Hin.
  - destruct l' as [| a l']; simpl in Heq.
    + injection Heq as <-. destruct Hin as [<- | []]. apply rt_refl.
    + destruct l'; discriminate.
  - apply app_inj_tail in Heq. destruct Heq as [_ <-].
    apply in_app_iff in Hin. destruct Hin as [Hin | [<- | []]].
    + apply rt_trans with x; [now apply (IH l x c) | now apply rt_step].
    + apply rt_refl.
Qed.

Lemma finishes_no_cycle (x : string) :
  finishes dag x -> ~ clos_trans string (child_rel dag) x x.
Proof.
  intros Hacc Hcyc.
  assert (Hacc' : Acc (clos_trans string (fun child parent => child_rel dag parent child)) x).
  { apply Acc_clos_trans. exact Hacc. }
  assert (Hflip : forall a b, clos_trans string (child_rel dag) a b ->
            clos_trans string (fun child parent => child_rel dag parent child) b a).
  { induction 1 as [a b H | a b d _ IH1 _ IH2].
    - now apply t_step.
    - now apply t_trans with b. }
  apply Hflip in Hcyc. clear Hflip Hacc. revert Hcyc.
  induction Hacc' as [x _ IH]. intros Hcyc. exact (IH x Hcyc Hcyc).
Qed.




Lemma dfs_children_spec (rec : string -> state -> option (bool * state))
    (n : string) (st0 : state) :
  (forall c st r, rec c st = Some r -> dfs_pre dag c st -> dfs_post dag c st r) ->
  dfs_pre dag n st0 ->
  forall cs st r,
    loop_inv dag n st0 st ->
    incl cs (getChildren dag n) ->
    (forall c, In c (getChildren dag n) -> In c cs \/ finishes dag c) ->
    dfs_children rec n cs st = Some r ->
    dfs_post dag n st0 r.
Proof.
  intros Hrec [P1 [P2 [P3 [P4 [P5 P6]]]]].
  assert (Hfresh : ~ In n (recursionStack st0)) by (intros H; apply P5, P4, H).
  induction cs as [| c cs IH]; intros st r [L1 [L2 [L3 [L4 [L5 L6]]]]] Hsub Hch H;
    simpl in H.
  - injection H as <-. split; [exact L4 |]. simpl.
    split; [exact L1 |].
    split; [rewrite L2; apply removelast_last |].
    split; [rewrite L3; now apply set_delete_add_fresh |].
    split; [exact L5 |].
    intros x Hx. destruct (L6 x Hx) as [-> | [Hx0 | Hacc]]; auto.
    right. constructor. intros y Hy.
    destruct (Hch y Hy) as [[] | Hfin]. exact Hfin.
  - assert (Hnc : child_rel dag n c) by (apply Hsub; now left).
    assert (Hsub' : incl cs (getChildren dag n)) by (intros y Hy; apply Hsub; now right).
    assert (Hblack : forall x, In x (visited st) -> ~ In x (recursionStack st) ->
                               finishes dag x).
    { intros x Hx Hns. rewrite L3 in Hns.
      destruct (L6 x Hx) as [-> | [Hx0 | Hacc]]; auto.
      - exfalso. apply Hns. apply set_In_add. now left.
      - apply P6; [assumption |]. intros Hs. apply Hns. apply set_In_add. now right. }
    destruct (JSSet.has c (visited st)) eqn:Ev; simpl in H.
    + apply set_has_In in Ev.
      destruct (JSSet.has c (recursionStack st)) eqn:Es.
      * (* an edge back into the recursion stack *)
        apply set_has_In in Es. injection H as <-. split; [exact L4 |]. simpl.
        split; [destruct (cycles st); discriminate |].
        exists c. apply clos_rt_t with n; [| now apply t_step].
        apply (walk_reaches_last _ P2 (path st0) n c eq_refl).
        rewrite L3 in Es. apply set_In_add in Es. rewrite in_app_iff. simpl.
        destruct Es as [-> | Es]; [tauto | left; now apply P3].
      * apply set_has_false in Es.
        apply (IH st r); [repeat split; assumption | assumption | | exact H].
        intros y Hy. destruct (Hch y Hy) as [[<- | Hin] | Hfin]; auto.
    + apply set_has_false in Ev.
      assert (Hpre : dfs_pre dag c st).
      { split; [exact L1 |].
        split; [rewrite L2; now apply walk_snoc |].
        split; [| split; [| split; [exact Ev | exact Hblack]]].
        - intros x Hx. rewrite L3 in Hx. apply set_In_add in Hx. rewrite L2, in_app_iff.
          simpl. destruct Hx as [-> | Hx]; [tauto | left; now apply P3].
        - intros x Hx. rewrite L3 in Hx. apply set_In_add in Hx.
          destruct Hx as [-> | Hx]; [exact L5 | now apply L4, P4]. }
      destruct (rec c st) as [[[|] st1] |] eqn:Er; [| | discriminate].
      * injection H as <-. destruct (Hrec c st _ Er Hpre) as [Q1 [Q2 Q3]].
        simpl in *. split; [| split; assumption].
        intros x Hx. now apply Q1, L4.
      * destruct (Hrec c st _ Er Hpre) as [Q1 [Q2 [Q3 [Q4 [Q5 Q6]]]]]. simpl in *.
        apply (IH st1 r); [| assumption | | exact H].
        -- split; [exact Q2 |]. split; [now rewrite Q3 |]. split; [now rewrite Q4 |].
           split; [intros x Hx; now apply Q1, L4 |]. split; [now apply Q1 |].
           intros x Hx. destruct (Q6 x Hx) as [Hx' | Hfin]; auto.
        -- intros y Hy. destruct (Hch y Hy) as [[<- | Hin] | Hfin]; auto.
           right. destruct (Q6 c Q5) as [Hx' | Hfin]; [contradiction | exact Hfin].
Qed.

Lemma dfs_spec (fuel : nat) :
  forall n st r, dfs fuel dag n st = Some r -> dfs_pre dag n st -> dfs_post dag n st r.
Proof.
  induction fuel as [| fuel IH]; intros n st r H Hpre; [discriminate |].
  simpl in H. revert H.
  apply (dfs_children_spec (dfs fuel dag) n st IH Hpre).
  - destruct Hpre as [P1 _]. unfold loop_inv, enter. simpl.
    split; [exact P1 |]. split; [reflexivity |]. split; [reflexivity |].
    split; [intros x Hx; apply set_In_add; now right |].
    split; [apply set_In_add; now left |].
    intros x Hx. apply set_In_add in Hx. tauto.
  - intros x Hx. exact Hx.
  - intros c Hc. now left.
Qed.

(** Once a cycle is recorded the list of cycles stays non-empty. *)
Lemma dfs_children_keeps_cycles (rec : string -> state -> option (bool * state))
    (n : string) :
  (forall c st r, rec c st = Some r -> cycles st <> [] -> cycles (snd r) <> []) ->
  forall cs st r,
    dfs_children rec n cs st = Some r -> cycles st <> [] -> cycles (snd r) <> [].
Proof.
  intros Hrec. induction cs as [| c cs IH]; intros st r H Hne; simpl in H.
  - injection H as <-. exact Hne.
  - destruct (negb (JSSet.has c (visited st))).
    + destruct (rec c st) as [[[|] st1] |] eqn:Er; [| | discriminate].
      * injection H as <-. exact (Hrec _ _ _ Er Hne).
      * apply (IH st1 r H). exact (Hrec _ _ _ Er Hne).
    + destruct (JSSet.has c (recursionStack st)).
      * injection H as <-. simpl. destruct (cycles st); [contradiction | discriminate].
      * now apply (IH st r).
Qed.

Lemma dfs_keeps_cycles (fuel : nat) :
  forall n st r, dfs fuel dag n st = Some r -> cycles st <> [] -> cycles (snd r) <> [].
Proof.
  induction fuel as [| fuel IH]; intros n st r H Hne; [discriminate |].
  simpl in H. revert H. intros H.
  apply (dfs_children_keeps_cycles (dfs fuel dag) n IH _ _ _ H). exact Hne.
Qed.


Lemma scan_keeps_cycles (fuel : nat) :
  forall ids st st',
    scan fuel dag ids st = Some st' -> cycles st <> [] -> cycles st' <> [].
Proof.
  induction ids as [| x ids IH]; intros st st' H Hne; simpl in H.
  - now injection H as <-.
  - destruct (negb (JSSet.has x (visited st))); [| now apply (IH st)].
    destruct (dfs fuel dag x st) as [[b st1] |] eqn:Ed; [| discriminate].
    apply (IH st1 st' H). exact (dfs_keeps_cycles fuel x st _ Ed Hne).
Qed.

Lemma scan_spec (fuel : nat) :
  forall ids st st',
    scan fuel dag ids st = Some st' ->
    scan_inv dag st ->
    scan_inv dag st' /\
    (cycles st' = [] -> incl (visited st) (visited st') /\ incl ids (visited st')).
Proof.
  induction ids as [| x ids IH]; intros st st' H Hinv; simpl in H.
  - injection H as <-. split; [exact Hinv |].
    intros _. split; intros y Hy; [exact Hy | destruct Hy].
  - destruct (JSSet.has x (visited st)) eqn:Ev; simpl in H.
    + apply set_has_In in Ev. destruct (IH st st' H Hinv) as [Hi Hv].
      split; [exact Hi |]. intros Hc. destruct (Hv Hc) as [Hv1 Hv2].
      split; [exact Hv1 |]. intros y [<- | Hy]; [now apply Hv1 | now apply Hv2].
    + apply set_has_false in Ev.
      destruct (dfs fuel dag x st) as [[b st1] |] eqn:Ed; [| discriminate].
      destruct Hinv as [[C1 [C2 [C3 C4]]] | [C1 C2]].
      * assert (Hpre : dfs_pre dag x st).
        { split; [exact C1 |]. rewrite C2, C3. simpl.
          split; [apply walk_one |]. split; [intros ? [] |]. split; [intros ? [] |].
          split; [exact Ev |]. intros y Hy _. now apply C4. }
        pose proof (dfs_spec fuel x st _ Ed Hpre) as [Q1 Q2]. simpl in Q1, Q2.
        destruct b.
        -- destruct (IH st1 st' H (or_intror Q2)) as [Hi Hv].
           split; [exact Hi |]. intros Hc. exfalso.
           exact (scan_keeps_cycles fuel ids st1 st' H (proj1 Q2) Hc).
        -- destruct Q2 as [Q2 [Q3 [Q4 [Q5 Q6]]]].
           assert (Hinv1 : scan_inv dag st1).
           { left. rewrite Q3, Q4.
             split; [exact Q2 |]. split; [exact C2 |]. split; [exact C3 |].
             intros y Hy. destruct (Q6 y Hy) as [Hy' | Hfin]; auto. }
           destruct (IH st1 st' H Hinv1) as [Hi Hv].
           split; [exact Hi |]. intros Hc. destruct (Hv Hc) as [Hv1 Hv2].
           split; [intros y Hy; now apply Hv1, Q1 |].
           intros y [<- | Hy]; [now apply Hv1 | now apply Hv2].
      * pose proof (dfs_keeps_cycles fuel x st _ Ed C1) as Hne. simpl in Hne.
        destruct (IH st1 st' H (or_intror (conj Hne C2))) as [Hi Hv].
        split; [exact Hi |]. intros Hc. exfalso.
        exact (scan_keeps_cycles fuel ids st1 st' H Hne Hc).
Qed.

End DepthFirst.

(* ================================================================= *)
(** ** Cycle detection: the search returns *)

Lemma filter_length_mono (A : Type) (f g : A -> bool) (l : list A) :
  (forall x, In x l -> f x = true -> g x = true) ->
  length (filter f l) <= length (filter g l).
Proof.
  induction l as [| a l IH]; simpl; intros H; [lia |].
  assert (IH' : length (filter f l) <= length (filter g l)) by (apply IH; auto).
  destruct (f a) eqn:Ef.
  - rewrite (H a (or_introl eq_refl) Ef). simpl. lia.
  - destruct (g a); simpl; lia.
Qed.

Lemma filter_length_strict (A : Type) (f g : A -> bool) (l : list A) (a : A) :
  (forall x, In x l -> f x = true -> g x = true) ->
  In a l -> g a = true -> f a = false ->
  length (filter f l) < length (filter g l).
Proof.
  induction l as [| b l IH]; simpl; intros H Hin Hg Hf; [destruct Hin |].
  assert (Hle : length (filter f l) <= length (filter g l))
    by (apply filter_length_mono; auto).
  destruct Hin as [-> | Hin].
  - rewrite Hg, Hf. simpl. lia.
  - assert (IH' : length (filter f l) < length (filter g l)) by (apply IH; auto).
    destruct (f b) eqn:Ef.
    + rewrite (H b (or_introl eq_refl) Ef). simpl. lia.
    + destruct (g b); simpl; lia.
Qed.

Section DepthFirstReturns.

Variable dag : DAG.

Import FindCycles.


Lemma unvisited_mono (st st' : state) :
  incl (visited st) (visited st') -> unvisited dag st' <= unvisited dag st.
Proof.
  intros H. apply filter_length_mono. intros x _ Hx.
  apply negb_true_iff in Hx. apply negb_true_iff.
  apply set_has_false in Hx. apply set_has_false. auto.
Qed.

Lemma unvisited_enter (n : string) (st : state) :
  In n (universe dag) -> ~ In n (visited st) -> unvisited dag (enter n st) < unvisited dag st.
Proof.
  intros Hu Hn. apply filter_length_strict with n; auto.
  - intros x _ Hx. apply negb_true_iff in Hx. apply negb_true_iff.
    apply set_has_false in Hx. apply set_has_false.
    intros H. apply Hx. simpl. apply set_In_add. now right.
  - apply negb_true_iff. now apply set_has_false.
  - apply negb_false_iff. apply set_has_In. simpl. apply set_In_add. now left.
Qed.

Lemma children_in_universe (n c : string) :
  In c (getChildren dag n) -> In c (universe dag).
Proof.
  unfold getChildren, universe. intros H. apply in_app_iff. right.
  destruct (JSMap.get n (outgoingEdges dag)) as [s |] eqn:E; [| destruct H].
  apply in_flat_map. exists (n, s). split; [now apply map_get_Some_In | exact H].
Qed.

Lemma dfs_children_returns (rec : string -> state -> option (bool * state))
    (n : string) (bound : nat) :
  (forall c st, In c (universe dag) -> ~ In c (visited st) -> unvisited dag st <= bound ->
     exists r, rec c st = Some r /\ incl (visited st) (visited (snd r))) ->
  forall cs st,
    incl cs (universe dag) -> unvisited dag st <= bound ->
    exists r, dfs_children rec n cs st = Some r /\ incl (visited st) (visited (snd r)).
Proof.
  intros Hrec. induction cs as [| c cs IH]; intros st Hcs Hb; simpl.
  - eexists. split; [reflexivity |]. simpl. intros x Hx. exact Hx.
  - assert (Hcs' : incl cs (universe dag)) by (intros x Hx; apply Hcs; now right).
    destruct (JSSet.has c (visited st)) eqn:Ev; simpl.
    + destruct (JSSet.has c (recursionStack st)).
      * eexists. split; [reflexivity |]. simpl. intros x Hx. exact Hx.
      * now apply IH.
    + apply set_has_false in Ev.
      destruct (Hrec c st (Hcs c (or_introl eq_refl)) Ev Hb) as [[b st1] [Er Hi]].
      rewrite Er. simpl in Hi. destruct b.
      * eexists. split; [reflexivity |]. exact Hi.
      * destruct (IH st1 Hcs') as [r [Hr1 Hr2]].
        -- pose proof (unvisited_mono st st1 Hi). lia.
        -- exists r. split; [exact Hr1 |]. intros x Hx. now apply Hr2, Hi.
Qed.

Lemma dfs_returns (fuel : nat) :
  forall n st,
    In n (universe dag) -> ~ In n (visited st) -> unvisited dag st < fuel ->
    exists r, dfs fuel dag n st = Some r /\ incl (visited st) (visited (snd r)).
Proof.
  induction fuel as [| fuel IH]; intros n st Hu Hn Hlt; [lia |].
  simpl. pose proof (unvisited_enter n st Hu Hn) as Hdec.
  destruct (dfs_children_returns (dfs fuel dag) n (unvisited dag (enter n st)))
    with (cs := getChildren dag n) (st := enter n st) as [r [Hr1 Hr2]].
  - intros c st1 Hc Hv Hb. apply IH; auto. lia.
  - intros c Hc. now apply (children_in_universe n).
  - lia.
  - exists r. split; [exact Hr1 |]. intros x Hx. apply Hr2. simpl.
    apply set_In_add. now right.
Qed.

Lemma scan_returns (ids : list string) :
  forall st, incl ids (universe dag) ->
    exists st', scan (S (length (universe dag))) dag ids st = Some st'.
Proof.
  induction ids as [| x ids IH]; intros st Hids; simpl.
  - now exists st.
  - assert (Hids' : incl ids (universe dag)) by (intros y Hy; apply Hids; now right).
    destruct (JSSet.has x (visited st)) eqn:Ev; cbn [negb]; [now apply IH |].
    apply set_has_false in Ev.
    destruct (dfs_returns (S (length (universe dag))) x st) as [[b st1] [Hr _]].
    + apply Hids. now left.
    + exact Ev.
    + unfold unvisited.
      pose proof (List.filter_length_le
        (fun x => negb (JSSet.has x (visited st))) (universe dag)) as Hle.
      lia.
    + cbn [dfs] in Hr. cbn [dfs]. rewrite Hr. now apply IH.
Qed.

(** [findCycles] returns for every store. *)
Lemma findCycles_returns : exists cs, findCycles dag = Some cs.
Proof.
  unfold findCycles, findCycles_fuel.
  destruct (scan_returns (map id (getNodes dag)) init) as [st' H].
  - intros x Hx. unfold universe. apply in_app_iff. now left.
  - rewrite H. now eexists.
Qed.

End DepthFirstReturns.

(* ================================================================= *)
(** ** Cycle detection: the answer of [findCycles] *)

Lemma clos_trans_first (R : string -> string -> Prop) (a b : string) :
  clos_trans string R a b -> exists y, R a y.
Proof.
  induction 1 as [a b H | a b d _ IH1 _ _]; [now exists b | exact IH1].
Qed.

Lemma clos_trans_incl (R R' : string -> string -> Prop) :
  (forall a b, R a b -> R' a b) ->
  forall a b, clos_trans string R a b -> clos_trans string R' a b.
Proof.
  intros H a b. induction 1 as [a b H1 | a b d _ IH1 _ IH2].
  - apply t_step. now apply H.
  - now apply t_trans with b.
Qed.


Lemma set_own_id (n : DAGNode) (m : JSMap.t DAGNode) :
  map id (JSMap.values m) = JSMap.keys m ->
  map id (JSMap.values (JSMap.set (id n) n m)) = JSMap.keys (JSMap.set (id n) n m).
Proof.
  unfold JSMap.values, JSMap.keys.
  induction m as [| [k v] m IH]; simpl; intros H; [reflexivity |].
  injection H as H1 H2.
  destruct (String.eqb (id n) k); simpl.
  - now rewrite H2.
  - now rewrite H1, IH.
Qed.

Lemma DAG_of_ids_match (s : DAGStructure) : ids_match (DAG_of s).
Proof.
  unfold ids_match, getNodes. rewrite DAG_of_nodeMap. unfold node_table.
  assert (H : forall ns (m : JSMap.t DAGNode),
             map id (JSMap.values m) = JSMap.keys m ->
             map id (JSMap.values (fold_left (fun m n => JSMap.set (id n) n m) ns m))
             = JSMap.keys (fold_left (fun m n => JSMap.set (id n) n m) ns m)).
  { induction ns as [| n ns IH]; simpl; intros m Hm; [exact Hm |].
    apply IH. now apply set_own_id. }
  now apply H.
Qed.

Lemma findCycles_correct (g : DAG) (cs : list (list string)) :
  keys_agree g -> ids_match g ->
  findCycles g = Some cs ->
  (cs = [] -> ~ has_cycle g) /\ (cs <> [] -> has_cycle g).
Proof.
  intros [Ho _] Hm. unfold findCycles, findCycles_fuel.
  destruct (FindCycles.scan _ g _ _) as [st' |] eqn:Es; [| discriminate].
  intros [= <-].
  assert (Hinit : scan_inv g FindCycles.init).
  { left. simpl. split; [reflexivity |]. split; [reflexivity |].
    split; [reflexivity |]. intros x []. }
  destruct (scan_spec g _ _ _ _ Es Hinit) as [Hinv Hvis].
  split.
  - intros Hnil [v Hv].
    destruct Hinv as [[_ [_ [_ Hfin]]] | [Hne _]]; [| contradiction].
    destruct (Hvis Hnil) as [_ Hall].
    apply (finishes_no_cycle g v); [| exact Hv].
    apply Hfin, Hall. rewrite Hm, <- Ho.
    destruct (clos_trans_first _ _ _ Hv) as [y Hy]. unfold child_rel, getChildren in Hy.
    destruct (JSMap.get v (outgoingEdges g)) eqn:E; [| destruct Hy].
    now apply map_get_Some_keys in E.
  - intros Hne. destruct Hinv as [[Hnil _] | [_ Hc]]; [contradiction | exact Hc].
Qed.

Lemma DAG_of_child_rel (s : DAGStructure) :
  no_dangling s -> forall a b, child_rel (DAG_of s) a b <-> edge_rel s a b.
Proof.
  intros Hd a b. unfold child_rel, edge_rel. rewrite DAG_of_children. split; [tauto |].
  intros H. split; [| exact H]. apply (Hd _ H).
Qed.

(** On a structure without dangling edges, [findCycles] finds no cycle
    exactly when the structure is acyclic. *)
Lemma findCycles_acyclic (s : DAGStructure) :
  no_dangling s ->
  exists cs, findCycles (DAG_of s) = Some cs /\ (cs = [] <-> acyclic s).
Proof.
  intros Hd.
  destruct (findCycles_returns (DAG_of s)) as [cs Hcs]. exists cs. split; [exact Hcs |].
  destruct (findCycles_correct (DAG_of s) cs (DAG_of_keys_agree s)
              (DAG_of_ids_match s) Hcs) as [H1 H2].
  split.
  - intros Hnil v Hv. apply (H1 Hnil). exists v.
    apply (clos_trans_incl (edge_rel s)); [| exact Hv].
    intros a b. apply (DAG_of_child_rel s Hd).
  - intros Hac. destruct cs as [| c cs]; [reflexivity |].
    exfalso. destruct H2 as [v Hv]; [discriminate |]. apply (Hac v).
    apply (clos_trans_incl (child_rel (DAG_of s))); [| exact Hv].
    intros a b. apply (DAG_of_child_rel s Hd).
Qed.

(* ================================================================= *)
(** ** Kahn's sort: counting the edges that still hold a node back *)



Lemma edge_eqb_eq (e1 e2 : DAGEdge) : edge_eqb e1 e2 = true <-> e1 = e2.
Proof.
  unfold edge_eqb. rewrite andb_true_iff, !String.eqb_eq.
  destruct e1, e2; simpl. split; [intros [-> ->]; reflexivity | intros [= -> ->]; auto].
Qed.

Lemma has_edge_In (es : list DAGEdge) (u v : string) :
  has_edge es u v = true <-> In (arrow u v) es.
Proof.
  unfold has_edge. rewrite existsb_exists. split.
  - intros [e [He Heq]]. apply edge_eqb_eq in Heq. now subst.
  - intros H. exists (arrow u v). split; [exact H | now apply edge_eqb_eq].
Qed.

Lemma set_has_snoc (y x : string) (l : list string) :
  JSSet.has y (l ++ [x]) = JSSet.has y l || String.eqb y x.
Proof.
  unfold JSSet.has. rewrite existsb_app. simpl. now rewrite orb_false_r.
Qed.

Lemma remaining_snoc (es : list DAGEdge) (result : list string) (x v : string) :
  NoDup es -> ~ In x result ->
  remaining es (result ++ [x]) v + (if has_edge es x v then 1 else 0)
  = remaining es result v.
Proof.
  intros Hnd Hx. unfold remaining, has_edge.
  induction es as [| e es IH]; [reflexivity |].
  inversion Hnd as [| ? ? Hnotin Hnd']; subst. specialize (IH Hnd').
  cbn [filter existsb]. rewrite set_has_snoc.
  destruct (edge_eqb (arrow x v) e) eqn:Ee.
  - apply edge_eqb_eq in Ee. subst e. cbn [from to arrow orb].
    rewrite !String.eqb_refl, orb_true_r. cbn [negb andb].
    rewrite (proj2 (set_has_false x result) Hx). cbn [negb length].
    assert (Hno : existsb (edge_eqb (arrow x v)) es = false).
    { destruct (existsb _ es) eqn:E; [| reflexivity].
      exfalso. apply Hnotin. now apply has_edge_In. }
    rewrite Hno in IH. cbn [orb]. lia.
  - cbn [orb].
    assert (Hsame : String.eqb (to e) v && negb (JSSet.has (from e) result || String.eqb (from e) x)
                    = String.eqb (to e) v && negb (JSSet.has (from e) result)).
    { destruct (String.eqb_spec (to e) v) as [Hv | Hv]; [| reflexivity]. simpl.
      destruct (String.eqb_spec (from e) x) as [Hf | Hf]; [| now rewrite orb_false_r].
      exfalso. assert (Heq : edge_eqb (arrow x v) e = true).
      { apply edge_eqb_eq. rewrite <- Hv, <- Hf. apply edge_eta. }
      congruence. }
    rewrite Hsame. clear Hsame. destruct (_ && _); cbn [length]; lia.
Qed.

Lemma remaining_zero (es : list DAGEdge) (result : list string) (v : string) :
  remaining es result v = 0 <-> (forall u, In (arrow u v) es -> In u result).
Proof.
  unfold remaining. induction es as [| e es IH]; simpl.
  - split; [intros _ u [] | reflexivity].
  - destruct (String.eqb_spec (to e) v) as [Hv | Hv]; simpl.
    + destruct (JSSet.has (from e) result) eqn:Eh; simpl.
      * rewrite IH. apply set_has_In in Eh. split.
        -- intros H u [Hu | Hu]; [| now apply H].
           apply (f_equal from) in Hu. simpl in Hu. now subst u.
        -- intros H u Hu. apply H. now right.
      * split; [discriminate |]. intros H. exfalso.
        apply set_has_false in Eh. apply Eh, H. left. rewrite <- Hv. symmetry. apply edge_eta.
    + rewrite IH. split.
      * intros H u [Hu | Hu]; [| now apply H].
        exfalso. apply Hv. apply (f_equal to) in Hu. exact Hu.
      * intros H u Hu. apply H. now right.
Qed.

(* ================================================================= *)
(** ** Kahn's sort: positions in the output *)

Lemma index_of_app_in (u : string) (l l' : list string) :
  In u l -> index_of u (l ++ l') = index_of u l.
Proof.
  induction l as [| y l IH]; simpl; intros H; [destruct H |].
  destruct (String.eqb_spec u y) as [-> | Hne]; [reflexivity |].
  f_equal. apply IH. destruct H as [H | H]; [congruence | exact H].
Qed.

Lemma index_of_app_notin (u : string) (l l' : list string) :
  ~ In u l -> index_of u (l ++ l') = length l + index_of u l'.
Proof.
  induction l as [| y l IH]; simpl; intros H; [reflexivity |].
  destruct (String.eqb_spec u y) as [-> | Hne]; [exfalso; auto |].
  f_equal. apply IH. tauto.
Qed.

Lemma index_of_lt (u : string) (l : list string) :
  In u l -> index_of u l < length l.
Proof.
  induction l as [| y l IH]; simpl; intros H; [destruct H |].
  destruct (String.eqb_spec u y) as [-> | Hne]; [lia |].
  destruct H as [H | H]; [congruence |]. specialize (IH H). lia.
Qed.

Lemma index_of_split (u : string) (l : list string) :
  In u l -> exists l1 l2, l = l1 ++ u :: l2 /\ ~ In u l1 /\ index_of u l = length l1.
Proof.
  induction l as [| y l IH]; simpl; intros H; [destruct H |].
  destruct (String.eqb_spec u y) as [-> | Hne].
  - exists [], l. simpl. tauto.
  - destruct H as [H | H]; [congruence |].
    destruct (IH H) as [l1 [l2 [E1 [E2 E3]]]].
    exists (y :: l1), l2. simpl. rewrite E1 at 1.
    split; [reflexivity |]. split; [| now rewrite E3].
    intros [Hy | Hin]; [congruence | contradiction].
Qed.

Lemma index_lt_precedes (l : list string) (u v : string) :
  In u l -> In v l -> index_of u l < index_of v l -> precedes l u v.
Proof.
  intros Hu Hv Hlt.
  destruct (index_of_split u l Hu) as [l1 [l2 [E1 [E2 E3]]]].
  assert (Hv1 : ~ In v l1).
  { intros Hin. rewrite E1 in Hlt at 2. rewrite index_of_app_in in Hlt by assumption.
    pose proof (index_of_lt v l1 Hin). lia. }
  assert (Hvu : v <> u).
  { intros ->. lia. }
  rewrite E1 in Hv. apply in_app_iff in Hv. destruct Hv as [Hv | [Hv | Hv]]; try congruence.
  destruct (in_split v l2 Hv) as [l3 [l4 E4]].
  exists l1, l3, l4. now rewrite E1, E4.
Qed.

(* ================================================================= *)
(** ** Kahn's sort: one turn of the loop over the children *)


Lemma visit_children_spec (cs : list string) :
  NoDup cs ->
  forall (inDegree : JSMap.t Z) (queue : list string),
    let acc := fold_left Kahn.visit_child cs (inDegree, queue) in
    (forall v, JSMap.get v (fst acc) =
               if JSSet.has v cs then Some (lowered inDegree v) else JSMap.get v inDegree) /\
    snd acc = queue ++ filter (fun c => Z.eqb (lowered inDegree c) 0) cs.
Proof.
  induction 1 as [| c cs Hnotin Hnd IH]; intros inDegree queue; simpl.
  - split; [reflexivity | now rewrite app_nil_r].
  - unfold Kahn.visit_child at 2 4. simpl. fold (lowered inDegree c).
    destruct (IH (JSMap.set c (lowered inDegree c) inDegree)
                 (if Z.eqb (lowered inDegree c) 0 then queue ++ [c] else queue))
      as [H1 H2].
    assert (Hsame : forall v, v <> c ->
              lowered (JSMap.set c (lowered inDegree c) inDegree) v = lowered inDegree v).
    { intros v Hv. unfold lowered at 1 3. rewrite map_get_set_neq by congruence.
      reflexivity. }
    split.
    + intros v. rewrite H1. destruct (String.eqb_spec v c) as [-> | Hne]; simpl.
      * rewrite (proj2 (set_has_false c cs) Hnotin). apply map_get_set_eq.
      * destruct (JSSet.has v cs); [now rewrite Hsame | now apply map_get_set_neq; congruence].
    + rewrite H2.
      assert (Hf : filter (fun c0 =>
                     Z.eqb (lowered (JSMap.set c (lowered inDegree c) inDegree) c0) 0) cs
                   = filter (fun c0 => Z.eqb (lowered inDegree c0) 0) cs).
      { apply filter_ext_in. intros a Ha. rewrite Hsame; [reflexivity |].
        intros ->. contradiction. }
      rewrite Hf. destruct (Z.eqb (lowered inDegree c) 0); [| reflexivity].
      now rewrite <- app_assoc.
Qed.

(* ================================================================= *)
(** ** Kahn's sort: the invariant of the loop *)

Lemma getChildren_NoDup_fold_addEdge (es : list DAGEdge) (g : DAG) :
  (forall u, NoDup (getChildren g u)) ->
  forall u, NoDup (getChildren
                     (fold_left (fun acc edge => addEdge (from edge) (to edge) acc) es g) u).
Proof.
  revert g. induction es as [| e es IH]; simpl; intros g H; [exact H |].
  apply IH. intros u. rewrite getChildren_addEdge.
  destruct (_ && _); [apply set_NoDup_add, H | apply H].
Qed.

Lemma DAG_of_children_NoDup (s : DAGStructure) (u : string) :
  NoDup (getChildren (DAG_of s) u).
Proof.
  unfold DAG_of, load. apply getChildren_NoDup_fold_addEdge.
  intros v. rewrite getChildren_fold_addNode. unfold getChildren. simpl. constructor.
Qed.


Section KahnSort.

Variable s : DAGStructure.
Hypothesis Hwf : well_formed s.

Local Abbreviation dag := (DAG_of s).

Lemma kahn_step (inDegree : JSMap.t Z) (x : string) (rest result : list string) :
  kahn_inv s inDegree (x :: rest) result ->
  let acc := fold_left Kahn.visit_child (getChildren dag x) (inDegree, rest) in
  kahn_inv s (fst acc) (snd acc) (result ++ [x]).
Proof.
  destruct Hwf as [Hids [Hedges Hdang]].
  intros [I1 [I2 [I3 I4]]] acc.
  destruct (visit_children_spec (getChildren dag x) (DAG_of_children_NoDup s x)
              inDegree rest) as [A1 A2].
  fold acc in A1, A2.
  assert (Hx : In x (node_ids s) /\ JSMap.get x inDegree = Some 0%Z).
  { apply I3. apply in_app_iff. right. now left. }
  assert (Hxr : ~ In x result).
  { intros Hin. apply NoDup_remove_2 in I1. apply I1. apply in_app_iff. now left. }
  assert (Hcs : forall v, JSSet.has v (getChildren dag x) = has_edge (edges s) x v).
  { intros v. apply Bool.eq_iff_eq_true. rewrite set_has_In, has_edge_In.
    rewrite DAG_of_children. tauto. }
  assert (Hcount : forall v, In v (node_ids s) ->
            JSMap.get v (fst acc) = Some (Z.of_nat (remaining (edges s) (result ++ [x]) v))).
  { intros v Hv. rewrite A1, Hcs.
    pose proof (remaining_snoc (edges s) result x v Hedges Hxr) as Hs.
    unfold lowered. rewrite (I2 v Hv).
    destruct (has_edge (edges s) x v); f_equal; lia. }
  assert (Hold : forall v, In v (result ++ x :: rest) ->
            In v (node_ids s) /\ remaining (edges s) result v = 0).
  { intros v Hv. apply I3 in Hv. destruct Hv as [Hv1 Hv2]. split; [exact Hv1 |].
    rewrite (I2 v Hv1) in Hv2. injection Hv2 as Hv2. lia. }
  assert (Hnew : forall v, In v (filter (fun c => Z.eqb (lowered inDegree c) 0)
                                        (getChildren dag x)) ->
            In v (node_ids s) /\ remaining (edges s) result v = 1).
  { intros v Hv. apply filter_In in Hv. destruct Hv as [Hv1 Hv2].
    apply DAG_of_children in Hv1.
    assert (Hvid : In v (node_ids s)) by (apply (Hdang _ (proj2 Hv1))).
    split; [exact Hvid |]. unfold lowered in Hv2. rewrite (I2 v Hvid) in Hv2.
    apply Z.eqb_eq in Hv2. lia. }
  assert (Hshape : (result ++ [x]) ++ snd acc
                   = (result ++ x :: rest) ++
                     filter (fun c => Z.eqb (lowered inDegree c) 0) (getChildren dag x)).
  { rewrite A2, <- !app_assoc. reflexivity. }
  unfold kahn_inv. rewrite Hshape.
  split; [| split; [exact Hcount | split]].
  - apply NoDup_app; [exact I1 | apply NoDup_filter, DAG_of_children_NoDup |].
    intros v Hv Hv'. apply Hold in Hv. apply Hnew in Hv'. lia.
  - intros v. rewrite in_app_iff. split.
    + intros [Hv | Hv].
      * destruct (Hold v Hv) as [Hv1 Hv2]. split; [exact Hv1 |].
        rewrite (Hcount v Hv1).
        pose proof (remaining_snoc (edges s) result x v Hedges Hxr). do 2 f_equal. lia.
      * destruct (Hnew v Hv) as [Hv1 Hv2]. split; [exact Hv1 |].
        apply filter_In in Hv. destruct Hv as [Hv3 Hv4].
        rewrite A1, (proj2 (set_has_In v _) Hv3). f_equal. now apply Z.eqb_eq.
    + intros [Hv1 Hv2]. rewrite A1 in Hv2.
      destruct (JSSet.has v (getChildren dag x)) eqn:Eh.
      * right. apply filter_In. split; [now apply set_has_In |].
        injection Hv2 as Hv2. now apply Z.eqb_eq.
      * left. apply I3. now split.
  - intros u v Huv Hv. apply in_app_iff in Hv. destruct Hv as [Hv | [<- | []]].
    + destruct (I4 u v Huv Hv) as [Hu Hlt]. split; [apply in_app_iff; now left |].
      now rewrite !index_of_app_in.
    + assert (Hu : In u result).
      { assert (Hz : remaining (edges s) result x = 0).
        { apply (Hold x). apply in_app_iff. right. now left. }
        exact (proj1 (remaining_zero (edges s) result x) Hz u Huv). }
      split; [apply in_app_iff; now left |].
      rewrite index_of_app_in by assumption. rewrite index_of_app_notin by assumption.
      pose proof (index_of_lt u result Hu). lia.
Qed.

End KahnSort.

(* ================================================================= *)
(** ** Kahn's sort: the initial table and queue *)

Lemma zeroed_get_other (ns : list DAGNode) (m : JSMap.t Z) (v : string) :
  ~ In v (map id ns) ->
  JSMap.get v (fold_left (fun m node => JSMap.set (id node) 0%Z m) ns m) = JSMap.get v m.
Proof.
  revert m. induction ns as [| n ns IH]; simpl; intros m H; [reflexivity |].
  rewrite IH by tauto. apply map_get_set_neq. tauto.
Qed.

Lemma zeroed_get (ns : list DAGNode) (m : JSMap.t Z) (v : string) :
  In v (map id ns) ->
  JSMap.get v (fold_left (fun m node => JSMap.set (id node) 0%Z m) ns m) = Some 0%Z.
Proof.
  revert m. induction ns as [| n ns IH]; simpl; intros m H; [destruct H |].
  destruct (in_dec string_dec v (map id ns)) as [Hin | Hnotin]; [now apply IH |].
  destruct H as [<- | H]; [| contradiction].
  rewrite zeroed_get_other by assumption. apply map_get_set_eq.
Qed.

Lemma zeroed_keys (ns : list DAGNode) (m : JSMap.t Z) :
  NoDup (JSMap.keys m) ->
  let m' := fold_left (fun m node => JSMap.set (id node) 0%Z m) ns m in
  NoDup (JSMap.keys m') /\
  (forall x, In x (JSMap.keys m') <-> In x (JSMap.keys m) \/ In x (map id ns)).
Proof.
  revert m. induction ns as [| n ns IH]; simpl; intros m H.
  - split; [exact H | intros x; tauto].
  - destruct (IH (JSMap.set (id n) 0%Z m) (map_NoDup_set _ _ _ _ H)) as [H1 H2].
    split; [exact H1 |]. intros x. rewrite H2, map_keys_set_In. intuition congruence.
Qed.

Lemma counted_get (es : list DAGEdge) (m : JSMap.t Z) (v : string) (d : Z) :
  JSMap.get v m = Some d ->
  JSMap.get v (fold_left (fun m edge =>
      JSMap.set (to edge)
        ((match JSMap.get (to edge) m with Some d => d | None => 0 end) + 1)%Z m) es m)
  = Some (d + Z.of_nat (length (filter (fun e => String.eqb (to e) v) es)))%Z.
Proof.
  revert m d. induction es as [| e es IH]; simpl; intros m d H.
  - rewrite H. f_equal. lia.
  - destruct (String.eqb_spec (to e) v) as [Hv | Hv].
    + rewrite (IH _ (d + 1)%Z).
      * f_equal. simpl. lia.
      * rewrite Hv, H. apply map_get_set_eq.
    + rewrite (IH _ d); [reflexivity |].
      now rewrite map_get_set_neq.
Qed.

Lemma counted_keys (es : list DAGEdge) (m : JSMap.t Z) :
  NoDup (JSMap.keys m) ->
  let m' := fold_left (fun m edge =>
      JSMap.set (to edge)
        ((match JSMap.get (to edge) m with Some d => d | None => 0 end) + 1)%Z m) es m in
  NoDup (JSMap.keys m') /\
  (forall x, In x (JSMap.keys m') <-> In x (JSMap.keys m) \/ In x (map to es)).
Proof.
  revert m. induction es as [| e es IH]; simpl; intros m H.
  - split; [exact H | intros x; tauto].
  - destruct (IH _ (map_NoDup_set _ (to e)
        ((match JSMap.get (to e) m with Some d => d | None => 0 end) + 1)%Z _ H))
      as [H1 H2].
    split; [exact H1 |]. intros x. rewrite H2, map_keys_set_In. intuition congruence.
Qed.

Lemma NoDup_keys_filter (f : string * Z -> bool) (m : JSMap.t Z) :
  NoDup (JSMap.keys m) -> NoDup (map fst (filter f m)).
Proof.
  unfold JSMap.keys. induction m as [| a m IH]; simpl; intros H; [constructor |].
  inversion H as [| ? ? Hnotin Hnd]; subst.
  destruct (f a); simpl; [| now apply IH].
  constructor; [| now apply IH].
  intros Hin. apply Hnotin. apply in_map_iff in Hin. destruct Hin as [b [Hb1 Hb2]].
  apply filter_In in Hb2. apply in_map_iff. exists b. tauto.
Qed.

Lemma initial_queue_In (m : JSMap.t Z) (v : string) :
  NoDup (JSMap.keys m) ->
  (In v (Kahn.initial_queue m) <-> JSMap.get v m = Some 0%Z).
Proof.
  intros Hnd. unfold Kahn.initial_queue. rewrite in_map_iff. split.
  - intros [[k d] [Hk Hin]]. simpl in Hk. subst k.
    apply filter_In in Hin. destruct Hin as [Hin Hd]. simpl in Hd.
    apply Z.eqb_eq in Hd. subst d. now apply map_In_get.
  - intros H. exists (v, 0%Z). split; [reflexivity |].
    apply filter_In. split; [now apply map_get_Some_In | reflexivity].
Qed.

Section KahnRun.

Variable s : DAGStructure.
Hypothesis Hwf : well_formed s.

Lemma kahn_initial :
  kahn_inv s (Kahn.initial_inDegree s) (Kahn.initial_queue (Kahn.initial_inDegree s)) [].
Proof.
  destruct Hwf as [Hids [Hedges Hdang]].
  unfold Kahn.initial_inDegree.
  set (zeroed := fold_left (fun m node => JSMap.set (id node) 0%Z m) (nodes s) JSMap.empty).
  destruct (zeroed_keys (nodes s) JSMap.empty (NoDup_nil _)) as [Z1 Z2].
  fold zeroed in Z1, Z2.
  destruct (counted_keys (edges s) zeroed Z1) as [C1 C2].
  set (table := fold_left _ (edges s) zeroed) in *.
  assert (Hkeys : forall x, In x (JSMap.keys table) <-> In x (node_ids s)).
  { intros x. rewrite C2, Z2. simpl. unfold node_ids. split; [| tauto].
    intros [[[] | H] | H]; [exact H |].
    apply in_map_iff in H. destruct H as [e [<- He]]. apply (Hdang e He). }
  assert (Hget : forall v, In v (node_ids s) ->
            JSMap.get v table = Some (Z.of_nat (remaining (edges s) [] v))).
  { intros v Hv. unfold table.
    rewrite (counted_get (edges s) zeroed v 0%Z) by (now apply zeroed_get).
    unfold remaining. rewrite Z.add_0_l. do 3 f_equal. apply filter_ext. intros e. simpl.
    now rewrite andb_true_r. }
  unfold kahn_inv. simpl.
  split; [now apply NoDup_keys_filter |]. split; [exact Hget |]. split.
  - intros v. rewrite (initial_queue_In table v C1). split; [| tauto].
    intros H. split; [| exact H]. apply Hkeys. now apply map_get_Some_keys in H.
  - intros u v _ [].
Qed.

Lemma kahn_loop_spec (fuel : nat) :
  forall inDegree queue result,
    kahn_inv s inDegree queue result ->
    length (node_ids s) <= length result + fuel ->
    exists r inDegree',
      Kahn.loop fuel (DAG_of s) inDegree queue result = Some r /\
      kahn_inv s inDegree' [] r.
Proof.
  induction fuel as [| fuel IH]; intros inDegree queue result Hinv Hlen.
  - destruct queue as [| x rest]; simpl; [now exists result, inDegree |].
    exfalso. destruct Hinv as [I1 [_ [I3 _]]].
    assert (Hle : length (result ++ x :: rest) <= length (node_ids s)).
    { apply NoDup_incl_length; [exact I1 |]. intros v Hv. now apply I3 in Hv. }
    rewrite length_app in Hle. simpl in Hle. lia.
  - destruct queue as [| x rest]; simpl; [now exists result, inDegree |].
    apply IH.
    + now apply kahn_step.
    + rewrite length_app. simpl. lia.
Qed.

(** What the sort returns on a well-formed structure. *)
Lemma topologicalSort_spec :
  exists r,
    topologicalSort s = Some r /\
    NoDup r /\
    incl r (node_ids s) /\
    (forall u v, In (arrow u v) (edges s) -> In v r ->
       In u r /\ index_of u r < index_of v r) /\
    (forall v, In v (node_ids s) ->
       (forall u, In (arrow u v) (edges s) -> In u r) -> In v r).
Proof.
  unfold topologicalSort, topologicalSort_fuel.
  destruct (kahn_loop_spec (length (nodes s) + length (edges s)) _ _ _ kahn_initial)
    as [r [inDegree' [Hr [I1 [I2 [I3 I4]]]]]].
  - unfold node_ids. rewrite length_map. simpl. lia.
  - exists r. split; [exact Hr |]. rewrite app_nil_r in I1, I3.
    split; [exact I1 |]. split; [intros v Hv; now apply I3 in Hv |].
    split; [exact I4 |].
    intros v Hv Hpred. apply I3. split; [exact Hv |].
    rewrite (I2 v Hv).
    rewrite (proj2 (remaining_zero (edges s) r v) Hpred). reflexivity.
Qed.

End KahnRun.

(* ================================================================= *)
(** ** Kahn's sort returns on every structure *)

Lemma kahn_bounded_step (s : DAGStructure) (inDegree : JSMap.t Z) (x : string)
    (rest result : list string) :
  kahn_bounded s inDegree (x :: rest) result ->
  let acc := fold_left Kahn.visit_child (getChildren (DAG_of s) x) (inDegree, rest) in
  kahn_bounded s (fst acc) (snd acc) (result ++ [x]).
Proof.
  intros [G1 [G2 G3]] acc.
  destruct (visit_children_spec (getChildren (DAG_of s) x) (DAG_of_children_NoDup s x)
              inDegree rest) as [A1 A2].
  fold acc in A1, A2.
  assert (Hshape : (result ++ [x]) ++ snd acc
                   = (result ++ x :: rest) ++
                     filter (fun c => Z.eqb (lowered inDegree c) 0)
                            (getChildren (DAG_of s) x)).
  { rewrite A2, <- !app_assoc. reflexivity. }
  unfold kahn_bounded. rewrite Hshape. split; [| split].
  - apply NoDup_app; [exact G1 | apply NoDup_filter, DAG_of_children_NoDup |].
    intros v Hv Hv'. destruct (G2 v Hv) as [d [Hd Hle]].
    apply filter_In in Hv'. destruct Hv' as [_ Hz]. unfold lowered in Hz.
    rewrite Hd in Hz. apply Z.eqb_eq in Hz. lia.
  - intros v Hv. rewrite A1. apply in_app_iff in Hv. destruct Hv as [Hv | Hv].
    + destruct (G2 v Hv) as [d [Hd Hle]].
      destruct (JSSet.has v (getChildren (DAG_of s) x)).
      * exists (d - 1)%Z. unfold lowered. rewrite Hd. split; [reflexivity | lia].
      * exists d. now split.
    + apply filter_In in Hv. destruct Hv as [Hv Hz].
      rewrite (proj2 (set_has_In v _) Hv). exists (lowered inDegree v).
      split; [reflexivity |]. apply Z.eqb_eq in Hz. lia.
  - intros v Hv. apply in_app_iff in Hv. destruct Hv as [Hv | Hv]; [now apply G3 |].
    apply filter_In in Hv. destruct Hv as [Hv _]. apply DAG_of_children in Hv.
    apply in_app_iff. right. apply in_map_iff. exists (arrow x v). split; [reflexivity | tauto].
Qed.

Lemma kahn_bounded_initial (s : DAGStructure) :
  kahn_bounded s (Kahn.initial_inDegree s)
    (Kahn.initial_queue (Kahn.initial_inDegree s)) [].
Proof.
  unfold Kahn.initial_inDegree.
  set (zeroed := fold_left (fun m node => JSMap.set (id node) 0%Z m) (nodes s) JSMap.empty).
  destruct (zeroed_keys (nodes s) JSMap.empty (NoDup_nil _)) as [Z1 Z2].
  fold zeroed in Z1, Z2.
  destruct (counted_keys (edges s) zeroed Z1) as [C1 C2].
  set (table := fold_left _ (edges s) zeroed) in *.
  unfold kahn_bounded. simpl. split; [now apply NoDup_keys_filter |]. split.
  - intros x Hx. apply (initial_queue_In table x C1) in Hx. exists 0%Z. split; [exact Hx | lia].
  - intros x Hx. apply (initial_queue_In table x C1) in Hx.
    apply map_get_Some_keys in Hx. apply C2 in Hx. rewrite Z2 in Hx. simpl in Hx.
    apply in_app_iff. unfold node_ids. tauto.
Qed.

Lemma kahn_loop_returns (s : DAGStructure) (fuel : nat) :
  forall inDegree queue result,
    kahn_bounded s inDegree queue result ->
    length (node_ids s ++ map to (edges s)) <= length result + fuel ->
    exists r, Kahn.loop fuel (DAG_of s) inDegree queue result = Some r.
Proof.
  induction fuel as [| fuel IH]; intros inDegree queue result Hinv Hlen.
  - destruct queue as [| x rest]; simpl; [now exists result |].
    exfalso. destruct Hinv as [G1 [_ G3]].
    pose proof (NoDup_incl_length G1 G3) as Hle.
    rewrite length_app in Hle. simpl in Hle. lia.
  - destruct queue as [| x rest]; simpl; [now exists result |].
    apply IH.
    + now apply kahn_bounded_step.
    + rewrite (length_app result [x]). simpl. lia.
Qed.

(** [topologicalSort] returns for every structure. *)
Lemma topologicalSort_returns (s : DAGStructure) :
  exists r, topologicalSort s = Some r.
Proof.
  unfold topologicalSort, topologicalSort_fuel.
  apply (kahn_loop_returns s _ _ _ _ (kahn_bounded_initial s)).
  unfold node_ids. rewrite length_app, !length_map. simpl. lia.
Qed.

(* ================================================================= *)
(** ** Acyclic structures *)

Lemma clos_trans_last (R : string -> string -> Prop) (a b : string) :
  clos_trans string R a b -> exists y, R y b.
Proof.
  induction 1 as [a b H | a b d _ _ _ IH2]; [now exists a | exact IH2].
Qed.

(** In a structure without dangling edges and without cycles, walking back
    along the edges from a node always ends: a walk back that never ends
    would have to repeat one of the finitely many nodes. *)
Lemma acyclic_walk_back (s : DAGStructure) :
  no_dangling s -> acyclic s ->
  forall n seen v,
    In v (node_ids s) ->
    NoDup seen -> incl seen (node_ids s) ->
    (forall x, In x seen -> clos_trans string (edge_rel s) v x) ->
    length (node_ids s) - length seen <= n ->
    Acc (edge_rel s) v.
Proof.
  intros Hdang Hac. induction n as [| n IH]; intros seen v Hv Hnd Hincl Hreach Hlen.
  - exfalso.
    assert (Hfresh : ~ In v seen) by (intros Hin; exact (Hac v (Hreach v Hin))).
    assert (Hle : length (v :: seen) <= length (node_ids s)).
    { apply NoDup_incl_length; [now constructor |].
      intros x [<- | Hx]; [exact Hv | now apply Hincl]. }
    simpl in Hle. lia.
  - assert (Hfresh : ~ In v seen) by (intros Hin; exact (Hac v (Hreach v Hin))).
    assert (Hle : length (v :: seen) <= length (node_ids s)).
    { apply NoDup_incl_length; [now constructor |].
      intros x [<- | Hx]; [exact Hv | now apply Hincl]. }
    simpl in Hle.
    constructor. intros u Hu. apply (IH (v :: seen)).
    + apply (Hdang _ Hu).
    + now constructor.
    + intros x [<- | Hx]; [exact Hv | now apply Hincl].
    + intros x [<- | Hx]; [now apply t_step |].
      apply t_trans with v; [now apply t_step | now apply Hreach].
    + simpl. lia.
Qed.

Lemma acyclic_accessible (s : DAGStructure) :
  no_dangling s -> acyclic s ->
  forall v, In v (node_ids s) -> Acc (edge_rel s) v.
Proof.
  intros Hdang Hac v Hv.
  apply (acyclic_walk_back s Hdang Hac (length (node_ids s)) [] v Hv).
  - constructor.
  - intros x [].
  - intros x [].
  - simpl. lia.
Qed.

(** A rank that grows along every edge rules cycles out. *)
Lemma ranked_acyclic (s : DAGStructure) (rank : string -> nat) :
  (forall e, In e (edges s) -> rank (from e) < rank (to e)) -> acyclic s.
Proof.
  intros H v Hv.
  assert (Hlt : forall a b, clos_trans string (edge_rel s) a b -> rank a < rank b).
  { induction 1 as [a b Hab | a b d _ IH1 _ IH2]; [| lia].
    apply (H (arrow a b) Hab). }
  specialize (Hlt v v Hv). lia.
Qed.

Section SortedOutput.

Variable s : DAGStructure.
Hypothesis Hwf : well_formed s.

Variable r : list string.
Hypothesis Hnodup : NoDup r.
Hypothesis Hincl : incl r (node_ids s).
Hypothesis Horder :
  forall u v, In (arrow u v) (edges s) -> In v r -> In u r /\ index_of u r < index_of v r.
Hypothesis Hclosed :
  forall v, In v (node_ids s) -> (forall u, In (arrow u v) (edges s) -> In u r) -> In v r.

Lemma sorted_output_complete : acyclic s -> incl (node_ids s) r.
Proof.
  destruct Hwf as [_ [_ Hdang]].
  intros Hac v Hv. pose proof (acyclic_accessible s Hdang Hac v Hv) as Hacc.
  induction Hacc as [v _ IH].
  apply Hclosed; [exact Hv |]. intros u Hu. apply IH; [exact Hu |].
  apply (Hdang _ Hu).
Qed.

Lemma sorted_output_order (a b : string) :
  clos_trans string (edge_rel s) a b -> In b r -> In a r /\ index_of a r < index_of b r.
Proof.
  induction 1 as [a b Hab | a b d _ IH1 _ IH2]; intros Hb.
  - now apply Horder.
  - destruct (IH2 Hb) as [Hm Hlt]. destruct (IH1 Hm) as [Ha Hlt'].
    split; [exact Ha | lia].
Qed.

Lemma sorted_output_full_acyclic : length r = length (nodes s) -> acyclic s.
Proof.
  destruct Hwf as [_ [_ Hdang]].
  intros Hlen v Hv.
  assert (Hall : incl (node_ids s) r).
  { apply NoDup_length_incl; [exact Hnodup | | exact Hincl].
    unfold node_ids. rewrite length_map. lia. }
  destruct (clos_trans_last _ _ _ Hv) as [y Hy].
  assert (Hin : In v r) by (apply Hall; apply (Hdang _ Hy)).
  destruct (sorted_output_order v v Hv Hin) as [_ Hlt]. lia.
Qed.

Lemma sorted_output_permutation : acyclic s -> Permutation r (node_ids s).
Proof.
  intros Hac. destruct Hwf as [Hids _].
  apply NoDup_Permutation; [exact Hnodup | exact Hids |].
  intros x. split; [apply Hincl | now apply sorted_output_complete].
Qed.

End SortedOutput.

(** C4, on well-formed structures: for every acyclic structure whose
    identifiers are pairwise distinct and whose edges are pairwise distinct
    and name existing nodes, [topologicalSort] returns a permutation of the
    structure's node identifiers in which, for every edge, the source stands
    before the destination. *)
Theorem topologicalSort_acyclic (s : DAGStructure) :
  well_formed s ->
  acyclic s ->
  exists r,
    topologicalSort s = Some r /\
    Permutation r (node_ids s) /\
    (forall e, In e (edges s) -> precedes r (from e) (to e)).
Proof.
  intros Hwf Hac.
  destruct (topologicalSort_spec s Hwf) as [r [Hr [H1 [H2 [H3 H4]]]]].
  exists r. split; [exact Hr |].
  split; [now apply (sorted_output_permutation s Hwf r H1 H2 H4) |].
  intros e He.
  assert (Hto : In (to e) r).
  { apply (sorted_output_complete s Hwf r H4 Hac). destruct Hwf as [_ [_ Hdang]].
    apply (Hdang e He). }
  rewrite <- (edge_eta e) in He.
  destruct (H3 _ _ He Hto) as [Hfrom Hlt].
  now apply index_lt_precedes.
Qed.

Lemma diamond_well_formed : well_formed diamond.
Proof.
  split; [| split].
  - repeat constructor; simpl; intuition discriminate.
  - repeat constructor; simpl; intuition discriminate.
  - intros e He. simpl in He.
    repeat (destruct He as [<- | He]; [simpl; tauto |]). destruct He.
Qed.

Lemma diamond_acyclic : acyclic diamond.
Proof.
  apply (ranked_acyclic diamond
           (fun x => if String.eqb x "a" then 0 else if String.eqb x "d" then 2 else 1)).
  intros e He. simpl in He.
  repeat (destruct He as [<- | He]; [simpl; lia |]). destruct He.
Qed.

Lemma topologicalSort_acyclic_witness :
  exists r,
    topologicalSort diamond = Some r /\
    Permutation r (node_ids diamond) /\
    (forall e, In e (edges diamond) -> precedes r (from e) (to e)).
Proof.
  apply (topologicalSort_acyclic diamond).
  - exact diamond_well_formed.
  - exact diamond_acyclic.
Defined.




(** C4 as written fails on acyclic structures that are not well formed: an
    edge from an identifier that names no node keeps its destination out of
    the output, an edge listed twice is counted twice and lowered once, and
    an identifier listed twice is output once. *)
Lemma topologicalSort_not_a_permutation :
  (acyclic dangling_source /\
   topologicalSort dangling_source = Some [] /\
   ~ Permutation [] (node_ids dangling_source)) /\
  (acyclic doubled_edge /\
   topologicalSort doubled_edge = Some ["a"] /\
   ~ Permutation ["a"] (node_ids doubled_edge)) /\
  (acyclic doubled_node /\
   topologicalSort doubled_node = Some ["a"] /\
   ~ Permutation ["a"] (node_ids doubled_node)).
Proof.
  split; [| split].
  - split; [| split; [reflexivity |]].
    + apply (ranked_acyclic _ (fun x => if String.eqb x "a" then 1 else 0)).
      intros e [<- | []]. simpl. lia.
    + intros H. apply Permutation_length in H. discriminate H.
  - split; [| split; [reflexivity |]].
    + apply (ranked_acyclic _ (fun x => if String.eqb x "a" then 0 else 1)).
      intros e [<- | [<- | []]]; simpl; lia.
    + intros H. apply Permutation_length in H. discriminate H.
  - split; [| split; [reflexivity |]].
    + apply (ranked_acyclic _ (fun _ => 0)). intros e [].
    + intros H. apply Permutation_length in H. discriminate H.
Qed.

(* ================================================================= *)
(** ** Validation and the sort agree on acyclicity *)

Lemma is_nil_true (A : Type) (l : list A) : is_nil l = true <-> l = [].
Proof. destruct l; simpl; split; congruence. Qed.

Lemma validateDAG_isAcyclic (s : DAGStructure) :
  exists res cs,
    validateDAG s = Some res /\ findCycles (DAG_of s) = Some cs /\
    (isAcyclic res = true <-> cs = []).
Proof.
  destruct (findCycles_returns (DAG_of s)) as [cs Hcs].
  unfold validateDAG. rewrite Hcs.
  eexists. exists cs. split; [reflexivity |]. split; [reflexivity |].
  simpl. apply is_nil_true.
Qed.

(** C5, with the second equivalence on well-formed structures: for every
    structure, [validateDAG] returns and its [isAcyclic] flag is true
    exactly when [findCycles] returns the empty list; and for every
    structure whose identifiers are pairwise distinct and whose edges are
    pairwise distinct and name existing nodes, the flag is true exactly when
    the output of [topologicalSort] is as long as the list of nodes. *)
Theorem isAcyclic_characterised :
  (forall s, exists res cs,
      validateDAG s = Some res /\ findCycles (DAG_of s) = Some cs /\
      (isAcyclic res = true <-> cs = [])) /\
  (forall s, well_formed s ->
     exists res order,
       validateDAG s = Some res /\ topologicalSort s = Some order /\
       (isAcyclic res = true <-> length order = length (nodes s))).
Proof.
  split; [exact validateDAG_isAcyclic |].
  intros s Hwf.
  destruct (validateDAG_isAcyclic s) as [res [cs [Hres [Hcs Hiff]]]].
  destruct (topologicalSort_spec s Hwf) as [r [Hr [H1 [H2 [H3 H4]]]]].
  exists res, r. split; [exact Hres |]. split; [exact Hr |].
  assert (Hdang : no_dangling s) by (apply Hwf).
  destruct (findCycles_acyclic s Hdang) as [cs' [Hcs' Hac]].
  rewrite Hcs in Hcs'. injection Hcs' as <-.
  rewrite Hiff, Hac. split.
  - intros Hacyc.
    pose proof (sorted_output_permutation s Hwf r H1 H2 H4 Hacyc) as Hperm.
    apply Permutation_length in Hperm. unfold node_ids in Hperm.
    now rewrite length_map in Hperm.
  - now apply (sorted_output_full_acyclic s Hwf r H1 H2 H3).
Qed.

Lemma isAcyclic_characterised_witness :
  exists res order,
    validateDAG diamond = Some res /\ topologicalSort diamond = Some order /\
    (isAcyclic res = true <-> length order = length (nodes diamond)).
Proof.
  apply (proj2 isAcyclic_characterised diamond).
  exact diamond_well_formed.
Defined.


(** C5 as written fails in its second equivalence on structures that are
    not well formed: with an edge listed twice, with an identifier listed
    twice or with a dangling source the flag is true and the output is
    shorter than the list of nodes; with a self-loop beside a dangling
    destination the flag is false and the two lengths agree. *)
Lemma isAcyclic_differs_from_sorted_length :
  (exists res order,
     validateDAG doubled_edge = Some res /\ topologicalSort doubled_edge = Some order /\
     isAcyclic res = true /\ length order <> length (nodes doubled_edge)) /\
  (exists res order,
     validateDAG doubled_node = Some res /\ topologicalSort doubled_node = Some order /\
     isAcyclic res = true /\ length order <> length (nodes doubled_node)) /\
  (exists res order,
     validateDAG dangling_source = Some res /\ topologicalSort dangling_source = Some order /\
     isAcyclic res = true /\ length order <> length (nodes dangling_source)) /\
  (exists res order,
     validateDAG loop_and_dangling = Some res /\
     topologicalSort loop_and_dangling = Some order /\
     isAcyclic res = false /\ length order = length (nodes loop_and_dangling)).
Proof.
  split; [| split; [| split]]; do 2 eexists;
    (split; [reflexivity |]); (split; [reflexivity |]); simpl; split;
    try reflexivity; try discriminate.
Qed.

(* ================================================================= *)
(** ** The graph store: [removeNode] and repeated [addEdge] *)

Lemma scrub_get (x k : string) (m : JSMap.t JSSet.t) :
  JSMap.get k (scrub x m) = option_map (JSSet.delete x) (JSMap.get k m).
Proof.
  unfold scrub. induction m as [| [k' s] m IH]; simpl; [reflexivity |].
  destruct (String.eqb k k'); [reflexivity | exact IH].
Qed.

Lemma entry_list_removed (x u : string) (m : JSMap.t JSSet.t) :
  entry_list u (scrub x (JSMap.delete x m)) =
  if String.eqb x u then [] else JSSet.delete x (entry_list u m).
Proof.
  unfold entry_list. rewrite scrub_get.
  destruct (String.eqb_spec x u) as [<- | Hne].
  - now rewrite map_get_delete_eq.
  - rewrite map_get_delete_neq by assumption.
    destruct (JSMap.get u m); reflexivity.
Qed.

(** X1: [removeNode(id)] takes [id] out of the three maps and out of every
    outgoing and incoming set; every other identifier keeps its node, and
    its children and parents are the former ones without [id]. *)
Theorem removeNode_effect (g : DAG) (x : string) :
  let g' := removeNode x g in
  getNode x g' = None /\
  JSMap.has x (outgoingEdges g') = false /\
  JSMap.has x (incomingEdges g') = false /\
  (forall u, ~ In x (getChildren g' u)) /\
  (forall u, ~ In x (getParents g' u)) /\
  (forall u, u <> x ->
     getNode u g' = getNode u g /\
     getChildren g' u = JSSet.delete x (getChildren g u) /\
     getParents g' u = JSSet.delete x (getParents g u)).
Proof.
  intros g'.
  assert (Hc : forall u, getChildren g' u =
             if String.eqb x u then [] else JSSet.delete x (getChildren g u))
    by (intros u; apply entry_list_removed).
  assert (Hp : forall u, getParents g' u =
             if String.eqb x u then [] else JSSet.delete x (getParents g u))
    by (intros u; apply entry_list_removed).
  split; [apply map_get_delete_eq |].
  split; [unfold JSMap.has; simpl; now rewrite scrub_get, map_get_delete_eq |].
  split; [unfold JSMap.has; simpl; now rewrite scrub_get, map_get_delete_eq |].
  split; [| split].
  - intros u. rewrite Hc. destruct (String.eqb x u); [intros [] |].
    rewrite set_In_delete. tauto.
  - intros u. rewrite Hp. destruct (String.eqb x u); [intros [] |].
    rewrite set_In_delete. tauto.
  - intros u Hu. split; [| split].
    + apply map_get_delete_neq. congruence.
    + rewrite Hc. destruct (String.eqb_spec x u); [congruence | reflexivity].
    + rewrite Hp. destruct (String.eqb_spec x u); [congruence | reflexivity].
Qed.

Lemma map_set_set (V : Type) (k : string) (v v' : V) (m : JSMap.t V) :
  JSMap.set k v (JSMap.set k v' m) = JSMap.set k v m.
Proof.
  induction m as [| [k' w] m IH]; simpl.
  - now rewrite String.eqb_refl.
  - destruct (String.eqb k k') eqn:E; simpl.
    + now rewrite String.eqb_refl.
    + rewrite E. now rewrite IH.
Qed.

Lemma set_add_add (x : string) (s : JSSet.t) : JSSet.add x (JSSet.add x s) = JSSet.add x s.
Proof.
  unfold JSSet.add at 1.
  rewrite (proj2 (set_has_In x (JSSet.add x s))); [reflexivity |].
  apply set_In_add. now left.
Qed.

Lemma add_to_entry_twice (k x : string) (m : JSMap.t JSSet.t) :
  add_to_entry k x (add_to_entry k x m) = add_to_entry k x m.
Proof.
  unfold add_to_entry at 1. rewrite add_to_entry_get, String.eqb_refl.
  unfold add_to_entry. destruct (JSMap.get k m) as [s |] eqn:E; simpl.
  - now rewrite map_set_set, set_add_add.
  - reflexivity.
Qed.

(** X2: adding the same edge twice is the same as adding it once: the store
    keeps no parallel edges. *)
Theorem addEdge_twice (g : DAG) (f t : string) :
  addEdge f t (addEdge f t g) = addEdge f t g.
Proof.
  unfold addEdge. simpl. now rewrite !add_to_entry_twice.
Qed.

(* ================================================================= *)
(** ** The store built by [load]: parents, roots and leaves *)

Lemma getParents_addNode (n : DAGNode) (g : DAG) (x : string) :
  getParents (addNode n g) x = getParents g x.
Proof.
  unfold getParents, addNode, JSMap.has. simpl.
  destruct (JSMap.get (id n) (incomingEdges g)) eqn:E; [reflexivity |].
  destruct (String.eqb_spec (id n) x) as [<- | Hne].
  - now rewrite map_get_set_eq, E.
  - now rewrite map_get_set_neq.
Qed.

Lemma getParents_fold_addNode (ns : list DAGNode) (g : DAG) (x : string) :
  getParents (fold_left (fun acc node => addNode node acc) ns g) x = getParents g x.
Proof.
  revert g. induction ns as [| n ns IH]; simpl; intros g; [reflexivity |].
  rewrite IH. apply getParents_addNode.
Qed.

Lemma getParents_fold_addEdge (es : list DAGEdge) (g : DAG) (u v : string) :
  In u (getParents (fold_left (fun acc edge => addEdge (from edge) (to edge) acc) es g) v)
  <-> In u (getParents g v) \/
      (JSMap.has v (incomingEdges g) = true /\ In (arrow u v) es).
Proof.
  revert g. induction es as [| e es IH]; simpl; intros g; [tauto |].
  rewrite IH. rewrite getParents_addEdge.
  assert (Hk : JSMap.has v (incomingEdges (addEdge (from e) (to e) g))
               = JSMap.has v (incomingEdges g)).
  { apply map_has_same_keys. simpl. apply add_to_entry_keys. }
  rewrite Hk. destruct (String.eqb_spec (to e) v) as [Heq | Hne]; simpl.
  - subst v. destruct (JSMap.has (to e) (incomingEdges g)) eqn:Eh.
    + rewrite set_In_add. split.
      * intros [[-> | H] | [_ H]]; auto.
        right. split; [reflexivity |]. left. symmetry. apply edge_eta.
      * intros [H | [_ [H | H]]]; auto.
        left. left. apply (f_equal from) in H. simpl in H. now symmetry.
    + split; [intros [H | [H _]]; [now left | discriminate] |].
      intros [H | [H _]]; [now left | discriminate].
  - split.
    + intros [H | [H1 H2]]; auto.
    + intros [H | [H1 [H2 | H2]]]; auto.
      exfalso. apply Hne. apply (f_equal to) in H2. exact H2.
Qed.

Lemma DAG_of_parents (s : DAGStructure) (u v : string) :
  In u (getParents (DAG_of s) v) <-> In v (node_ids s) /\ In (arrow u v) (edges s).
Proof.
  unfold DAG_of, load. rewrite getParents_fold_addEdge, getParents_fold_addNode.
  set (g1 := fold_left (fun acc node => addNode node acc) (nodes s) (clear new_DAG)).
  assert (Hk : keys_agree g1) by (apply keys_agree_fold_addNode, keys_agree_new).
  destruct Hk as [_ Hi].
  rewrite (map_has_same_keys v _ _ Hi), map_has_In.
  unfold g1. rewrite nodeMap_fold_addNode, fold_set_keys_In. simpl.
  unfold getParents. simpl. unfold node_ids. tauto.
Qed.

Lemma getParents_NoDup_fold_addEdge (es : list DAGEdge) (g : DAG) :
  (forall u, NoDup (getParents g u)) ->
  forall u, NoDup (getParents
                     (fold_left (fun acc edge => addEdge (from edge) (to edge) acc) es g) u).
Proof.
  revert g. induction es as [| e es IH]; simpl; intros g H; [exact H |].
  apply IH. intros u. rewrite getParents_addEdge.
  destruct (_ && _); [apply set_NoDup_add, H | apply H].
Qed.

Lemma DAG_of_parents_NoDup (s : DAGStructure) (u : string) :
  NoDup (getParents (DAG_of s) u).
Proof.
  unfold DAG_of, load. apply getParents_NoDup_fold_addEdge.
  intros v. rewrite getParents_fold_addNode. unfold getParents. simpl. constructor.
Qed.

(** X3: in the store that [load] builds from any structure, the children of
    [u] are the destinations of the listed edges from [u] when [u] is a
    node (whether or not the destination is one), the parents of [v] are the
    sources of the listed edges into [v] when [v] is a node, neither list
    repeats an identifier, and an identifier that is no node has neither
    children nor parents. *)
Theorem load_adjacency (s : DAGStructure) (g : DAG) :
  (forall u v, In v (getChildren (load s g) u) <->
               In u (node_ids s) /\ In (arrow u v) (edges s)) /\
  (forall u v, In u (getParents (load s g) v) <->
               In v (node_ids s) /\ In (arrow u v) (edges s)) /\
  (forall u, NoDup (getChildren (load s g) u) /\ NoDup (getParents (load s g) u)) /\
  (forall u, ~ In u (node_ids s) ->
             getChildren (load s g) u = [] /\ getParents (load s g) u = []).
Proof.
  change (load s g) with (DAG_of s).
  split; [exact (DAG_of_children s) |]. split; [exact (DAG_of_parents s) |].
  split; [intros u; split; [apply DAG_of_children_NoDup | apply DAG_of_parents_NoDup] |].
  intros u Hu. split.
  - destruct (getChildren (DAG_of s) u) as [| c l] eqn:E; [reflexivity |].
    exfalso. apply Hu. apply (DAG_of_children s u c). rewrite E. now left.
  - destruct (getParents (DAG_of s) u) as [| c l] eqn:E; [reflexivity |].
    exfalso. apply Hu. apply (DAG_of_parents s c u). rewrite E. now left.
Qed.

Lemma DAG_of_node_ids (s : DAGStructure) (x : string) :
  In x (map id (getNodes (DAG_of s))) <-> In x (node_ids s).
Proof.
  rewrite (DAG_of_ids_match s). apply DAG_of_registered.
Qed.

Lemma entry_size_zero (x : string) (m : JSMap.t JSSet.t) :
  Nat.eqb (entry_size x m) 0 = true <-> entry_list x m = [].
Proof.
  unfold entry_size, entry_list, JSSet.size. rewrite Nat.eqb_eq.
  destruct (JSMap.get x m) as [l |]; [| tauto]. apply length_zero_iff_nil.
Qed.

Lemma DAG_of_roots (s : DAGStructure) (x : string) :
  In x (getRoots (DAG_of s)) <->
  In x (node_ids s) /\ forall u, ~ In (arrow u x) (edges s).
Proof.
  unfold getRoots.
  rewrite in_map_iff. split.
  - intros [n [<- Hn]]. apply filter_In in Hn. destruct Hn as [Hn Hz].
    apply entry_size_zero in Hz.
    assert (Hid : In (id n) (node_ids s)) by (apply DAG_of_node_ids; now apply in_map).
    split; [exact Hid |]. intros u Hu.
    assert (Hin : In u (getParents (DAG_of s) (id n))) by (apply DAG_of_parents; tauto).
    unfold getParents in Hin. unfold entry_list in Hz. rewrite Hz in Hin. destruct Hin.
  - intros [Hx Hno]. apply DAG_of_node_ids in Hx. apply in_map_iff in Hx.
    destruct Hx as [n [<- Hn]]. exists n. split; [reflexivity |].
    apply filter_In. split; [exact Hn |]. apply entry_size_zero.
    destruct (entry_list (id n) (incomingEdges (DAG_of s))) as [| u l] eqn:E; [reflexivity |].
    exfalso. apply (Hno u). apply (DAG_of_parents s u (id n)).
    unfold getParents. unfold entry_list in E. rewrite E. now left.
Qed.

Lemma DAG_of_leaves (s : DAGStructure) (x : string) :
  In x (getLeaves (DAG_of s)) <->
  In x (node_ids s) /\ forall v, ~ In (arrow x v) (edges s).
Proof.
  unfold getLeaves.
  rewrite in_map_iff. split.
  - intros [n [<- Hn]]. apply filter_In in Hn. destruct Hn as [Hn Hz].
    apply entry_size_zero in Hz.
    assert (Hid : In (id n) (node_ids s)) by (apply DAG_of_node_ids; now apply in_map).
    split; [exact Hid |]. intros v Hv.
    assert (Hin : In v (getChildren (DAG_of s) (id n))) by (apply DAG_of_children; tauto).
    unfold getChildren in Hin. unfold entry_list in Hz. rewrite Hz in Hin. destruct Hin.
  - intros [Hx Hno]. apply DAG_of_node_ids in Hx. apply in_map_iff in Hx.
    destruct Hx as [n [<- Hn]]. exists n. split; [reflexivity |].
    apply filter_In. split; [exact Hn |]. apply entry_size_zero.
    destruct (entry_list (id n) (outgoingEdges (DAG_of s))) as [| v l] eqn:E; [reflexivity |].
    exfalso. apply (Hno v). apply (DAG_of_children s (id n) v).
    unfold getChildren. unfold entry_list in E. rewrite E. now left.
Qed.

(** X4: after [load], [getRoots] lists exactly the node identifiers that no
    listed edge enters, and [getLeaves] exactly those that no listed edge
    leaves; an edge from or to an identifier that is no node counts. *)
Theorem load_roots_leaves (s : DAGStructure) (g : DAG) (x : string) :
  (In x (getRoots (load s g)) <->
   In x (node_ids s) /\ forall u, ~ In (arrow u x) (edges s)) /\
  (In x (getLeaves (load s g)) <->
   In x (node_ids s) /\ forall v, ~ In (arrow x v) (edges s)).
Proof.
  change (load s g) with (DAG_of s).
  split; [apply DAG_of_roots | apply DAG_of_leaves].
Qed.

(* ================================================================= *)
(** ** [toStructure] after [removeNode], and after a second [load] *)

Lemma ids_pointwise (m : JSMap.t DAGNode) :
  map id (JSMap.values m) = JSMap.keys m ->
  forall k n, In (k, n) m -> id n = k.
Proof.
  unfold JSMap.values, JSMap.keys.
  induction m as [| [k0 n0] m IH]; simpl; intros H k n Hin; [destruct Hin |].
  injection H as H1 H2. destruct Hin as [Hin | Hin].
  - now injection Hin as <- <-.
  - now apply IH.
Qed.

Lemma values_delete_by_id (x : string) (m : JSMap.t DAGNode) :
  (forall k n, In (k, n) m -> id n = k) ->
  JSMap.values (JSMap.delete x m) =
  filter (fun n => negb (String.eqb x (id n))) (JSMap.values m).
Proof.
  unfold JSMap.values.
  induction m as [| [k n] m IH]; simpl; intros H; [reflexivity |].
  rewrite (H k n (or_introl eq_refl)).
  destruct (String.eqb x k); simpl; rewrite IH; auto.
Qed.

(** X5: for a structure with pairwise distinct identifiers, [load] followed
    by [removeNode(x)] and [toStructure] gives the nodes other than [x], in
    their order, and exactly the listed edges from a node that touch [x] at
    neither end. *)
Theorem removeNode_after_load (s : DAGStructure) (x : string) :
  NoDup (node_ids s) ->
  let s' := toStructure (removeNode x (load s new_DAG)) in
  nodes s' = filter (fun n => negb (String.eqb x (id n))) (nodes s) /\
  (forall e, In e (edges s') <->
     In (from e) (node_ids s) /\ In e (edges s) /\ from e <> x /\ to e <> x).
Proof.
  intros Hnd s'. fold (DAG_of s) in s'. split.
  - unfold s', toStructure, getNodes. simpl.
    rewrite values_delete_by_id.
    + fold (getNodes (DAG_of s)). now rewrite (DAG_of_getNodes s Hnd).
    + apply ids_pointwise. exact (DAG_of_ids_match s).
  - intros e. unfold s'. rewrite toStructure_edges.
    + assert (Hc : getChildren (removeNode x (DAG_of s)) (from e) =
                if String.eqb x (from e) then []
                else JSSet.delete x (getChildren (DAG_of s) (from e)))
        by apply entry_list_removed.
      rewrite Hc. destruct (String.eqb_spec x (from e)) as [Heq | Hne].
      * split; [intros [] | intros [_ [_ [Hf _]]]; congruence].
      * rewrite set_In_delete, DAG_of_children, edge_eta. intuition congruence.
    + simpl. rewrite scrub_keys, map_keys_delete. apply NoDup_filter.
      destruct (DAG_of_keys_agree s) as [Ho _]. rewrite Ho. apply DAG_of_keys_NoDup.
Qed.

Lemma removeNode_after_load_witness :
  let s' := toStructure (removeNode "d" (load diamond new_DAG)) in
  nodes s' = filter (fun n => negb (String.eqb "d" (id n))) (nodes diamond) /\
  (forall e, In e (edges s') <->
     In (from e) (node_ids diamond) /\ In e (edges diamond) /\ from e <> "d" /\ to e <> "d").
Proof.
  apply (removeNode_after_load diamond "d").
  repeat constructor; simpl; intuition discriminate.
Defined.

Lemma map_ext_eq (V : Type) (m1 m2 : JSMap.t V) :
  JSMap.keys m1 = JSMap.keys m2 ->
  NoDup (JSMap.keys m1) ->
  (forall k, JSMap.get k m1 = JSMap.get k m2) ->
  m1 = m2.
Proof.
  unfold JSMap.keys. revert m2.
  induction m1 as [| [k v] m1 IH]; intros [| [k' v'] m2]; simpl; intros Hk Hnd Hget;
    try discriminate; [reflexivity |].
  injection Hk as <- Hk. inversion Hnd as [| ? ? Hnotin Hnd']; subst.
  pose proof (Hget k) as Hkv. rewrite String.eqb_refl in Hkv. injection Hkv as <-.
  f_equal. apply IH; auto. intros k0.
  destruct (String.eqb_spec k0 k) as [-> | Hne].
  - transitivity (@None V); [| symmetry]; apply map_get_None; unfold JSMap.keys.
    + exact Hnotin.
    + now rewrite <- Hk.
  - specialize (Hget k0). now rewrite (proj2 (String.eqb_neq k0 k) Hne) in Hget.
Qed.

Lemma getChildren_fold_addEdge_exact (es : list DAGEdge) (g : DAG) (u : string) :
  JSMap.has u (outgoingEdges g) = true ->
  getChildren (fold_left (fun acc edge => addEdge (from edge) (to edge) acc) es g) u =
  fold_left (fun acc t => JSSet.add t acc)
            (map to (filter (fun e => String.eqb (from e) u) es)) (getChildren g u).
Proof.
  revert g. induction es as [| e es IH]; simpl; intros g H; [reflexivity |].
  rewrite IH.
  - rewrite getChildren_addEdge.
    destruct (String.eqb_spec (from e) u) as [-> | Hne]; simpl; [| reflexivity].
    now rewrite H.
  - rewrite <- H. apply map_has_same_keys. simpl. apply add_to_entry_keys.
Qed.

Lemma fold_add_fresh (l acc : list string) :
  NoDup (acc ++ l) -> fold_left (fun acc t => JSSet.add t acc) l acc = acc ++ l.
Proof.
  revert acc. induction l as [| a l IH]; simpl; intros acc H; [now rewrite app_nil_r |].
  assert (Ha : ~ In a acc).
  { apply NoDup_remove_2 in H. intros Hin. apply H. apply in_app_iff. now left. }
  unfold JSSet.add at 2. rewrite (proj2 (set_has_false a acc) Ha).
  rewrite IH; rewrite <- app_assoc; [reflexivity | exact H].
Qed.

Lemma exported_edges_from (m : JSMap.t JSSet.t) (k : string) :
  NoDup (JSMap.keys m) ->
  map to (filter (fun e => String.eqb (from e) k)
            (flat_map (fun kv => map (fun t => {| from := fst kv; to := t |}) (snd kv)) m))
  = entry_list k m.
Proof.
  unfold JSMap.keys, entry_list.
  induction m as [| [k0 s0] m IH]; simpl; intros Hnd; [reflexivity |].
  inversion Hnd as [| ? ? Hnotin Hnd']; subst.
  rewrite filter_app, map_app, (IH Hnd').
  destruct (String.eqb_spec k k0) as [-> | Hne].
  - assert (Hnone : JSMap.get k0 m = None) by (now apply map_get_None).
    rewrite Hnone, app_nil_r.
    induction s0 as [| t s0 IHs]; simpl; [reflexivity |].
    rewrite String.eqb_refl. simpl. now rewrite IHs.
  - assert (Hempty : filter (fun e => String.eqb (from e) k)
                       (map (fun t => {| from := k0; to := t |}) s0) = []).
    { induction s0 as [| t s0 IHs]; simpl; [reflexivity |].
      rewrite (proj2 (String.eqb_neq k0 k)) by congruence. exact IHs. }
    now rewrite Hempty.
Qed.

Lemma exported_table (m : JSMap.t DAGNode) :
  (forall k n, In (k, n) m -> id n = k) ->
  map (fun n => (id n, n)) (JSMap.values m) = m.
Proof.
  unfold JSMap.values.
  induction m as [| [k n] m IH]; simpl; intros H; [reflexivity |].
  rewrite (H k n (or_introl eq_refl)). f_equal. apply IH. intros; apply H; now right.
Qed.

(** X6: the structure that [toStructure] gives after [load] is stable: for
    every structure, loading the exported structure again and exporting
    once more gives the same nodes and the same edges in the same order. *)
Theorem export_reload_stable (s : DAGStructure) :
  toStructure (load (toStructure (load s new_DAG)) new_DAG) = toStructure (load s new_DAG).
Proof.
  fold (DAG_of s). set (g := DAG_of s). set (s' := toStructure g). fold (DAG_of s').
  assert (Hpt : forall k n, In (k, n) (nodeMap g) -> id n = k)
    by (apply ids_pointwise; exact (DAG_of_ids_match s)).
  assert (Hnd : NoDup (JSMap.keys (nodeMap g))) by apply DAG_of_keys_NoDup.
  destruct (DAG_of_keys_agree s) as [Ho _]. fold g in Ho.
  assert (Hids : map id (nodes s') = JSMap.keys (nodeMap g)) by exact (DAG_of_ids_match s).
  assert (Hnm : nodeMap (DAG_of s') = nodeMap g).
  { rewrite DAG_of_nodeMap. unfold node_table.
    rewrite fold_set_fresh; [| now rewrite Hids | intros ? _ []].
    simpl. now apply exported_table. }
  destruct (DAG_of_keys_agree s') as [Ho' _].
  assert (Hout : outgoingEdges (DAG_of s') = outgoingEdges g).
  { apply map_ext_eq.
    - now rewrite Ho', Hnm, Ho.
    - now rewrite Ho', Hnm.
    - intros k. destruct (JSMap.get k (outgoingEdges g)) as [sk |] eqn:Ek.
      + assert (Hk : In k (JSMap.keys (outgoingEdges (DAG_of s')))).
        { rewrite Ho', Hnm, <- Ho. now apply map_get_Some_keys in Ek. }
        destruct (JSMap.get k (outgoingEdges (DAG_of s'))) as [sk' |] eqn:Ek';
          [| now apply map_get_None in Ek'].
        f_equal.
        assert (Hc : getChildren (DAG_of s') k = sk') by (unfold getChildren; now rewrite Ek').
        rewrite <- Hc. unfold DAG_of, load.
        rewrite getChildren_fold_addEdge_exact.
        * rewrite getChildren_fold_addNode.
          change (getChildren (clear new_DAG) k) with (@nil string).
          unfold s', toStructure. cbn [edges].
          rewrite exported_edges_from by (now rewrite Ho).
          unfold entry_list. rewrite Ek. apply fold_add_fresh. simpl.
          pose proof (DAG_of_children_NoDup s k) as Hs. fold g in Hs.
          unfold getChildren in Hs. now rewrite Ek in Hs.
        * set (g1 := fold_left (fun acc node => addNode node acc) (nodes s') (clear new_DAG)).
          assert (Hka : keys_agree g1) by (apply keys_agree_fold_addNode, keys_agree_new).
          destruct Hka as [Ho1 _]. rewrite (map_has_same_keys k _ _ Ho1).
          apply map_has_In. unfold g1. rewrite nodeMap_fold_addNode.
          apply fold_set_keys_In. right. rewrite Hids, <- Ho.
          now apply map_get_Some_keys in Ek.
      + apply map_get_None. rewrite Ho', Hnm, <- Ho. now apply map_get_None. }
  unfold toStructure, getNodes. now rewrite Hnm, Hout.
Qed.

(* ================================================================= *)
(** ** Validation: dangling references, orphans and [isValid] *)

Lemma nonempty_or_undefined_list (A : Type) (l : list A) :
  match nonempty_or_undefined l with Some l' => l' | None => [] end = l.
Proof. destruct l; reflexivity. Qed.

Lemma nonempty_or_undefined_None (A : Type) (l : list A) :
  nonempty_or_undefined l = None <-> l = [].
Proof. destruct l; cbv; split; congruence. Qed.

Lemma missing_of_In (s : DAGStructure) (e : DAGEdge) (side : MissingSide) :
  In (e, side) (missing_of (set_of_list (node_ids s)) s) <->
  In e (edges s) /\
  ~ In (match side with MissingFrom => from e | MissingTo => to e end) (node_ids s).
Proof.
  unfold missing_of. rewrite in_flat_map. split.
  - intros [e' [He' Hin]]. apply in_app_iff in Hin. destruct Hin as [Hin | Hin].
    + destruct (JSSet.has (from e') _) eqn:Eh; simpl in Hin; [destruct Hin |].
      destruct Hin as [[= <- <-] | []]. split; [exact He' |].
      apply set_has_false in Eh. now rewrite set_of_list_In in Eh.
    + destruct (JSSet.has (to e') _) eqn:Eh; simpl in Hin; [destruct Hin |].
      destruct Hin as [[= <- <-] | []]. split; [exact He' |].
      apply set_has_false in Eh. now rewrite set_of_list_In in Eh.
  - intros [He Hno]. exists e. split; [exact He |]. apply in_app_iff.
    destruct side.
    + left. rewrite (proj2 (set_has_false (from e) _)); [now left |].
      now rewrite set_of_list_In.
    + right. rewrite (proj2 (set_has_false (to e) _)); [now left |].
      now rewrite set_of_list_In.
Qed.

Lemma missing_of_nil (s : DAGStructure) :
  missing_of (set_of_list (node_ids s)) s = [] <-> no_dangling s.
Proof.
  split.
  - intros Hnil e He. split.
    + destruct (in_dec string_dec (from e) (node_ids s)) as [H | H]; [exact H |].
      exfalso. assert (Hin : In (e, MissingFrom) (missing_of (set_of_list (node_ids s)) s))
        by (apply missing_of_In; now split).
      rewrite Hnil in Hin. destruct Hin.
    + destruct (in_dec string_dec (to e) (node_ids s)) as [H | H]; [exact H |].
      exfalso. assert (Hin : In (e, MissingTo) (missing_of (set_of_list (node_ids s)) s))
        by (apply missing_of_In; now split).
      rewrite Hnil in Hin. destruct Hin.
  - intros Hd. destruct (missing_of _ s) as [| [e side] l] eqn:E; [reflexivity |].
    exfalso. assert (Hin : In (e, side) (missing_of (set_of_list (node_ids s)) s))
      by (rewrite E; now left).
    apply missing_of_In in Hin. destruct Hin as [He Hno]. apply Hno.
    destruct side; apply (Hd e He).
Qed.

(** X7: [validateDAG] returns for every structure; its
    [missingReferences] name on the source side exactly the listed edges
    whose source is no node, and on the destination side exactly those
    whose destination is no node; the field is [undefined] exactly when no
    edge dangles. *)
Theorem validateDAG_missingReferences (s : DAGStructure) :
  exists res,
    validateDAG s = Some res /\
    (forall e, In (e, MissingFrom) (reported_missing res) <->
               In e (edges s) /\ ~ In (from e) (node_ids s)) /\
    (forall e, In (e, MissingTo) (reported_missing res) <->
               In e (edges s) /\ ~ In (to e) (node_ids s)) /\
    (missingReferences res = None <-> no_dangling s).
Proof.
  destruct (findCycles_returns (DAG_of s)) as [cs Hcs].
  unfold validateDAG. rewrite Hcs. eexists. split; [reflexivity |].
  unfold reported_missing. cbn [missingReferences].
  rewrite nonempty_or_undefined_list, nonempty_or_undefined_None.
  split; [intros e; apply (missing_of_In s e MissingFrom) |].
  split; [intros e; apply (missing_of_In s e MissingTo) |].
  apply missing_of_nil.
Qed.

Lemma existsb_false_forall (A : Type) (f : A -> bool) (l : list A) :
  existsb f l = false <-> forall a, In a l -> f a = false.
Proof.
  induction l as [| b l IH]; simpl.
  - split; [intros _ a [] | reflexivity].
  - rewrite orb_false_iff, IH. split.
    + intros [H1 H2] a [<- | Ha]; auto.
    + intros H. split; [apply H; now left | intros a Ha; apply H; now right].
Qed.

(** X8: the [orphanNodes] of [validateDAG] are exactly the identifiers of
    the nodes that no listed edge names as its source or its destination. *)
Theorem validateDAG_orphanNodes (s : DAGStructure) :
  exists res,
    validateDAG s = Some res /\
    forall x, In x (reported_orphans res) <->
              In x (node_ids s) /\
              forall e, In e (edges s) -> from e <> x /\ to e <> x.
Proof.
  destruct (findCycles_returns (DAG_of s)) as [cs Hcs].
  unfold validateDAG. rewrite Hcs. eexists. split; [reflexivity |].
  intros x. unfold reported_orphans. cbn [orphanNodes].
  rewrite nonempty_or_undefined_list. unfold orphans_of, node_ids.
  rewrite !in_map_iff. split.
  - intros [n [<- Hn]]. apply filter_In in Hn. destruct Hn as [Hn Hf].
    apply andb_true_iff in Hf. destruct Hf as [H1 H2].
    apply negb_true_iff in H1, H2.
    split; [now exists n |]. intros e He.
    pose proof (proj1 (existsb_false_forall _ _ _) H1 e He) as H1'.
    pose proof (proj1 (existsb_false_forall _ _ _) H2 e He) as H2'.
    simpl in H1', H2'. apply String.eqb_neq in H1', H2'. tauto.
  - intros [[n [<- Hn]] Hno]. exists n. split; [reflexivity |].
    apply filter_In. split; [exact Hn |]. apply andb_true_iff.
    split; apply negb_true_iff, existsb_false_forall; intros e He; simpl;
      apply String.eqb_neq; apply (Hno e He).
Qed.

(** X9: for every structure, [isValid] is true exactly when no edge dangles
    and the structure is acyclic. *)
Theorem validateDAG_isValid (s : DAGStructure) :
  exists res,
    validateDAG s = Some res /\
    (isValid res = true <-> no_dangling s /\ acyclic s).
Proof.
  destruct (findCycles_returns (DAG_of s)) as [cs Hcs].
  unfold validateDAG. rewrite Hcs. eexists. split; [reflexivity |].
  cbn [isValid]. rewrite andb_true_iff, !is_nil_true, missing_of_nil.
  split.
  - intros [Hd Hnil]. split; [exact Hd |].
    destruct (findCycles_acyclic s Hd) as [cs' [Hcs' Hiff]].
    rewrite Hcs in Hcs'. injection Hcs' as <-. now apply Hiff.
  - intros [Hd Hac]. split; [exact Hd |].
    destruct (findCycles_acyclic s Hd) as [cs' [Hcs' Hiff]].
    rewrite Hcs in Hcs'. injection Hcs' as <-. now apply Hiff.
Qed.

Lemma isAcyclic_registered_spec (s : DAGStructure) :
  exists res,
    validateDAG s = Some res /\
    (isAcyclic res = true <->
     forall v, ~ clos_trans string (registered_edge s) v v).
Proof.
  destruct (validateDAG_isAcyclic s) as [res [cs [Hres [Hcs Hiff]]]].
  exists res. split; [exact Hres |]. rewrite Hiff.
  destruct (findCycles_correct (DAG_of s) cs (DAG_of_keys_agree s)
              (DAG_of_ids_match s) Hcs) as [H1 H2].
  assert (Hrel : forall a b, child_rel (DAG_of s) a b <-> registered_edge s a b).
  { intros a b. unfold child_rel, registered_edge. apply DAG_of_children. }
  split.
  - intros Hnil v Hv. apply (H1 Hnil). exists v.
    apply (clos_trans_incl (registered_edge s)); [apply Hrel | exact Hv].
  - intros Hno. destruct cs as [| c cs]; [reflexivity |].
    exfalso. destruct H2 as [v Hv]; [discriminate |]. apply (Hno v).
    apply (clos_trans_incl (child_rel (DAG_of s))); [apply Hrel | exact Hv].
Qed.

(** X10: for every structure, dangling edges included, [isAcyclic] is true
    exactly when no identifier reaches itself along listed edges whose
    source is a node; a cycle through an identifier that is no node goes
    unreported. *)
Theorem validateDAG_isAcyclic_registered (s : DAGStructure) :
  exists res,
    validateDAG s = Some res /\
    (isAcyclic res = true <->
     forall v, ~ clos_trans string (registered_edge s) v v).
Proof. exact (isAcyclic_registered_spec s). Qed.

(* ================================================================= *)
(** ** Kahn's sort on structures with cycles and on malformed structures *)

Lemma kahn_loop_keeps (s : DAGStructure) (fuel : nat) :
  forall inDegree queue result r,
    Kahn.loop fuel (DAG_of s) inDegree queue result = Some r ->
    incl (result ++ queue) r.
Proof.
  induction fuel as [| fuel IH]; intros inDegree queue result r Hr.
  - destruct queue as [| x rest]; simpl in Hr; [| discriminate].
    injection Hr as <-. rewrite app_nil_r. apply incl_refl.
  - destruct queue as [| x rest]; simpl in Hr.
    + injection Hr as <-. rewrite app_nil_r. apply incl_refl.
    + apply IH in Hr.
      destruct (visit_children_spec (getChildren (DAG_of s) x) (DAG_of_children_NoDup s x)
                  inDegree rest) as [_ A2].
      cbv zeta in A2. rewrite A2 in Hr.
      intros v Hv. apply Hr. rewrite <- app_assoc. simpl.
      apply in_app_iff in Hv. apply in_app_iff. destruct Hv as [Hv | [<- | Hv]].
      * now left.
      * right. now left.
      * right. right. apply in_app_iff. now left.
Qed.

Lemma kahn_loop_bounded (s : DAGStructure) (fuel : nat) :
  forall inDegree queue result,
    kahn_bounded s inDegree queue result ->
    length (node_ids s ++ map to (edges s)) <= length result + fuel ->
    exists r inDegree',
      Kahn.loop fuel (DAG_of s) inDegree queue result = Some r /\
      kahn_bounded s inDegree' [] r.
Proof.
  induction fuel as [| fuel IH]; intros inDegree queue result Hinv Hlen.
  - destruct queue as [| x rest]; simpl; [now exists result, inDegree |].
    exfalso. destruct Hinv as [G1 [_ G3]].
    pose proof (NoDup_incl_length G1 G3) as Hle.
    rewrite length_app in Hle. simpl in Hle. lia.
  - destruct queue as [| x rest]; simpl; [now exists result, inDegree |].
    apply IH.
    + now apply kahn_bounded_step.
    + rewrite (length_app result [x]). simpl. lia.
Qed.

Lemma initial_inDegree_source (s : DAGStructure) (v : string) :
  In v (node_ids s) -> (forall u, ~ In (arrow u v) (edges s)) ->
  In v (Kahn.initial_queue (Kahn.initial_inDegree s)).
Proof.
  intros Hv Hno. unfold Kahn.initial_inDegree.
  set (zeroed := fold_left (fun m node => JSMap.set (id node) 0%Z m) (nodes s) JSMap.empty).
  destruct (zeroed_keys (nodes s) JSMap.empty (NoDup_nil _)) as [Z1 _].
  fold zeroed in Z1.
  destruct (counted_keys (edges s) zeroed Z1) as [C1 _].
  apply initial_queue_In; [exact C1 |].
  rewrite (counted_get (edges s) zeroed v 0%Z) by (now apply zeroed_get).
  replace (filter (fun e => String.eqb (to e) v) (edges s)) with (@nil DAGEdge);
    [reflexivity |].
  symmetry. destruct (filter _ (edges s)) as [| e l] eqn:E; [reflexivity |].
  exfalso. assert (He : In e (filter (fun e => String.eqb (to e) v) (edges s)))
    by (rewrite E; now left).
  apply filter_In in He. destruct He as [He Hto]. apply String.eqb_eq in Hto.
  apply (Hno (from e)). rewrite <- Hto, edge_eta. exact He.
Qed.

(** X11: on a well-formed structure, cycles allowed, [topologicalSort]
    returns without repetition exactly the nodes from which every walk back
    along the edges ends; each of them stands after all its predecessors,
    and no identifier on a cycle is listed. *)
Theorem topologicalSort_cyclic_part (s : DAGStructure) :
  well_formed s ->
  exists r,
    topologicalSort s = Some r /\
    NoDup r /\
    (forall v, In v r <-> In v (node_ids s) /\ Acc (edge_rel s) v) /\
    (forall u v, In (arrow u v) (edges s) -> In v r -> precedes r u v) /\
    (forall v, clos_trans string (edge_rel s) v v -> ~ In v r).
Proof.
  intros Hwf.
  destruct (topologicalSort_spec s Hwf) as [r [Hr [Hnd [Hincl [Hord Hclosed]]]]].
  exists r. split; [exact Hr |]. split; [exact Hnd |].
  assert (Hback : forall n v, In v r -> index_of v r < n -> Acc (edge_rel s) v).
  { induction n as [| n IH]; intros v Hv Hlt; [lia |].
    constructor. intros u Hu. destruct (Hord u v Hu Hv) as [Hin Hidx].
    apply IH; [exact Hin | lia]. }
  split; [| split].
  - intros v. split.
    + intros Hv. split; [now apply Hincl |].
      apply (Hback (S (index_of v r)) v Hv). lia.
    + intros [Hv Hacc]. induction Hacc as [v _ IH].
      apply Hclosed; [exact Hv |]. intros u Hu. apply IH; [exact Hu |].
      destruct Hwf as [_ [_ Hdang]]. apply (Hdang _ Hu).
  - intros u v Huv Hv. destruct (Hord u v Huv Hv) as [Hu Hlt].
    now apply index_lt_precedes.
  - intros v Hcyc Hv.
    destruct (sorted_output_order s r Hord v v Hcyc Hv) as [_ Hlt]. lia.
Qed.

Lemma cycle_with_tail_well_formed : well_formed cycle_with_tail.
Proof.
  split; [| split].
  - repeat constructor; simpl; intuition discriminate.
  - repeat constructor; simpl; intuition discriminate.
  - intros e He. simpl in He.
    repeat (destruct He as [<- | He]; [simpl; tauto |]). destruct He.
Qed.

Lemma topologicalSort_cyclic_part_witness :
  exists r,
    topologicalSort cycle_with_tail = Some r /\
    NoDup r /\
    (forall v, In v r <->
               In v (node_ids cycle_with_tail) /\ Acc (edge_rel cycle_with_tail) v) /\
    (forall u v, In (arrow u v) (edges cycle_with_tail) -> In v r -> precedes r u v) /\
    (forall v, clos_trans string (edge_rel cycle_with_tail) v v -> ~ In v r).
Proof. exact (topologicalSort_cyclic_part cycle_with_tail cycle_with_tail_well_formed). Defined.

(** X12: on every structure, repeated identifiers and dangling edges
    included, [topologicalSort] returns a list without repetition whose
    elements are identifiers of nodes or destinations of edges, and which
    holds every node that no listed edge enters. *)
Theorem topologicalSort_any_structure (s : DAGStructure) :
  exists r,
    topologicalSort s = Some r /\
    NoDup r /\
    incl r (node_ids s ++ map to (edges s)) /\
    (forall v, In v (node_ids s) -> (forall u, ~ In (arrow u v) (edges s)) -> In v r).
Proof.
  unfold topologicalSort, topologicalSort_fuel.
  destruct (kahn_loop_bounded s (length (nodes s) + length (edges s)) _ _ _
              (kahn_bounded_initial s)) as [r [inDegree' [Hr [G1 [_ G3]]]]].
  - unfold node_ids. rewrite length_app, !length_map. simpl. lia.
  - exists r. rewrite app_nil_r in G1, G3.
    split; [exact Hr |]. split; [exact G1 |]. split; [exact G3 |].
    intros v Hv Hno. apply (kahn_loop_keeps s _ _ _ _ _ Hr). simpl.
    now apply initial_inDegree_source.
Qed.

(* ================================================================= *)
(** ** The matcher finds a mapping whenever one exists *)

Lemma degrees_pass_complete (pOut pIn tOut tIn : nat) :
  (pIn = 0 -> pOut = tOut) ->
  (pOut = 0 -> pIn = tIn) ->
  (pIn <> 0 -> pOut <> 0 -> pOut = tOut /\ pIn = tIn) ->
  VF2.degrees_pass pOut pIn tOut tIn = true.
Proof.
  intros H1 H2 H3. unfold VF2.degrees_pass.
  destruct (Nat.eqb_spec pIn 0) as [Ei | Ei], (Nat.eqb_spec pOut 0) as [Eo | Eo];
    cbn [andb negb orb].
  - rewrite <- (H1 Ei), <- (H2 Eo), !Nat.eqb_refl. reflexivity.
  - rewrite <- (H1 Ei), Nat.eqb_refl. reflexivity.
  - rewrite <- (H2 Eo), Nat.eqb_refl. reflexivity.
  - destruct (H3 Ei Eo) as [<- <-]. rewrite !Nat.eqb_refl. reflexivity.
Qed.

Section MatcherComplete.

Variables pattern target : DAGStructure.
Variable M : JSMap.t string.
Hypothesis HM : complete pattern target M.

Local Abbreviation c := (VF2.context_of pattern target).

Lemma complete_value_is_target (p t : string) : In (p, t) M -> In t (VF2.tNodes c).
Proof.
  intros H. destruct HM as [[_ [_ [_ [K4 _]]]] _]. apply K4.
  unfold JSMap.values. change t with (snd (p, t)). now apply in_map.
Qed.

Lemma sub_mapping_fresh_key (m : JSMap.t string) (p p2 t2 : string) :
  sub_mapping m M -> ~ In p (JSMap.keys m) -> JSMap.get p2 m = Some t2 ->
  In (p2, t2) M /\ p <> p2.
Proof.
  intros Hsub Hp H2. split.
  - now apply Hsub, map_get_Some_In.
  - intros ->. apply Hp. now apply map_get_Some_keys in H2.
Qed.

(** The pair a complete mapping gives to an unmapped pattern node passes
    [feasible] against every part of that mapping. *)
Lemma feasible_of_complete (m : JSMap.t string) (p t : string) :
  sub_mapping m M -> ~ In p (JSMap.keys m) -> In (p, t) M ->
  VF2.feasible c m (Some p) t = Ok true.
Proof.
  intros Hsub Hp Hpt.
  pose proof (complete_value_is_target p t Hpt) as Ht.
  destruct HM as [[K1 [K2 [K3 [K4 [K5 K6]]]]] _].
  destruct (K5 p t Hpt) as [[pn [tn [Hpn [Htn Hdata]]]] [D1 [D2 D3]]].
  unfold VF2.feasible. rewrite Hpn, Htn, Hdata. cbn [negb].
  rewrite (degrees_pass_complete _ _ _ _ D1 D2 D3). cbn [negb].
  assert (Hout : forallb (fun p2 =>
                    match JSMap.get p2 m with
                    | Some t2 => entry_has t t2 (outgoing (VF2.tAdj c))
                    | None => true
                    end) (entry_list p (outgoing (VF2.pAdj c))) = true).
  { apply forallb_forall. intros p2 Hp2.
    destruct (JSMap.get p2 m) as [t2 |] eqn:E2; [| reflexivity].
    destruct (sub_mapping_fresh_key m p p2 t2 Hsub Hp E2) as [Hin Hne].
    apply entry_has_In. cbn [VF2.tAdj VF2.context_of]. apply buildAdjacency_out.
    split; [exact Ht |]. split; [exact (complete_value_is_target p2 t2 Hin) |].
    exact (K6 p t p2 t2 Hpt Hin Hne Hp2). }
  assert (Hinc : forallb (fun p1 =>
                    match JSMap.get p1 m with
                    | Some t1 => entry_has t t1 (incoming (VF2.tAdj c))
                    | None => true
                    end) (entry_list p (incoming (VF2.pAdj c))) = true).
  { apply forallb_forall. intros p1 Hp1.
    destruct (JSMap.get p1 m) as [t1 |] eqn:E1; [| reflexivity].
    destruct (sub_mapping_fresh_key m p p1 t1 Hsub Hp E1) as [Hin Hne].
    apply entry_has_In. cbn [VF2.tAdj VF2.context_of]. apply buildAdjacency_in.
    split; [exact (complete_value_is_target p1 t1 Hin) |]. split; [exact Ht |].
    apply (K6 p1 t1 p t Hin Hpt); [congruence |].
    now apply (pattern_adjacency_symmetric pattern target p1 p). }
  rewrite Hout, Hinc. reflexivity.
Qed.

Lemma sub_mapping_commit (m : JSMap.t string) (p t : string) :
  sub_mapping m M -> ~ In p (JSMap.keys m) -> In (p, t) M ->
  sub_mapping (JSMap.set p t m) M.
Proof.
  intros Hsub Hp Hpt p' t' Hin. rewrite (map_set_fresh _ p t m Hp) in Hin.
  apply in_app_iff in Hin. destruct Hin as [Hin | [[= <- <-] | []]];
    [now apply Hsub | exact Hpt].
Qed.

Lemma sub_mapping_unused (m : JSMap.t string) (p t : string) :
  sub_mapping m M -> ~ In p (JSMap.keys m) -> In (p, t) M ->
  ~ In t (JSMap.values m).
Proof.
  intros Hsub Hp Hpt Hin. destruct HM as [[_ [_ [K3 _]]] _].
  unfold JSMap.values in Hin. apply in_map_iff in Hin.
  destruct Hin as [[p' t'] [Ht' Hin]]. simpl in Ht'. subst t'.
  assert (p' = p) by (apply (values_injective M p' p t K3); [now apply Hsub | exact Hpt]).
  subst p'. apply Hp. unfold JSMap.keys. change p with (fst (p, t)). now apply in_map.
Qed.

(** The loop over the targets does not give up while the target that the
    complete mapping assigns is still to come. *)
Lemma try_targets_complete (rec : VF2.state -> outcome (bool * VF2.state))
    (p t : string) (used : JSSet.t) (m : JSMap.t string) :
  (forall st b st', rec st = Ok (b, st') -> consistent pattern target (VF2.mapping st) ->
     if b then complete pattern target (VF2.mapping st')
     else VF2.mapping st' = VF2.mapping st) ->
  (forall st st', consistent pattern target (VF2.mapping st) ->
     sub_mapping (VF2.mapping st) M -> rec st <> Ok (false, st')) ->
  consistent pattern target m -> sub_mapping m M ->
  In p (VF2.pNodes c) -> ~ In p (JSMap.keys m) -> In (p, t) M ->
  JSSet.has t used = false ->
  (forall t', JSSet.has t' used = false -> ~ In t' (JSMap.values m)) ->
  forall ts st st',
    VF2.mapping st = m -> In t ts -> incl ts (VF2.tNodes c) ->
    VF2.try_targets c rec (Some p) used ts st <> Ok (false, st').
Proof.
  intros Hsound Hrec Hcons Hsub Hp Hfresh Hpt Hused Hfree.
  induction ts as [| t0 rest IH]; intros st st' Hm Hin Hts; [destruct Hin |].
  assert (Hrest : incl rest (VF2.tNodes c)) by (intros x Hx; apply Hts; now right).
  cbn [VF2.try_targets].
  destruct (JSSet.has t0 used) eqn:Eu.
  - apply IH; [exact Hm | | exact Hrest].
    destruct Hin as [-> | Hin]; [congruence | exact Hin].
  - rewrite Hm.
    destruct (VF2.feasible c m (Some p) t0) as [[|] | |] eqn:Ef; try discriminate.
    + assert (Hc' : consistent pattern target (VF2.mapping (VF2.commit p t0 st))).
      { cbn [VF2.commit VF2.mapping]. rewrite Hm.
        apply consistent_commit; try assumption.
        - apply Hts. now left.
        - now apply Hfree. }
      destruct (rec (VF2.commit p t0 st)) as [[[|] st1] | |] eqn:Er; try discriminate.
      pose proof (Hsound _ _ _ Er Hc') as Hback. cbn beta iota in Hback.
      destruct Hin as [-> | Hin].
      * exfalso. apply (Hrec (VF2.commit p t st) st1 Hc'); [| exact Er].
        cbn [VF2.commit VF2.mapping]. rewrite Hm. now apply sub_mapping_commit.
      * apply IH; [| exact Hin | exact Hrest].
        cbn [VF2.undo VF2.mapping]. rewrite Hback. cbn [VF2.commit VF2.mapping].
        rewrite Hm. now apply map_delete_set_fresh.
    + destruct Hin as [-> | Hin].
      * rewrite (feasible_of_complete m p t Hsub Hfresh Hpt) in Ef. discriminate.
      * apply IH; [exact Hm | exact Hin | exact Hrest].
Qed.

Lemma search_complete (fuel : nat) :
  forall st st',
    consistent pattern target (VF2.mapping st) ->
    sub_mapping (VF2.mapping st) M ->
    VF2.search fuel c st <> Ok (false, st').
Proof.
  induction fuel as [| fuel IH]; intros st st' Hcons Hsub; [discriminate |].
  cbn [VF2.search].
  destruct (Nat.eqb_spec (JSMap.size (VF2.mapping st)) (length (VF2.pNodes c)))
    as [Hsz | Hsz]; [discriminate |].
  destruct (complete_total pattern target M HM) as [Hnd Htot].
  destruct (find_unmapped_exists pattern target Hnd _ Hcons Hsz) as [p Hfind].
  rewrite Hfind. destruct (find_unmapped pattern target _ _ Hfind) as [Hp Hfresh].
  assert (Hex : exists t, In (p, t) M).
  { pose proof (Htot p Hp) as Hk. unfold JSMap.keys in Hk. apply in_map_iff in Hk.
    destruct Hk as [[p' t] [Hp' Hin]]. simpl in Hp'. subst p'. now exists t. }
  destruct Hex as [t Hpt].
  pose proof (sub_mapping_unused _ p t Hsub Hfresh Hpt) as Hunused.
  apply (try_targets_complete (VF2.search fuel c) p t _ (VF2.mapping st)); try assumption.
  - intros st0 b st0' H0 Hc0. exact (search_sound pattern target fuel st0 b st0' H0 Hc0).
  - apply set_has_false. now rewrite set_of_list_In.
  - intros t' Ht'. apply set_has_false in Ht'. now rewrite set_of_list_In in Ht'.
  - reflexivity.
  - exact (complete_value_is_target p t Hpt).
  - apply incl_refl.
Qed.

Lemma vf2_fuel_complete (fuel : nat) : vf2_fuel fuel pattern target <> Ok None.
Proof.
  unfold vf2_fuel.
  destruct (Nat.eqb _ 0); [discriminate |].
  destruct (Nat.ltb_spec (length (VF2.tNodes c)) (length (VF2.pNodes c))) as [Hlt | Hge].
  - exfalso. destruct HM as [[_ [_ [K3 [K4 _]]]] Hsz].
    pose proof (NoDup_incl_length K3 K4) as Hle.
    unfold JSMap.values in Hle. rewrite length_map in Hle.
    unfold JSMap.size in Hsz. lia.
  - destruct (VF2.search fuel c VF2.init) as [[[|] st] | |] eqn:Es; try discriminate.
    exfalso. apply (search_complete fuel VF2.init st); [| | exact Es].
    + apply consistent_empty.
    + intros p t [].
Qed.

End MatcherComplete.

Lemma find_snoc (A : Type) (f : A -> bool) (l : list A) (a : A) :
  find f (l ++ [a]) =
  match find f l with Some x => Some x | None => if f a then Some a else None end.
Proof.
  induction l as [| b l IH]; simpl; [reflexivity |].
  destruct (f b); [reflexivity | exact IH].
Qed.

Lemma node_table_fold_last (ns : list DAGNode) (m : JSMap.t DAGNode) (x : string) :
  JSMap.get x (fold_left (fun m n => JSMap.set (id n) n m) ns m) =
  match find (fun n => String.eqb (id n) x) (rev ns) with
  | Some n => Some n
  | None => JSMap.get x m
  end.
Proof.
  revert m. induction ns as [| a ns IH]; intros m; [reflexivity |].
  simpl. rewrite IH, find_snoc.
  destruct (find _ (rev ns)); [reflexivity |].
  destruct (String.eqb_spec (id a) x) as [<- | Hne].
  - apply map_get_set_eq.
  - now apply map_get_set_neq.
Qed.

(** The matcher's table holds for every identifier the last listed node
    that carries it. *)
Lemma node_table_node_of (s : DAGStructure) (x : string) :
  JSMap.get x (node_table s) = node_of s x.
Proof.
  unfold node_table, node_of. rewrite node_table_fold_last.
  now destruct (find _ (rev (nodes s))).
Qed.

(** On a pattern with distinct identifiers, the mappings that the search
    can end with are the matchings of the two structures. *)
Lemma complete_matching (pattern target : DAGStructure) (M : JSMap.t string) :
  NoDup (node_ids pattern) ->
  (complete pattern target M <-> matching pattern target M).
Proof.
  intros Hnd. split.
  - intros Hc. destruct (complete_total pattern target M Hc) as [_ Htot].
    destruct Hc as [[K1 [K2 [K3 [K4 [K5 K6]]]]] _].
    split; [exact K1 |]. split; [intros p; split; [apply K2 | apply Htot] |].
    split; [exact K3 |]. split; [exact K4 |]. split.
    + intros p t Hin. destruct (K5 p t Hin) as [[pn [tn [Hp [Ht Hd]]]] Hdeg].
      cbn [VF2.pNodeMap VF2.tNodeMap VF2.context_of] in Hp, Ht.
      rewrite node_table_node_of in Hp, Ht.
      split; [now exists pn, tn | now apply degree_condition_rule].
    + intros p1 t1 p2 t2 H1 H2 Hne He. apply (K6 p1 t1 p2 t2 H1 H2 Hne).
      cbn [VF2.pAdj VF2.context_of]. apply buildAdjacency_out.
      split; [| split; [| exact He]]; apply K2.
      * unfold JSMap.keys. change p1 with (fst (p1, t1)). now apply in_map.
      * unfold JSMap.keys. change p2 with (fst (p2, t2)). now apply in_map.
  - intros [G1 [G2 [G3 [G4 [G5 G6]]]]]. split.
    + split; [exact G1 |]. split; [intros p Hp; now apply G2 |].
      split; [exact G3 |]. split; [exact G4 |]. split.
      * intros p t Hin. destruct (G5 p t Hin) as [[pn [tn [Hp [Ht Hd]]]] Hdeg].
        split; [| now apply degree_condition_rule].
        exists pn, tn. cbn [VF2.pNodeMap VF2.tNodeMap VF2.context_of].
        rewrite !node_table_node_of. tauto.
      * intros p1 t1 p2 t2 H1 H2 Hne Hadj. apply (G6 p1 t1 p2 t2 H1 H2 Hne).
        cbn [VF2.pAdj VF2.context_of] in Hadj. apply buildAdjacency_out in Hadj. tauto.
    + unfold JSMap.size. cbn [VF2.pNodes VF2.context_of].
      rewrite <- (length_map fst M). apply Nat.le_antisymm.
      * apply NoDup_incl_length; [exact G1 | intros p Hp; now apply G2].
      * apply NoDup_incl_length; [exact Hnd | intros p Hp; now apply G2].
Qed.

(** X13: on a pattern with pairwise distinct identifiers and on payloads
    whose comparison does not raise, the matcher returns; a mapping it
    returns is a matching of the two structures (distinct target nodes for
    all the pattern nodes, matching payloads, the degree rule, and a listed
    target edge for every listed pattern edge between two different nodes),
    and it answers [null] exactly when the structures have no matching;
    [isSubgraphIsomorphic] tells the two answers apart. *)
Theorem vf2_decides (pattern target : DAGStructure) :
  NoDup (node_ids pattern) ->
  (forall pn tn, In pn (nodes pattern) -> In tn (nodes target) ->
     dataMatches (data pn) (data tn) <> TypeError) ->
  exists r,
    vf2SubgraphIsomorphism pattern target = Ok r /\
    (forall M, r = Some M -> matching pattern target M) /\
    (r = None <-> forall M, ~ matching pattern target M) /\
    isSubgraphIsomorphic pattern target =
      Ok (match r with Some _ => true | None => false end).
Proof.
  intros Hnd Hpay.
  destruct (vf2_returns_on_distinct_ids pattern target Hnd Hpay) as [r Hr].
  assert (Hsound : forall M, r = Some M -> matching pattern target M).
  { intros M ->. apply (complete_matching pattern target M Hnd).
    destruct (vf2_fuel_result _ pattern target M Hr) as [[Hnil ->] | Hc]; [| exact Hc].
    split; [apply consistent_empty |].
    cbn [VF2.pNodes VF2.context_of]. unfold node_ids. rewrite Hnil. reflexivity. }
  exists r. split; [exact Hr |]. split; [exact Hsound |]. split.
  - split.
    + intros -> M HM. apply (complete_matching pattern target M Hnd) in HM.
      exact (vf2_fuel_complete pattern target M HM _ Hr).
    + intros Hno. destruct r as [M |]; [| reflexivity]. exfalso.
      exact (Hno M (Hsound M eq_refl)).
  - unfold isSubgraphIsomorphic. rewrite Hr. now destruct r.
Qed.

Lemma vf2_decides_witness :
  exists r,
    vf2SubgraphIsomorphism single_edge diamond = Ok r /\
    (forall M, r = Some M -> matching single_edge diamond M) /\
    (r = None <-> forall M, ~ matching single_edge diamond M) /\
    isSubgraphIsomorphic single_edge diamond =
      Ok (match r with Some _ => true | None => false end).
Proof.
  apply (vf2_decides single_edge diamond).
  - repeat constructor; simpl; intuition discriminate.
  - intros pn tn Hp Ht. simpl in Hp, Ht.
    destruct Hp as [<- | [<- | []]];
      destruct Ht as [<- | [<- | [<- | [<- | []]]]]; discriminate.
Defined.

(* ================================================================= *)
(** ** Payload comparison *)

(** X14: [dataMatches] answers [true] exactly for two equal primitive values
    other than [NaN] and for two objects that are the same object or that
    [JSON.stringify] serializes alike without raising; it raises exactly
    for two different objects one of which [JSON.stringify] cannot
    serialize; and it does not depend on the order of its arguments. *)
Theorem dataMatches_characterised (a b : JSValue) :
  (dataMatches a b = Ok true <->
   (a = b /\ a <> VNaN) \/
   (exists r j r' j', a = VObj r j /\ b = VObj r' j' /\
                      (r = r' \/ (j = j' /\ j <> Raises)))) /\
  (dataMatches a b = TypeError <->
   exists r j r' j', a = VObj r j /\ b = VObj r' j' /\ r <> r' /\
                     (j = Raises \/ j' = Raises)) /\
  dataMatches a b = dataMatches b a.
Proof.
  split; [| split].
  - split.
    + intros H. destruct (dataMatches_deep_equal a b H) as [<- | Hobj]; [| now right].
      left. split; [reflexivity |]. intros ->. discriminate H.
    + intros [[<- Hn] | [r [j [r' [j' [-> [-> Hor]]]]]]].
      * destruct a; unfold dataMatches; simpl; try reflexivity; try congruence.
        -- now rewrite Bool.eqb_reflx.
        -- now rewrite Z.eqb_refl.
        -- now rewrite String.eqb_refl.
        -- now rewrite Nat.eqb_refl.
      * unfold dataMatches. simpl.
        destruct (Nat.eqb_spec r r'); [reflexivity |].
        destruct Hor as [-> | [-> Hj]]; [congruence |].
        destruct j'; simpl; [now rewrite String.eqb_refl | reflexivity | congruence].
  - split.
    + intros H. destruct a, b; unfold dataMatches in H; simpl in H; try discriminate;
        try (destruct (_ =? _)%Z; discriminate);
        try (destruct (String.eqb _ _); discriminate);
        try (destruct (Bool.eqb _ _); discriminate).
      exists ref, json, ref0, json0. split; [reflexivity |]. split; [reflexivity |].
      destruct (Nat.eqb_spec ref ref0) as [E | E]; [discriminate |].
      split; [exact E |]. simpl in H.
      destruct json, json0; try discriminate; auto.
    + intros [r [j [r' [j' [-> [-> [Hne Hor]]]]]]].
      unfold dataMatches. simpl.
      destruct (Nat.eqb_spec r r'); [congruence |].
      destruct Hor as [-> | ->]; [reflexivity | now destruct j].
  - destruct a, b; unfold dataMatches; simpl; try reflexivity.
    + now destruct b0, b.
    + now rewrite Z.eqb_sym.
    + now rewrite String.eqb_sym.
    + rewrite Nat.eqb_sym. destruct (Nat.eqb ref0 ref); [reflexivity |].
      destruct json, json0; simpl; try reflexivity. now rewrite String.eqb_sym.
Qed.

(* ================================================================= *)
(** ** Edges that name a missing node *)

Lemma edge_step_filter (ids : JSSet.t) (es : list DAGEdge) (adj : Adjacency) :
  fold_left (edge_step ids)
    (filter (fun e => JSSet.has (from e) ids && JSSet.has (to e) ids) es) adj
  = fold_left (edge_step ids) es adj.
Proof.
  revert adj. induction es as [| e es IH]; intros adj; [reflexivity |].
  simpl. destruct (JSSet.has (from e) ids && JSSet.has (to e) ids) eqn:E.
  - simpl. apply IH.
  - rewrite IH. unfold edge_step at 3. now rewrite E.
Qed.

Lemma buildAdjacency_without_dangling (s : DAGStructure) :
  buildAdjacency (without_dangling s) = buildAdjacency s.
Proof. unfold buildAdjacency, without_dangling. simpl. apply edge_step_filter. Qed.

(** X15: the matcher and the adjacency index it works on do not look at
    edges that name an identifier which is no node: removing them from the
    pattern and from the target changes neither the index nor the answer. *)
Theorem vf2_ignores_dangling_edges (pattern target : DAGStructure) :
  buildAdjacency (without_dangling pattern) = buildAdjacency pattern /\
  vf2SubgraphIsomorphism (without_dangling pattern) (without_dangling target)
  = vf2SubgraphIsomorphism pattern target /\
  no_dangling (without_dangling pattern).
Proof.
  split; [apply buildAdjacency_without_dangling |]. split.
  - unfold vf2SubgraphIsomorphism, vf2_fuel, VF2.context_of.
    rewrite !buildAdjacency_without_dangling. reflexivity.
  - intros e He. unfold without_dangling in He. simpl in He.
    apply filter_In in He. destruct He as [_ He]. apply andb_true_iff in He.
    destruct He as [H1 H2]. apply set_has_In in H1, H2.
    rewrite set_of_list_In in H1, H2. now split.
Qed.

(* ================================================================= *)
(** ** Breadth-first traversal *)

Lemma set_has_add (x y : string) (s : JSSet.t) :
  JSSet.has y (JSSet.add x s) = String.eqb y x || JSSet.has y s.
Proof.
  destruct (JSSet.has y (JSSet.add x s)) eqn:E.
  - apply set_has_In, set_In_add in E. symmetry. apply orb_true_iff.
    destruct E as [-> | E]; [left; apply String.eqb_refl | right; now apply set_has_In].
  - apply set_has_false in E. symmetry. apply orb_false_iff. split.
    + apply String.eqb_neq. intros ->. apply E, set_In_add. now left.
    + apply set_has_false. intros H. apply E, set_In_add. now right.
Qed.

Lemma set_add_fresh (x : string) (s : JSSet.t) :
  JSSet.has x s = false -> JSSet.add x s = s ++ [x].
Proof. intros H. unfold JSSet.add. now rewrite H. Qed.

Lemma enqueue_children_filter (visited : JSSet.t) (children queue : list string) :
  Bfs.enqueue_children visited children queue =
  queue ++ filter (fun c => negb (JSSet.has c visited)) children.
Proof.
  unfold Bfs.enqueue_children. revert queue.
  induction children as [| c cs IH]; intros queue; simpl; [now rewrite app_nil_r |].
  rewrite IH. destruct (negb (JSSet.has c visited)); [| reflexivity].
  now rewrite <- app_assoc.
Qed.

Lemma potential_visit (m : JSMap.t JSSet.t) (x : string) (visited : JSSet.t) :
  NoDup (JSMap.keys m) -> JSSet.has x visited = false ->
  length (flat_map snd
            (filter (fun kv => negb (JSSet.has (fst kv) (JSSet.add x visited))) m))
  + length (entry_list x m)
  = length (flat_map snd (filter (fun kv => negb (JSSet.has (fst kv) visited)) m)).
Proof.
  intros Hnd Hx. induction m as [| [k cs] m IH]; [reflexivity |].
  simpl in Hnd. inversion Hnd as [| ? ? Hk Hnd']; subst.
  unfold entry_list. cbn [JSMap.get filter fst].
  rewrite set_has_add. destruct (String.eqb_spec x k) as [-> | Hne].
  - rewrite String.eqb_refl, Hx. cbn [orb negb flat_map snd].
    rewrite length_app.
    assert (Hsame : filter (fun kv : string * JSSet.t =>
                       negb (JSSet.has (fst kv) (JSSet.add k visited))) m
                    = filter (fun kv => negb (JSSet.has (fst kv) visited)) m).
    { apply filter_ext_in. intros [k' cs'] Hin. cbn [fst]. rewrite set_has_add.
      destruct (String.eqb_spec k' k) as [-> | _]; [| reflexivity].
      exfalso. apply Hk. unfold JSMap.keys. change k with (fst (k, cs')). now apply in_map. }
    rewrite Hsame. lia.
  - assert (Hkx : String.eqb k x = false) by (apply String.eqb_neq; congruence).
    rewrite Hkx. cbn [orb].
    specialize (IH Hnd'). unfold entry_list in IH.
    destruct (negb (JSSet.has k visited)); cbn [flat_map snd]; [rewrite !length_app |]; lia.
Qed.

Lemma before_app (l l' : list string) (u v : string) :
  before l u v -> In v l -> before (l ++ l') u v.
Proof.
  intros [Hu Hlt] Hv. split; [apply in_app_iff; now left |].
  now rewrite !index_of_app_in.
Qed.

Lemma before_snoc (l : list string) (u v : string) :
  In u l -> ~ In v l -> before (l ++ [v]) u v.
Proof.
  intros Hu Hv. split; [apply in_app_iff; now left |].
  rewrite (index_of_app_in u l [v] Hu), (index_of_app_notin v l [v] Hv).
  pose proof (index_of_lt u l Hu). lia.
Qed.

Lemma before_precedes (l : list string) (u v : string) :
  before l u v -> In v l -> precedes l u v.
Proof. intros [Hu Hlt] Hv. now apply index_lt_precedes. Qed.

Section BreadthFirst.

Variable g : DAG.
Hypothesis Hkeys : NoDup (JSMap.keys (outgoingEdges g)).
Variable starts : list string.

Lemma bfs_skip (visited : JSSet.t) (x : string) (rest result : list string) :
  bfs_inv g starts visited (x :: rest) result ->
  JSSet.has x visited = true ->
  bfs_inv g starts visited rest result.
Proof.
  intros [I1 [I2 [I3 [I4 [I5 [I6 I7]]]]]] Hx.
  apply set_has_In in Hx. rewrite I1 in Hx.
  assert (Hsub : forall y, In y (result ++ x :: rest) -> In y (result ++ rest)).
  { intros y Hy. apply in_app_iff in Hy. apply in_app_iff.
    destruct Hy as [Hy | [<- | Hy]]; auto. }
  split; [exact I1 |]. split; [exact I2 |]. split; [| split; [| split; [| split]]].
  - intros y Hy. apply I3. apply in_app_iff in Hy. apply in_app_iff.
    destruct Hy as [Hy | Hy]; [now left | right; now right].
  - intros y Hy. apply Hsub. now apply I4.
  - intros a b Ha Hab. apply Hsub. now apply (I5 a b).
  - exact I6.
  - intros y Hy. apply I7. now right.
Qed.

Lemma bfs_visit (visited : JSSet.t) (x : string) (rest result : list string) :
  bfs_inv g starts visited (x :: rest) result ->
  JSSet.has x visited = false ->
  bfs_inv g starts (JSSet.add x visited)
    (Bfs.enqueue_children (JSSet.add x visited) (getChildren g x) rest)
    (result ++ [x]).
Proof.
  intros [I1 [I2 [I3 [I4 [I5 [I6 I7]]]]]] Hx.
  rewrite enqueue_children_filter, (set_add_fresh x visited Hx).
  apply set_has_false in Hx. subst visited.
  assert (Hreach : reaches g starts x).
  { apply I3. apply in_app_iff. right. now left. }
  split; [reflexivity |]. split; [now apply NoDup_snoc |].
  split; [| split; [| split; [| split]]].
  - intros y Hy. rewrite <- app_assoc in Hy. simpl in Hy.
    apply in_app_iff in Hy. destruct Hy as [Hy | [<- | Hy]].
    + apply I3. apply in_app_iff. now left.
    + exact Hreach.
    + apply in_app_iff in Hy. destruct Hy as [Hy | Hy].
      * apply I3. apply in_app_iff. right. now right.
      * apply filter_In in Hy. destruct Hy as [Hy _].
        destruct Hreach as [s0 [Hs0 Hpath]]. exists s0. split; [exact Hs0 |].
        apply rt_trans with x; [exact Hpath | now apply rt_step].
  - intros y Hy. apply I4 in Hy. rewrite <- app_assoc. simpl.
    apply in_app_iff in Hy. apply in_app_iff.
    destruct Hy as [Hy | [<- | Hy]]; [now left | right; now left |].
    right. right. apply in_app_iff. now left.
  - intros a b Ha Hab. apply in_app_iff in Ha. destruct Ha as [Ha | [<- | []]].
    + pose proof (I5 a b Ha Hab) as Hb. rewrite <- app_assoc. simpl.
      apply in_app_iff in Hb. apply in_app_iff.
      destruct Hb as [Hb | [<- | Hb]]; [now left | right; now left |].
      right. right. apply in_app_iff. now left.
    + destruct (JSSet.has b (result ++ [x])) eqn:Eb.
      * apply set_has_In in Eb. apply in_app_iff. now left.
      * apply in_app_iff. right. apply in_app_iff. right.
        apply filter_In. split; [exact Hab | now rewrite Eb].
  - intros y Hy. apply in_app_iff in Hy. destruct Hy as [Hy | [<- | []]].
    + destruct (I6 y Hy) as [Hs | [u [Hu Hb]]]; [now left |].
      right. exists u. split; [exact Hu | now apply before_app].
    + destruct (I7 x (or_introl eq_refl)) as [Hs | [u [Hu Hin]]]; [now left |].
      right. exists u. split; [exact Hu | now apply before_snoc].
  - intros y Hy. apply in_app_iff in Hy. destruct Hy as [Hy | Hy].
    + destruct (I7 y (or_intror Hy)) as [Hs | [u [Hu Hin]]]; [now left |].
      right. exists u. split; [exact Hu |]. apply in_app_iff. now left.
    + apply filter_In in Hy. destruct Hy as [Hy _]. right. exists x.
      split; [exact Hy |]. apply in_app_iff. right. now left.
Qed.

Lemma bfs_potential_visit (visited : JSSet.t) (x : string) (rest : list string) :
  JSSet.has x visited = false ->
  bfs_potential g (JSSet.add x visited)
    (Bfs.enqueue_children (JSSet.add x visited) (getChildren g x) rest)
  < bfs_potential g visited (x :: rest).
Proof.
  intros Hx. unfold bfs_potential. rewrite enqueue_children_filter, length_app.
  pose proof (potential_visit (outgoingEdges g) x visited Hkeys Hx) as Hp.
  pose proof (List.filter_length_le
                (fun c => negb (JSSet.has c (JSSet.add x visited))) (getChildren g x)) as Hle.
  change (getChildren g x) with (entry_list x (outgoingEdges g)) in Hle |- *.
  simpl. lia.
Qed.

Lemma bfs_loop_spec (fuel : nat) :
  forall visited queue result,
    bfs_inv g starts visited queue result ->
    bfs_potential g visited queue <= fuel ->
    exists r, Bfs.loop fuel g visited queue result = Some r /\
              bfs_inv g starts r [] r.
Proof.
  induction fuel as [| fuel IH]; intros visited queue result Hinv Hpot.
  - destruct queue as [| x rest].
    + exists result. split; [reflexivity |]. destruct Hinv as [<- H]. now split.
    + unfold bfs_potential in Hpot. simpl in Hpot. lia.
  - destruct queue as [| x rest].
    + exists result. split; [reflexivity |]. destruct Hinv as [<- H]. now split.
    + cbn [Bfs.loop]. destruct (JSSet.has x visited) eqn:Ex.
      * apply IH; [now apply (bfs_skip visited x) |].
        unfold bfs_potential in *. simpl in Hpot. lia.
      * apply IH; [now apply bfs_visit |].
        pose proof (bfs_potential_visit visited x rest Ex). lia.
Qed.

Lemma bfs_closed (r : list string) (x y : string) :
  bfs_inv g starts r [] r ->
  clos_refl_trans string (child_rel g) x y -> In x r -> In y r.
Proof.
  intros [_ [_ [_ [_ [I5 _]]]]] Hpath. apply clos_rt_rt1n in Hpath.
  induction Hpath as [x | x z y Hxz _ IH]; intros Hx; [exact Hx |].
  apply IH. pose proof (I5 x z Hx Hxz) as Hz. now rewrite app_nil_r in Hz.
Qed.

End BreadthFirst.

Lemma DAG_of_outgoing_NoDup (s : DAGStructure) :
  NoDup (JSMap.keys (outgoingEdges (DAG_of s))).
Proof.
  destruct (DAG_of_keys_agree s) as [-> _]. apply DAG_of_keys_NoDup.
Qed.

Lemma DAG_of_reach (s : DAGStructure) (x y : string) :
  clos_refl_trans string (child_rel (DAG_of s)) x y <->
  clos_refl_trans string (registered_edge s) x y.
Proof.
  assert (Hrel : forall a b, child_rel (DAG_of s) a b <-> registered_edge s a b).
  { intros a b. unfold child_rel, registered_edge. apply DAG_of_children. }
  split; induction 1 as [a b H | a | a b d _ IH1 _ IH2].
  - apply rt_step. now apply Hrel.
  - apply rt_refl.
  - now apply rt_trans with b.
  - apply rt_step. now apply Hrel.
  - apply rt_refl.
  - now apply rt_trans with b.
Qed.

Lemma bfsFromRoots_spec (s : DAGStructure) (startIds : option (list string)) :
  exists r,
    bfsFromRoots s startIds = Some r /\
    NoDup r /\
    (forall x, In x r <->
       exists s0, In s0 (start_ids (DAG_of s) startIds) /\
                  clos_refl_trans string (registered_edge s) s0 x) /\
    (forall x, In x r ->
       In x (start_ids (DAG_of s) startIds) \/
       exists u, registered_edge s u x /\ precedes r u x).
Proof.
  unfold bfsFromRoots, bfsFromRoots_fuel. cbv zeta.
  set (g := DAG_of s). set (starts := start_ids g startIds).
  destruct (bfs_loop_spec g (DAG_of_outgoing_NoDup s) starts
              (length starts + length (flat_map snd (outgoingEdges g)))
              JSSet.empty starts []) as [r [Hr Hinv]].
  - split; [reflexivity |]. split; [constructor |].
    split; [| split; [| split; [| split]]].
    + intros x Hx. exists x. split; [exact Hx | apply rt_refl].
    + apply incl_refl.
    + intros x y [].
    + intros x [].
    + intros x Hx. now left.
  - unfold bfs_potential. apply Nat.add_le_mono_l.
    rewrite !length_flat_map. 
    assert (Hfil : forall (m : JSMap.t JSSet.t),
              list_sum (map (fun kv => length (snd kv))
                          (filter (fun kv => negb (JSSet.has (fst kv) JSSet.empty)) m))
              <= list_sum (map (fun kv => length (snd kv)) m)).
    { induction m as [| kv m IHm]; [simpl; lia |].
      unfold JSSet.has, JSSet.empty in *. simpl in *. lia. }
    apply Hfil.
  - exists r. split; [exact Hr |].
    pose proof Hinv as [_ [I2 [I3 [I4 [_ [I6 _]]]]]].
    rewrite app_nil_r in I3, I4.
    split; [exact I2 |]. split.
    + intros x. split.
      * intros Hx. destruct (I3 x Hx) as [s0 [Hs0 Hpath]].
        exists s0. split; [exact Hs0 | now apply DAG_of_reach].
      * intros [s0 [Hs0 Hpath]].
        apply (bfs_closed g starts r s0 x Hinv); [now apply DAG_of_reach | now apply I4].
    + intros x Hx. destruct (I6 x Hx) as [Hs | [u [Hu Hb]]]; [now left |].
      right. exists u. split; [now apply DAG_of_children | now apply before_precedes].
Qed.

(** X16: [bfsFromRoots] returns for every structure and every choice of
    start identifiers (the roots of the loaded store by default); the result
    lists without repetition exactly the identifiers that are start
    identifiers or are reached from one along listed edges whose source is
    a node, and each of them is a start identifier or stands after one of
    its parents. *)
Theorem bfsFromRoots_reachable (s : DAGStructure) (startIds : option (list string)) :
  exists r,
    bfsFromRoots s startIds = Some r /\
    NoDup r /\
    (forall x, In x r <->
       exists s0, In s0 (start_ids (DAG_of s) startIds) /\
                  clos_refl_trans string (registered_edge s) s0 x) /\
    (forall x, In x r ->
       In x (start_ids (DAG_of s) startIds) \/
       exists u, registered_edge s u x /\ precedes r u x).
Proof. exact (bfsFromRoots_spec s startIds). Qed.

(* ================================================================= *)
(** ** Depth-first traversal in post-order *)

Section PostOrderSpec.

Variable g : DAG.

Import PostOrder.

Lemma unmarked_mono (v v' : JSSet.t) :
  incl v v' -> unmarked g v' <= unmarked g v.
Proof.
  intros H. apply filter_length_mono. intros x _ Hx.
  apply negb_true_iff in Hx. apply negb_true_iff.
  apply set_has_false in Hx. apply set_has_false. auto.
Qed.

Lemma unmarked_mark (x : string) (v : JSSet.t) :
  In x (JSMap.keys (outgoingEdges g)) -> ~ In x v ->
  unmarked g (JSSet.add x v) < unmarked g v.
Proof.
  intros Hk Hx. apply filter_length_strict with x; auto.
  - intros y _ Hy. apply negb_true_iff in Hy. apply negb_true_iff.
    apply set_has_false in Hy. apply set_has_false.
    intros H. apply Hy. apply set_In_add. now right.
  - apply negb_true_iff. now apply set_has_false.
  - apply negb_false_iff. apply set_has_In. apply set_In_add. now left.
Qed.

Lemma children_or_key (x : string) :
  getChildren g x = [] \/ In x (JSMap.keys (outgoingEdges g)).
Proof.
  unfold getChildren. destruct (JSMap.get x (outgoingEdges g)) eqn:E; [| now left].
  right. now apply map_get_Some_keys in E.
Qed.

Lemma post_post_nil (st : state) (xs : list string) :
  incl xs (visited st) -> post_post g xs st st.
Proof.
  intros Hxs. exists []. rewrite app_nil_r.
  split; [reflexivity |]. split; [constructor |]. split; [intros y [] |].
  split; [intros y; simpl; tauto |]. split; [exact Hxs |].
  split; [intros y [] | intros y z []].
Qed.

Lemma post_pre_next (x : string) (rest : list string) (st st1 : state) :
  post_pre g (x :: rest) st -> post_post g [x] st st1 -> post_pre g rest st1.
Proof.
  intros [P1 [P2 P3]] [new [Q1 [Q2 [Q3 [Q4 _]]]]].
  split; [| split].
  - rewrite Q1. apply NoDup_app; [exact P1 | exact Q2 |].
    intros y Hy Hy'. apply (Q3 y Hy'). now apply P2.
  - rewrite Q1. intros y Hy. apply Q4. apply in_app_iff in Hy.
    destruct Hy as [Hy | Hy]; [left; now apply P2 | now right].
  - intros a y Ha Hna Hy. apply (P3 a y); [| | now right].
    + apply Q4 in Ha. destruct Ha as [Ha | Ha]; [exact Ha |].
      exfalso. apply Hna. rewrite Q1. apply in_app_iff. now right.
    + intros H. apply Hna. rewrite Q1. apply in_app_iff. now left.
Qed.

Lemma post_post_cons (x : string) (rest : list string) (st st1 st2 : state) :
  post_post g [x] st st1 -> post_post g rest st1 st2 -> post_post g (x :: rest) st st2.
Proof.
  intros [new1 [A1 [A2 [A3 [A4 [A5 [A6 A7]]]]]]] [new2 [B1 [B2 [B3 [B4 [B5 [B6 B7]]]]]]].
  exists (new1 ++ new2).
  split; [rewrite B1, A1; now rewrite app_assoc |].
  split; [| split; [| split; [| split; [| split]]]].
  - apply NoDup_app; [exact A2 | exact B2 |].
    intros y Hy Hy'. apply (B3 y Hy'). apply A4. now right.
  - intros y Hy Hv. apply in_app_iff in Hy. destruct Hy as [Hy | Hy].
    + exact (A3 y Hy Hv).
    + apply (B3 y Hy). apply A4. now left.
  - intros y. rewrite B4, A4, in_app_iff. tauto.
  - intros y [<- | Hy].
    + apply B4. left. apply A5. now left.
    + now apply B5.
  - intros y Hy. apply in_app_iff in Hy. destruct Hy as [Hy | Hy].
    + destruct (A6 y Hy) as [s0 [[<- | []] Hp]]. exists x. split; [now left | exact Hp].
    + destruct (B6 y Hy) as [s0 [Hs0 Hp]]. exists s0. split; [now right | exact Hp].
  - intros y z Hy Hyz. apply in_app_iff in Hy. destruct Hy as [Hy | Hy].
    + destruct (A7 y z Hy Hyz) as [Hz Hor]. split; [apply B4; now left |].
      destruct Hor as [Hb | Hp]; [| now right]. left. rewrite B1.
      apply before_app; [exact Hb |]. rewrite A1. apply in_app_iff. now right.
    + exact (B7 y z Hy Hyz).
Qed.

Lemma visit_each_spec (rec : string -> state -> option state) (bound : nat) :
  forall xs,
    (forall x st, In x xs -> unmarked g (visited st) <= bound -> post_pre g [x] st ->
       exists st', rec x st = Some st' /\ post_post g [x] st st') ->
    forall st,
      unmarked g (visited st) <= bound -> post_pre g xs st ->
      exists st', visit_each rec xs st = Some st' /\ post_post g xs st st'.
Proof.
  induction xs as [| x rest IH]; intros Hrec st Hb Hpre.
  - exists st. split; [reflexivity |]. apply post_post_nil. intros y [].
  - cbn [visit_each].
    assert (Hone : post_pre g [x] st).
    { destruct Hpre as [P1 [P2 P3]]. split; [exact P1 |]. split; [exact P2 |].
      intros a y Ha Hna [<- | []]. apply (P3 a x Ha Hna). now left. }
    destruct (Hrec x st (or_introl eq_refl) Hb Hone) as [st1 [Hr1 Hpost1]].
    rewrite Hr1.
    destruct (IH (fun y st0 Hy => Hrec y st0 (or_intror Hy)) st1) as [st2 [Hr2 Hpost2]].
    + destruct Hpost1 as [new [_ [_ [_ [Q4 _]]]]].
      assert (Hle : unmarked g (visited st1) <= unmarked g (visited st)).
      { apply unmarked_mono. intros y Hy. apply Q4. now left. }
      lia.
    + exact (post_pre_next x rest st st1 Hpre Hpost1).
    + exists st2. split; [exact Hr2 |]. exact (post_post_cons x rest st st1 st2 Hpost1 Hpost2).
Qed.

Lemma visit_spec (fuel : nat) :
  forall x st,
    unmarked g (visited st) < fuel -> post_pre g [x] st ->
    exists st', visit fuel g x st = Some st' /\ post_post g [x] st st'.
Proof.
  induction fuel as [| fuel IH]; intros x st Hlt Hpre; [lia |].
  cbn [visit]. destruct (JSSet.has x (visited st)) eqn:Ex.
  - exists st. split; [reflexivity |]. apply post_post_nil.
    intros y [<- | []]. now apply set_has_In.
  - apply set_has_false in Ex. destruct Hpre as [P1 [P2 P3]].
    set (st1 := {| visited := JSSet.add x (visited st); result := result st |}).
    assert (Hfreshr : ~ In x (result st)) by (intros H; apply Ex; now apply P2).
    destruct (visit_each_spec (visit fuel g) (unmarked g (visited st1))
                (getChildren g x)) with (st := st1) as [st2 [Hr2 Hpost2]].
    + intros c st0 Hc Hb Hpre0. apply IH; [| exact Hpre0].
      destruct (children_or_key x) as [Hnil | Hkey]; [rewrite Hnil in Hc; destruct Hc |].
      pose proof (unmarked_mark x (visited st) Hkey Ex). simpl in Hb. lia.
    + lia.
    + split; [exact P1 |]. split.
      * intros y Hy. simpl. apply set_In_add. right. now apply P2.
      * intros a c Ha Hna Hc. simpl in Ha, Hna. apply set_In_add in Ha.
        destruct Ha as [-> | Ha]; [now apply rt_step |].
        apply rt_trans with x; [| now apply rt_step].
        apply (P3 a x Ha Hna). now left.
    + rewrite Hr2. eexists. split; [reflexivity |].
      destruct Hpost2 as [new [Q1 [Q2 [Q3 [Q4 [Q5 [Q6 Q7]]]]]]].
      simpl in Q1, Q3, Q4.
      assert (Hxnew : ~ In x new).
      { intros H. apply (Q3 x H). apply set_In_add. now left. }
      assert (Hxres : ~ In x (result st2)).
      { rewrite Q1. intros H. apply in_app_iff in H. tauto. }
      exists (new ++ [x]). cbn [visited result].
      split; [rewrite Q1; now rewrite app_assoc |].
      split; [now apply NoDup_snoc |].
      split; [| split; [| split; [| split]]].
      * intros y Hy Hv. apply in_app_iff in Hy. destruct Hy as [Hy | [<- | []]].
        -- apply (Q3 y Hy). apply set_In_add. now right.
        -- exact (Ex Hv).
      * intros y. rewrite Q4, set_In_add, in_app_iff. simpl. intuition congruence.
      * intros y [<- | []]. apply Q4. left. apply set_In_add. now left.
      * intros y Hy. exists x. split; [now left |].
        apply in_app_iff in Hy. destruct Hy as [Hy | [<- | []]]; [| apply rt_refl].
        destruct (Q6 y Hy) as [c [Hc Hp]].
        apply rt_trans with c; [now apply rt_step | exact Hp].
      * intros y z Hy Hyz. apply in_app_iff in Hy. destruct Hy as [Hy | [<- | []]].
        -- destruct (Q7 y z Hy Hyz) as [Hz Hor]. split; [exact Hz |].
           destruct Hor as [Hb | Hp]; [| now right]. left.
           apply before_app; [exact Hb |]. rewrite Q1. apply in_app_iff. now right.
        -- pose proof (Q5 z Hyz) as Hz. split; [exact Hz |].
           destruct (in_dec string_dec z (result st2)) as [Hin | Hout].
           ++ left. now apply before_snoc.
           ++ right. apply Q4 in Hz. rewrite Q1 in Hout.
              destruct Hz as [Hz | Hz]; [| exfalso; apply Hout, in_app_iff; now right].
              apply set_In_add in Hz. destruct Hz as [-> | Hz]; [apply rt_refl |].
              apply (P3 z x Hz); [| now left].
              intros H. apply Hout, in_app_iff. now left.
Qed.

End PostOrderSpec.

Lemma closed_reach (R : string -> string -> Prop) (r : list string) :
  (forall x y, In x r -> R x y -> In y r) ->
  forall x y, clos_refl_trans string R x y -> In x r -> In y r.
Proof.
  intros Hcl x y Hpath. apply clos_rt_rt1n in Hpath.
  induction Hpath as [x | x z y Hxz _ IH]; intros Hx; [exact Hx |].
  apply IH. now apply (Hcl x z).
Qed.

Lemma dfsPostOrder_spec (s : DAGStructure) (startIds : option (list string)) :
  exists r,
    dfsPostOrder s startIds = Some r /\
    NoDup r /\
    (forall x, In x r <->
       exists s0, In s0 (start_ids (DAG_of s) startIds) /\
                  clos_refl_trans string (registered_edge s) s0 x) /\
    (forall x y, In x r -> registered_edge s x y ->
       In y r /\ (precedes r y x \/ clos_refl_trans string (registered_edge s) y x)) /\
    ((forall v, ~ clos_trans string (registered_edge s) v v) ->
     forall x y, In x r -> registered_edge s x y -> precedes r y x).
Proof.
  unfold dfsPostOrder, dfsPostOrder_fuel. cbv zeta.
  set (g := DAG_of s). set (starts := start_ids g startIds).
  set (fuel := S (JSMap.size (outgoingEdges g))).
  assert (Hbound : forall v, unmarked g v <= JSMap.size (outgoingEdges g)).
  { intros v. unfold unmarked, JSMap.size.
    pose proof (List.filter_length_le (fun x => negb (JSSet.has x v))
                  (JSMap.keys (outgoingEdges g))) as Hle.
    unfold JSMap.keys in Hle at 2. rewrite length_map in Hle. exact Hle. }
  destruct (visit_each_spec g (PostOrder.visit fuel g) (JSMap.size (outgoingEdges g))
              starts) with (st := PostOrder.init) as [st [Hr Hpost]].
  - intros x st0 _ Hb Hpre. apply visit_spec; [unfold fuel; lia | exact Hpre].
  - apply Hbound.
  - split; [constructor |]. split; [intros y [] | intros a x []].
  - rewrite Hr. exists (PostOrder.result st). split; [reflexivity |].
    destruct Hpost as [new [Q1 [Q2 [Q3 [Q4 [Q5 [Q6 Q7]]]]]]]. simpl in Q1, Q4.
    rewrite Q1.
    assert (Hvis : forall y, In y (PostOrder.visited st) <-> In y new).
    { intros y. rewrite Q4. tauto. }
    assert (Hchild : forall x y, In x new -> registered_edge s x y ->
              In y new /\ (precedes new y x \/
                           clos_refl_trans string (registered_edge s) y x)).
    { intros x y Hx Hxy. apply DAG_of_children in Hxy.
      destruct (Q7 x y Hx Hxy) as [Hy Hor]. split; [now apply Hvis |].
      rewrite Q1 in Hor. destruct Hor as [Hb | Hp].
      - left. now apply before_precedes.
      - right. now apply DAG_of_reach. }
    split; [exact Q2 |]. split; [| split; [exact Hchild |]].
    + intros x. split.
      * intros Hx. destruct (Q6 x Hx) as [s0 [Hs0 Hp]].
        exists s0. split; [exact Hs0 | now apply DAG_of_reach].
      * intros [s0 [Hs0 Hp]].
        apply (closed_reach (registered_edge s) new) with s0.
        -- intros a b Ha Hab. apply (Hchild a b Ha Hab).
        -- exact Hp.
        -- apply Hvis. now apply Q5.
    + intros Hacyc x y Hx Hxy. destruct (Hchild x y Hx Hxy) as [_ [Hb | Hp]]; [exact Hb |].
      exfalso. apply (Hacyc y). apply clos_rt_t with x; [exact Hp | now apply t_step].
Qed.

(** X17: [dfsPostOrder] returns for every structure and every choice of
    start identifiers (the roots of the loaded store by default); the result
    lists without repetition exactly the identifiers that are start
    identifiers or are reached from one along listed edges whose source is
    a node; every child of a listed identifier is listed, before it or else
    on a cycle with it; so without cycles children stand before their
    parents. *)
Theorem dfsPostOrder_reachable (s : DAGStructure) (startIds : option (list string)) :
  exists r,
    dfsPostOrder s startIds = Some r /\
    NoDup r /\
    (forall x, In x r <->
       exists s0, In s0 (start_ids (DAG_of s) startIds) /\
                  clos_refl_trans string (registered_edge s) s0 x) /\
    (forall x y, In x r -> registered_edge s x y ->
       In y r /\ (precedes r y x \/ clos_refl_trans string (registered_edge s) y x)) /\
    ((forall v, ~ clos_trans string (registered_edge s) v v) ->
     forall x y, In x r -> registered_edge s x y -> precedes r y x).
Proof. exact (dfsPostOrder_spec s startIds). Qed.

(* ================================================================= *)
(** ** Cycle detection: the first recorded cycle is a closed walk *)

Lemma combine_snoc (l : list string) (ns : list nat) (x : string) (k : nat) :
  length l = length ns -> combine (l ++ [x]) (ns ++ [k]) = combine l ns ++ [(x, k)].
Proof.
  revert ns. induction l as [| y l IH]; intros [| m ns] Hl; simpl in *; try discriminate;
    [reflexivity |].
  now rewrite IH by lia.
Qed.

Lemma positions_snoc (l : list string) (x : string) :
  positions (l ++ [x]) = positions l ++ [(x, length l)].
Proof.
  unfold positions. rewrite length_app. simpl. rewrite seq_app. simpl.
  apply combine_snoc. now rewrite length_seq.
Qed.

Lemma keys_combine (l : list string) (ns : list nat) :
  length l = length ns -> JSMap.keys (combine l ns) = l.
Proof.
  unfold JSMap.keys. revert ns.
  induction l as [| x l IH]; intros [| k ns] Hl; simpl in *; try discriminate;
    [reflexivity |].
  now rewrite IH by lia.
Qed.

Lemma positions_keys (l : list string) : JSMap.keys (positions l) = l.
Proof. unfold positions. apply keys_combine. now rewrite length_seq. Qed.

Lemma get_combine_seq (c : string) (l : list string) (k : nat) :
  In c l -> JSMap.get c (combine l (seq k (length l))) = Some (k + index_of c l).
Proof.
  revert k. induction l as [| x l IH]; intros k Hin; [destruct Hin |].
  simpl. destruct (String.eqb_spec c x) as [-> | Hne].
  - f_equal. lia.
  - destruct Hin as [-> | Hin]; [congruence |].
    rewrite (IH (S k) Hin). f_equal. lia.
Qed.

Lemma positions_get (c : string) (l : list string) :
  In c l -> JSMap.get c (positions l) = Some (index_of c l).
Proof. intros H. unfold positions. now rewrite get_combine_seq. Qed.

Lemma set_delete_snoc (x : string) (l : JSSet.t) :
  ~ In x l -> JSSet.delete x (l ++ [x]) = l.
Proof.
  intros H. rewrite <- (set_add_fresh x l) by (now apply set_has_false).
  now apply set_delete_add_fresh.
Qed.

Lemma positions_enter (l : list string) (x : string) :
  ~ In x l -> JSMap.set x (length l) (positions l) = positions (l ++ [x]).
Proof.
  intros H. rewrite positions_snoc. apply map_set_fresh. now rewrite positions_keys.
Qed.

Lemma positions_leave (l : list string) (x : string) :
  ~ In x l -> JSMap.delete x (positions (l ++ [x])) = positions l.
Proof.
  intros H. rewrite <- (positions_enter l x H). apply map_delete_set_fresh.
  now rewrite positions_keys.
Qed.

Lemma snoc_cases (l : list string) : l = [] \/ exists l' a, l = l' ++ [a].
Proof.
  destruct l as [| x l]; [now left |]. right.
  destruct (exists_last (l := x :: l)) as [l' [a H]]; [discriminate |].
  now exists l', a.
Qed.

Lemma walk_suffix (g : DAG) (l : list string) :
  walk g l -> forall l1 l2, l = l1 ++ l2 -> walk g l2.
Proof.
  induction 1 as [| x | l x y Hw IH Hxy]; intros l1 l2 Heq.
  - symmetry in Heq. apply app_eq_nil in Heq. destruct Heq as [_ ->]. constructor.
  - destruct l1 as [| a l1]; simpl in Heq.
    + subst l2. constructor.
    + injection Heq as _ Heq. symmetry in Heq. apply app_eq_nil in Heq.
      destruct Heq as [_ ->]. constructor.
  - destruct (snoc_cases l2) as [-> | [l2' [y' ->]]]; [constructor |].
    rewrite app_assoc in Heq. apply app_inj_tail in Heq. destruct Heq as [Heq <-].
    destruct (snoc_cases l2') as [-> | [l2'' [x' ->]]]; [constructor |].
    pose proof Heq as Heq'. rewrite app_assoc in Heq'. apply app_inj_tail in Heq'.
    destruct Heq' as [_ <-].
    apply walk_snoc; [| exact Hxy]. now apply (IH l1).
Qed.

Lemma walk_chain (g : DAG) (l : list string) : walk g l -> chain (child_rel g) l.
Proof.
  induction 1 as [| x | l x y Hw IH Hxy]; intros l1 a b l2 Heq.
  - destruct l1; discriminate.
  - destruct l1 as [| ? [| ? ?]]; discriminate.
  - destruct (snoc_cases l2) as [-> | [l2' [y' ->]]].
    + change (l1 ++ [a; b]) with (l1 ++ [a] ++ [b]) in Heq.
      rewrite app_assoc in Heq. apply app_inj_tail in Heq. destruct Heq as [Heq <-].
      apply app_inj_tail in Heq. destruct Heq as [_ <-]. exact Hxy.
    + apply (IH l1 a b l2').
      change (l1 ++ a :: b :: l2' ++ [y']) with (l1 ++ (a :: b :: l2') ++ [y']) in Heq.
      rewrite app_assoc in Heq. apply app_inj_tail in Heq. now destruct Heq.
Qed.

Section FirstCycle.

Variable g : DAG.

Import FindCycles.

Lemma recorded_closed_walk (c : string) (st : state) :
  walk g (path st ++ [c]) -> In c (path st) -> NoDup (path st) ->
  pathIndex st = positions (path st) ->
  cycles st = [] ->
  exists w, cycles (record_cycle c st) = [w] /\ closed_walk g w.
Proof.
  intros Hw Hin Hnd Hpi Hc. unfold record_cycle. cbn [cycles].
  rewrite Hc, Hpi, (positions_get c (path st) Hin).
  destruct (index_of_split c (path st) Hin) as [l1 [l2 [Hsplit [_ Hidx]]]].
  rewrite Hidx. eexists. split; [reflexivity |].
  assert (Hskip : skipn (length l1) (path st) = c :: l2).
  { rewrite Hsplit. rewrite skipn_app, skipn_all, Nat.sub_diag. reflexivity. }
  rewrite Hskip. split.
  - exists c, l2. split; [reflexivity |].
    rewrite Hsplit in Hnd. now apply NoDup_app_remove_l in Hnd.
  - apply (walk_suffix g _ Hw l1). rewrite Hsplit. now rewrite <- app_assoc.
Qed.

Lemma first_children (rec : string -> state -> option (bool * state))
    (n : string) (st0 : state) :
  (forall c st r, rec c st = Some r -> first_pre g c st -> first_post g st r) ->
  first_pre g n st0 ->
  forall cs st r,
    first_loop n st0 st ->
    incl cs (getChildren g n) ->
    dfs_children rec n cs st = Some r ->
    first_post g st0 r.
Proof.
  intros Hrec [P1 [P2 [P3 [P4 [P5 [P6 P7]]]]]].
  assert (Hfresh : ~ In n (path st0)) by (intros H; apply P7, P6, H).
  induction cs as [| c cs IH]; intros st r [L1 [L2 [L3 [L4 [L5 L6]]]]] Hsub H;
    cbn [dfs_children] in H.
  - injection H as <-. unfold first_post. cbn [fst snd leave cycles path recursionStack
      pathIndex visited].
    split; [exact L1 |].
    split; [rewrite L2; apply removelast_last |].
    split; [rewrite L3, L2, P4; now apply set_delete_snoc |].
    split; [rewrite L4, L2, P5; now apply positions_leave | exact L5].
  - assert (Hnc : child_rel g n c) by (apply Hsub; now left).
    assert (Hsub' : incl cs (getChildren g n)) by (intros y Hy; apply Hsub; now right).
    assert (Hw : walk g (path st ++ [c])).
    { rewrite L2. now apply walk_snoc. }
    destruct (JSSet.has c (visited st)) eqn:Ev; cbn [negb] in H.
    + destruct (JSSet.has c (recursionStack st)) eqn:Es.
      * injection H as <-. unfold first_post. cbn [fst snd].
        apply recorded_closed_walk; try assumption.
        -- rewrite <- L3. now apply set_has_In.
        -- rewrite L2. now apply NoDup_snoc.
      * apply (IH st r); [| exact Hsub' | exact H]. unfold first_loop. tauto.
    + apply set_has_false in Ev.
      destruct (rec c st) as [[b st'] |] eqn:Er; [| discriminate].
      assert (Hpost : first_post g st (b, st')).
      { apply (Hrec c st _ Er). unfold first_pre.
        split; [exact L1 |]. split; [exact Hw |].
        split; [rewrite L2; now apply NoDup_snoc |].
        split; [exact L3 |]. split; [exact L4 |]. split; [| exact Ev].
        rewrite L2. intros y Hy. apply in_app_iff in Hy.
        destruct Hy as [Hy | [<- | []]]; [now apply L5, P6 | exact L6]. }
      destruct b.
      * injection H as <-. exact Hpost.
      * unfold first_post in Hpost. cbn [fst snd] in Hpost.
        destruct Hpost as [Q1 [Q2 [Q3 [Q4 Q5]]]].
        apply (IH st' r); [| exact Hsub' | exact H]. unfold first_loop.
        split; [exact Q1 |]. split; [now rewrite Q2 |].
        split; [now rewrite Q3, Q2 |]. split; [now rewrite Q4, Q2 |].
        split; [intros y Hy; now apply Q5, L5 | now apply Q5].
Qed.

Lemma first_dfs (fuel : nat) :
  forall n st r, dfs fuel g n st = Some r -> first_pre g n st -> first_post g st r.
Proof.
  induction fuel as [| fuel IH]; intros n st r H Hpre; [discriminate |].
  cbn [dfs] in H.
  apply (first_children (dfs fuel g) n st IH Hpre (getChildren g n) (enter n st) r);
    [| apply incl_refl | exact H].
  destruct Hpre as [P1 [P2 [P3 [P4 [P5 [P6 P7]]]]]].
  assert (Hfresh : ~ In n (path st)) by (intros Hin; apply P7, P6, Hin).
  unfold first_loop. cbn [enter cycles path recursionStack pathIndex visited].
  split; [exact P1 |]. split; [reflexivity |].
  split; [rewrite P4; apply set_add_fresh; now apply set_has_false |].
  split; [rewrite P5; now apply positions_enter |].
  split; [intros y Hy; apply set_In_add; now right | apply set_In_add; now left].
Qed.

Lemma children_cycles_grow (rec : string -> state -> option (bool * state)) (n : string) :
  (forall c st r, rec c st = Some r -> exists extra, cycles (snd r) = cycles st ++ extra) ->
  forall cs st r,
    dfs_children rec n cs st = Some r ->
    exists extra, cycles (snd r) = cycles st ++ extra.
Proof.
  intros Hrec. induction cs as [| c cs IH]; intros st r H; cbn [dfs_children] in H.
  - injection H as <-. exists []. simpl. now rewrite app_nil_r.
  - destruct (JSSet.has c (visited st)); cbn [negb] in H.
    + destruct (JSSet.has c (recursionStack st)); [| now apply IH].
      injection H as <-. eexists. reflexivity.
    + destruct (rec c st) as [[b st'] |] eqn:Er; [| discriminate].
      destruct (Hrec c st _ Er) as [e1 He1]. simpl in He1. destruct b.
      * injection H as <-. now exists e1.
      * destruct (IH st' r H) as [e2 He2]. exists (e1 ++ e2).
        now rewrite He2, He1, app_assoc.
Qed.

Lemma dfs_cycles_grow (fuel : nat) :
  forall n st r, dfs fuel g n st = Some r ->
    exists extra, cycles (snd r) = cycles st ++ extra.
Proof.
  induction fuel as [| fuel IH]; intros n st r H; [discriminate |].
  cbn [dfs] in H.
  destruct (children_cycles_grow (dfs fuel g) n IH _ _ _ H) as [extra He].
  exists extra. exact He.
Qed.

Lemma first_scan_spec (fuel : nat) :
  forall ids st st',
    scan fuel g ids st = Some st' -> first_scan g st -> first_scan g st'.
Proof.
  induction ids as [| x ids IH]; intros st st' H Hinv; cbn [scan] in H.
  - now injection H as <-.
  - destruct (JSSet.has x (visited st)) eqn:Ev; cbn [negb] in H; [now apply (IH st) |].
    destruct (dfs fuel g x st) as [[b st1] |] eqn:Ed; [| discriminate].
    apply (IH st1 st' H).
    destruct Hinv as [[A1 [A2 [A3 A4]]] | [c [cs [Hc Hw]]]].
    + assert (Hpost : first_post g st (b, st1)).
      { apply (first_dfs fuel x st _ Ed). unfold first_pre. rewrite A2, A3, A4.
        split; [exact A1 |]. split; [constructor |]. split; [constructor |].
        split; [reflexivity |]. split; [reflexivity |].
        split; [intros y [] | now apply set_has_false]. }
      unfold first_post in Hpost. cbn [fst snd] in Hpost. destruct b.
      * right. destruct Hpost as [c [Hc Hw]]. now exists c, [].
      * left. destruct Hpost as [Q1 [Q2 [Q3 [Q4 _]]]].
        rewrite Q2, Q3, Q4. tauto.
    + right. destruct (dfs_cycles_grow fuel x st _ Ed) as [extra He].
      simpl in He. rewrite Hc in He. now exists c, (cs ++ extra).
Qed.

Lemma findCycles_first (c : list string) (cs : list (list string)) :
  findCycles g = Some (c :: cs) -> closed_walk g c.
Proof.
  unfold findCycles, findCycles_fuel.
  destruct (scan _ g _ init) as [st |] eqn:Es; [| discriminate].
  intros [= Hc].
  destruct (first_scan_spec _ _ _ _ Es) as [[A1 _] | [c' [cs' [Hc' Hw]]]].
  - left. now cbv.
  - congruence.
  - rewrite Hc in Hc'. now injection Hc' as <- _.
Qed.

End FirstCycle.

(** X18: for every structure [validateDAG] returns; when it reports the
    structure as not acyclic, its [cycles] are present, and the first of
    them ends where it starts, repeats no other identifier, and follows,
    step by step, listed edges whose source is a node. *)
Theorem validateDAG_first_cycle (s : DAGStructure) :
  exists res,
    validateDAG s = Some res /\
    (isAcyclic res = false -> exists c cs, cycles res = Some (c :: cs)) /\
    (forall c cs, cycles res = Some (c :: cs) ->
       (exists v l, c = v :: l ++ [v] /\ NoDup (v :: l)) /\
       chain (registered_edge s) c).
Proof.
  destruct (findCycles_returns (DAG_of s)) as [found Hfound].
  unfold validateDAG. rewrite Hfound. eexists. split; [reflexivity |].
  cbn [isAcyclic cycles]. split.
  - destruct found as [| c cs]; [discriminate |]. intros _. now exists c, cs.
  - intros c cs Hc. destruct found as [| c' cs']; [discriminate |].
    injection Hc as <- <-.
    destruct (findCycles_first (DAG_of s) c' cs' Hfound) as [Hshape Hw].
    split; [exact Hshape |].
    intros l1 a b l2 Heq. apply DAG_of_children.
    exact (walk_chain (DAG_of s) c' Hw l1 a b l2 Heq).
Qed.

(* ================================================================= *)
(** ** Traversals from the roots of an acyclic structure *)

Lemma registered_reach_node (s : DAGStructure) (x y : string) :
  no_dangling s ->
  clos_refl_trans string (registered_edge s) x y -> In x (node_ids s) -> In y (node_ids s).
Proof.
  intros Hd Hp. induction Hp as [a b [_ Hab] | a | a b d _ IH1 _ IH2]; intros Ha.
  - apply (Hd _ Hab).
  - exact Ha.
  - auto.
Qed.

(** In a structure without cycles every node is reached from a root. *)
Lemma roots_reach (s : DAGStructure) :
  no_dangling s -> acyclic s ->
  forall v, In v (node_ids s) ->
    exists r0, In r0 (getRoots (DAG_of s)) /\
               clos_refl_trans string (registered_edge s) r0 v.
Proof.
  intros Hd Hac v Hv. pose proof (acyclic_accessible s Hd Hac v Hv) as Hacc.
  induction Hacc as [v _ IH].
  destruct (existsb (fun e => String.eqb (to e) v) (edges s)) eqn:Ex.
  - apply existsb_exists in Ex. destruct Ex as [e [He Hto]].
    apply String.eqb_eq in Hto.
    assert (Huv : In (arrow (from e) v) (edges s)) by (rewrite <- Hto, edge_eta; exact He).
    assert (Hu : In (from e) (node_ids s)) by (apply (Hd _ He)).
    destruct (IH (from e) Huv Hu) as [r0 [Hr0 Hp]].
    exists r0. split; [exact Hr0 |].
    apply rt_trans with (from e); [exact Hp |]. apply rt_step. now split.
  - exists v. split; [| apply rt_refl]. apply DAG_of_roots. split; [exact Hv |].
    intros u Hu.
    pose proof (proj1 (existsb_false_forall _ _ _) Ex (arrow u v) Hu) as Hf.
    simpl in Hf. now rewrite String.eqb_refl in Hf.
Qed.

Lemma reached_from_roots (s : DAGStructure) :
  NoDup (node_ids s) -> no_dangling s -> acyclic s ->
  forall r,
    NoDup r ->
    (forall x, In x r <->
       exists s0, In s0 (start_ids (DAG_of s) None) /\
                  clos_refl_trans string (registered_edge s) s0 x) ->
    Permutation r (node_ids s).
Proof.
  intros Hids Hd Hac r Hnd Hiff.
  apply NoDup_Permutation; [exact Hnd | exact Hids |].
  intros x. rewrite Hiff. cbn [start_ids]. split.
  - intros [s0 [Hs0 Hp]]. apply (registered_reach_node s s0 x Hd Hp).
    now apply DAG_of_roots in Hs0.
  - now apply roots_reach.
Qed.

(** X19: on a structure with distinct identifiers, no dangling edge and no
    cycle, [dfsPostOrder] from the roots lists every node exactly once, and
    the destination of every edge before its source: the result reversed
    is a topological order. *)
Theorem dfsPostOrder_from_roots (s : DAGStructure) :
  NoDup (node_ids s) -> no_dangling s -> acyclic s ->
  exists r,
    dfsPostOrder s None = Some r /\
    Permutation r (node_ids s) /\
    (forall e, In e (edges s) -> precedes r (to e) (from e)).
Proof.
  intros Hids Hd Hac.
  destruct (dfsPostOrder_spec s None) as [r [Hr [Hnd [Hiff [_ Hord]]]]].
  exists r. split; [exact Hr |].
  pose proof (reached_from_roots s Hids Hd Hac r Hnd Hiff) as Hperm.
  split; [exact Hperm |].
  intros e He. apply Hord.
  - intros v Hv. apply (Hac v).
    apply (clos_trans_incl (registered_edge s)); [| exact Hv].
    intros a b [_ Hab]. exact Hab.
  - apply (Permutation_in _ (Permutation_sym Hperm)). apply (Hd _ He).
  - split; [apply (Hd _ He) | now rewrite edge_eta].
Qed.

Lemma dfsPostOrder_from_roots_witness :
  exists r,
    dfsPostOrder diamond None = Some r /\
    Permutation r (node_ids diamond) /\
    (forall e, In e (edges diamond) -> precedes r (to e) (from e)).
Proof.
  apply (dfsPostOrder_from_roots diamond).
  - apply diamond_well_formed.
  - apply diamond_well_formed.
  - apply diamond_acyclic.
Defined.

(** X20: on a structure with distinct identifiers, no dangling edge and no
    cycle, [bfsFromRoots] from the roots lists every node exactly once. *)
Theorem bfsFromRoots_from_roots (s : DAGStructure) :
  NoDup (node_ids s) -> no_dangling s -> acyclic s ->
  exists r, bfsFromRoots s None = Some r /\ Permutation r (node_ids s).
Proof.
  intros Hids Hd Hac.
  destruct (bfsFromRoots_spec s None) as [r [Hr [Hnd [Hiff _]]]].
  exists r. split; [exact Hr |].
  exact (reached_from_roots s Hids Hd Hac r Hnd Hiff).
Qed.

Lemma bfsFromRoots_from_roots_witness :
  exists r, bfsFromRoots diamond None = Some r /\ Permutation r (node_ids diamond).
Proof.
  apply (bfsFromRoots_from_roots diamond).
  - apply diamond_well_formed.
  - apply diamond_well_formed.
  - apply diamond_acyclic.
Defined.

(* ================================================================= *)
(** ** A structure matches itself *)

Lemma dataMatches_refl (a : JSValue) : a <> VNaN -> dataMatches a a = Ok true.
Proof.
  intros Hn. destruct a; unfold dataMatches; simpl; try reflexivity; try congruence.
  - now rewrite Bool.eqb_reflx.
  - now rewrite Z.eqb_refl.
  - now rewrite String.eqb_refl.
  - now rewrite Nat.eqb_refl.
Qed.

Lemma identity_complete (s : DAGStructure) :
  NoDup (node_ids s) ->
  (forall n, In n (nodes s) -> data n <> VNaN) ->
  complete s s (map (fun n => (id n, id n)) (nodes s)).
Proof.
  intros Hids Hdata.
  set (M := map (fun n => (id n, id n)) (nodes s)).
  assert (Hk : JSMap.keys M = node_ids s).
  { unfold M, JSMap.keys, node_ids. rewrite map_map. reflexivity. }
  assert (Hv : JSMap.values M = node_ids s).
  { unfold M, JSMap.values, node_ids. rewrite map_map. reflexivity. }
  assert (Hpair : forall p t, In (p, t) M -> t = p /\ exists n, In n (nodes s) /\ id n = p).
  { intros p t Hin. unfold M in Hin. apply in_map_iff in Hin.
    destruct Hin as [n [[= <- <-] Hn]]. split; [reflexivity | now exists n]. }
  split.
  - split; [now rewrite Hk |]. split; [rewrite Hk; apply incl_refl |].
    split; [now rewrite Hv |]. split; [rewrite Hv; apply incl_refl |]. split.
    + intros p t Hin. destruct (Hpair p t Hin) as [-> [n [Hn <-]]].
      split.
      * exists n, n. cbn [VF2.pNodeMap VF2.tNodeMap VF2.context_of].
        rewrite (node_table_unique s n Hids Hn).
        split; [reflexivity |]. split; [reflexivity |].
        apply dataMatches_refl. now apply Hdata.
      * unfold degree_condition. cbn [VF2.pAdj VF2.tAdj VF2.context_of]. cbv zeta. tauto.
    + intros p1 t1 p2 t2 H1 H2 _ Hadj.
      destruct (Hpair p1 t1 H1) as [-> _]. destruct (Hpair p2 t2 H2) as [-> _].
      cbn [VF2.pAdj VF2.context_of] in Hadj. apply buildAdjacency_out in Hadj. tauto.
  - unfold JSMap.size, M. cbn [VF2.pNodes VF2.context_of]. unfold node_ids.
    now rewrite !length_map.
Qed.

Lemma try_targets_skip_used (c : VF2.context)
    (rec : VF2.state -> outcome (bool * VF2.state)) (p : option string)
    (used : JSSet.t) (pre rest : list string) (st : VF2.state) :
  (forall t, In t pre -> JSSet.has t used = true) ->
  VF2.try_targets c rec p used (pre ++ rest) st = VF2.try_targets c rec p used rest st.
Proof.
  induction pre as [| t pre IH]; intros Hused; [reflexivity |].
  cbn [app VF2.try_targets]. rewrite (Hused t (or_introl eq_refl)).
  apply IH. intros x Hx. apply Hused. now right.
Qed.

Lemma find_after (f : string -> bool) (pre suf : list string) (p : string) :
  (forall x, In x pre -> f x = false) -> f p = true ->
  find f (pre ++ p :: suf) = Some p.
Proof.
  intros Hpre Hp. induction pre as [| x pre IH]; simpl; [now rewrite Hp |].
  rewrite (Hpre x (or_introl eq_refl)). apply IH. intros y Hy. apply Hpre. now right.
Qed.

Section SelfMatch.

Variable s : DAGStructure.
Hypothesis Hids : NoDup (node_ids s).
Hypothesis Hdata : forall n, In n (nodes s) -> data n <> VNaN.

Local Abbreviation c := (VF2.context_of s s).
Local Abbreviation diagonal := (map (fun x : string => (x, x))).

Lemma diagonal_keys (l : list string) : JSMap.keys (diagonal l) = l.
Proof. unfold JSMap.keys. rewrite map_map. apply map_id. Qed.

Lemma diagonal_values (l : list string) : JSMap.values (diagonal l) = l.
Proof. unfold JSMap.values. rewrite map_map. apply map_id. Qed.

(** The search goes down the diagonal: with the first identifiers mapped to
    themselves, the next one passes [feasible] against itself, the first
    target that is not yet used. *)
Lemma diagonal_search (fuel : nat) :
  forall pre suf st,
    node_ids s = pre ++ suf ->
    VF2.mapping st = diagonal pre ->
    length suf < fuel ->
    exists st', VF2.search fuel c st = Ok (true, st').
Proof.
  induction fuel as [| fuel IH]; intros pre suf st Hsplit Hm Hlt; [lia |].
  cbn [VF2.search]. cbn [VF2.pNodes VF2.tNodes VF2.context_of].
  rewrite Hm. unfold JSMap.size. rewrite length_map, Hsplit, length_app.
  destruct suf as [| p suf].
  - rewrite Nat.add_0_r, Nat.eqb_refl. now exists st.
  - destruct (Nat.eqb_spec (length pre) (length pre + length (p :: suf))) as [E | _];
      [simpl in E; lia |].
    assert (Hnd : NoDup (pre ++ p :: suf)) by (now rewrite <- Hsplit).
    assert (Hfresh : ~ In p pre).
    { intros Hin. apply NoDup_remove_2 in Hnd. apply Hnd. apply in_app_iff. now left. }
    rewrite (find_after _ pre suf p).
    + rewrite try_targets_skip_used.
      * cbn [VF2.try_targets].
        rewrite (proj2 (set_has_false p _)).
        -- rewrite Hm.
           rewrite (feasible_of_complete s s _ (identity_complete s Hids Hdata)
                      (diagonal pre) p p).
           ++ destruct (IH (pre ++ [p]) suf (VF2.commit p p st)) as [st' Hst'].
              ** rewrite Hsplit, <- app_assoc. reflexivity.
              ** cbn [VF2.commit VF2.mapping]. rewrite Hm, map_app.
                 apply map_set_fresh. now rewrite diagonal_keys.
              ** simpl in Hlt. lia.
              ** rewrite Hst'. now exists st'.
           ++ intros x t Hin. apply in_map_iff in Hin.
              destruct Hin as [y [[= <- <-] Hy]].
              assert (Hx : In y (node_ids s))
                by (rewrite Hsplit; apply in_app_iff; now left).
              unfold node_ids in Hx. apply in_map_iff in Hx.
              destruct Hx as [n [<- Hn]]. apply in_map_iff. now exists n.
           ++ now rewrite diagonal_keys.
           ++ assert (Hp : In p (node_ids s))
                by (rewrite Hsplit; apply in_app_iff; right; now left).
              unfold node_ids in Hp. apply in_map_iff in Hp.
              destruct Hp as [n [<- Hn]]. apply in_map_iff. now exists n.
        -- rewrite set_of_list_In, diagonal_values. exact Hfresh.
      * intros t Ht. apply set_has_In. now rewrite set_of_list_In, diagonal_values.
    + intros x Hx. apply negb_false_iff. apply map_has_In. now rewrite diagonal_keys.
    + apply negb_true_iff. apply map_has_false. now rewrite diagonal_keys.
Qed.

End SelfMatch.

(** X21: a structure with pairwise distinct identifiers none of whose
    payloads is [NaN] is subgraph-isomorphic to itself, also when payloads
    cannot be serialized: the search compares every payload with itself
    only. *)
Theorem isSubgraphIsomorphic_self (s : DAGStructure) :
  NoDup (node_ids s) ->
  (forall n, In n (nodes s) -> data n <> VNaN) ->
  isSubgraphIsomorphic s s = Ok true.
Proof.
  intros Hids Hdata.
  unfold isSubgraphIsomorphic, vf2SubgraphIsomorphism, vf2_fuel.
  cbn [VF2.pNodes VF2.tNodes VF2.context_of].
  destruct (Nat.eqb (length (node_ids s)) 0); [reflexivity |].
  rewrite Nat.ltb_irrefl.
  destruct (diagonal_search s Hids Hdata (S (length (nodes s))) [] (node_ids s) VF2.init)
    as [st' Hst']; [reflexivity | reflexivity | |].
  - unfold node_ids. rewrite length_map. lia.
  - now rewrite Hst'.
Qed.

Lemma isSubgraphIsomorphic_self_witness : isSubgraphIsomorphic diamond diamond = Ok true.
Proof.
  apply (isSubgraphIsomorphic_self diamond).
  - apply diamond_well_formed.
  - intros n Hn. simpl in Hn.
    destruct Hn as [<- | [<- | [<- | [<- | []]]]]; discriminate.
Defined.

(* ================================================================= *)
(** ** Breadth-first traversal: nearer identifiers come first *)

Lemma nondecreasing_app (l l' : list nat) :
  nondecreasing (l ++ l') <->
  nondecreasing l /\ nondecreasing l' /\ (forall a b, In a l -> In b l' -> a <= b).
Proof.
  induction l as [| x l IH]; simpl.
  - split; [intros H; split; [exact I | split; [exact H | intros a b []]] | tauto].
  - rewrite IH. split.
    + intros [Hx [Hl [Hl' Hall]]]. split; [split; [| exact Hl] |].
      * intros b Hb. apply Hx. apply in_app_iff. now left.
      * split; [exact Hl' |]. intros a b [<- | Ha] Hb.
        -- apply Hx. apply in_app_iff. now right.
        -- now apply Hall.
    + intros [[Hx Hl] [Hl' Hall]]. split; [| split; [exact Hl | split; [exact Hl' |]]].
      * intros b Hb. apply in_app_iff in Hb. destruct Hb as [Hb | Hb]; [now apply Hx |].
        apply Hall; [now left | exact Hb].
      * intros a b Ha Hb. apply Hall; [now right | exact Hb].
Qed.

Lemma nondecreasing_drop (l l' : list nat) (a : nat) :
  nondecreasing (l ++ a :: l') -> nondecreasing (l ++ l').
Proof.
  rewrite !nondecreasing_app. simpl. intros [Hl [[_ Hl'] Hall]].
  split; [exact Hl |]. split; [exact Hl' |].
  intros x y Hx Hy. apply Hall; [exact Hx | now right].
Qed.

Lemma nondecreasing_const (n k : nat) : nondecreasing (repeat n k).
Proof.
  induction k as [| k IH]; simpl; [exact I |]. split; [| exact IH].
  intros b Hb. apply repeat_spec in Hb. lia.
Qed.

Lemma tags_new (cs : list string) (t : nat) :
  map snd (map (fun c : string => (c, t)) cs) = repeat t (length cs).
Proof. induction cs as [| c cs IH]; simpl; [reflexivity | now rewrite IH]. Qed.

Lemma tagged_In (l : list (string * nat)) (x : string) :
  In x (map fst l) -> exists t, In (x, t) l.
Proof.
  intros H. apply in_map_iff in H. destruct H as [[y t] [Hy Hin]]. simpl in Hy. subst y.
  now exists t.
Qed.

Lemma covered_mono (rT qT rT' qT' : list (string * nat)) (x : string) (n : nat) :
  incl (rT ++ qT) (rT' ++ qT') -> covered rT qT x n -> covered rT' qT' x n.
Proof. intros Hincl [t [Ht Hin]]. exists t. split; [exact Ht | now apply Hincl]. Qed.

Section BreadthFirstLevels.

Variable g : DAG.
Variable starts : list string.

Lemma bfs_levels_skip (rT qT : list (string * nat)) (x : string) (t : nat) :
  bfs_levels g starts rT ((x, t) :: qT) ->
  In x (map fst rT) ->
  bfs_levels g starts rT qT.
Proof.
  intros [V1 [V2 [V3 [V4 V5]]]] Hx.
  destruct (tagged_In rT x Hx) as [t' Hin'].
  assert (Hle : t' <= t).
  { rewrite map_app in V1. apply nondecreasing_app in V1. destruct V1 as [_ [_ Hall]].
    apply Hall; [| now left]. change t' with (snd (x, t')). now apply in_map. }
  assert (Hcov : forall y n, covered rT ((x, t) :: qT) y n -> covered rT qT y n).
  { intros y n [t0 [Ht0 Hin]]. apply in_app_iff in Hin.
    destruct Hin as [Hin | [[= <- <-] | Hin]].
    - exists t0. split; [exact Ht0 |]. apply in_app_iff. now left.
    - exists t'. split; [lia |]. apply in_app_iff. now left.
    - exists t0. split; [exact Ht0 |]. apply in_app_iff. now right. }
  split; [| split; [| split; [| split]]].
  - rewrite map_app in V1 |- *. simpl in V1. exact (nondecreasing_drop _ _ _ V1).
  - intros a b Ha Hb. apply V2; now right.
  - intros y n Hin. apply V3. apply in_app_iff in Hin. apply in_app_iff.
    destruct Hin as [Hin | Hin]; [now left | right; now right].
  - intros s0 Hs0. apply Hcov. now apply V4.
  - intros u tu y Hu Huy. apply Hcov. now apply (V5 u).
Qed.

Lemma bfs_levels_visit (rT qT : list (string * nat)) (x : string) (t : nat)
    (cs : list string) :
  bfs_levels g starts rT ((x, t) :: qT) ->
  (forall c, In c cs -> child_rel g x c) ->
  (forall c, child_rel g x c -> In c cs \/ In c (map fst rT) \/ c = x) ->
  bfs_levels g starts (rT ++ [(x, t)]) (qT ++ map (fun c => (c, S t)) cs).
Proof.
  intros [V1 [V2 [V3 [V4 V5]]]] Hcs Hall.
  rewrite map_app in V1. simpl in V1.
  pose proof V1 as V1'. apply nondecreasing_app in V1'.
  destruct V1' as [Hr [[Hhead Hq] Hrq]].
  assert (Hincl : incl (rT ++ (x, t) :: qT)
                    ((rT ++ [(x, t)]) ++ qT ++ map (fun c => (c, S t)) cs)).
  { intros p Hp. rewrite <- app_assoc. simpl. apply in_app_iff in Hp. apply in_app_iff.
    destruct Hp as [Hp | [<- | Hp]]; [now left | right; now left |].
    right. right. apply in_app_iff. now left. }
  split; [| split; [| split; [| split]]].
  - rewrite <- app_assoc, !map_app, tags_new.
    change (nondecreasing
              (map snd rT ++ (t :: map snd qT) ++ repeat (S t) (length cs))).
    rewrite app_assoc. apply nondecreasing_app.
    split; [exact V1 |]. split; [apply nondecreasing_const |].
    intros a b Ha Hb. apply repeat_spec in Hb. subst b.
    apply in_app_iff in Ha. destruct Ha as [Ha | [<- | Ha]].
    + assert (a <= t) by (apply Hrq; [exact Ha | now left]). lia.
    + lia.
    + apply (V2 t a); simpl; [now left | now right].
  - intros a b Ha Hb. rewrite map_app, tags_new in Ha, Hb.
    apply in_app_iff in Ha, Hb.
    destruct Ha as [Ha | Ha], Hb as [Hb | Hb].
    + apply V2; simpl; now right.
    + apply repeat_spec in Hb. subst b. assert (t <= a) by (now apply Hhead). lia.
    + apply repeat_spec in Ha. subst a.
      assert (b <= S t) by (apply (V2 t b); simpl; [now left | now right]). lia.
    + apply repeat_spec in Ha, Hb. lia.
  - intros y n Hin. rewrite <- app_assoc in Hin. simpl in Hin.
    apply in_app_iff in Hin. destruct Hin as [Hin | [Hin | Hin]].
    + apply V3. apply in_app_iff. now left.
    + apply V3. apply in_app_iff. right. now left.
    + apply in_app_iff in Hin. destruct Hin as [Hin | Hin].
      * apply V3. apply in_app_iff. right. now right.
      * apply in_map_iff in Hin. destruct Hin as [c [[= <- <-] Hc]].
        apply steps_next with x; [| now apply Hcs].
        apply V3. apply in_app_iff. right. now left.
  - intros s0 Hs0. apply (covered_mono _ _ _ _ _ _ Hincl). now apply V4.
  - intros u tu y Hu Huy. apply in_app_iff in Hu. destruct Hu as [Hu | [[= <- <-] | []]].
    + apply (covered_mono _ _ _ _ _ _ Hincl). now apply (V5 u).
    + destruct (Hall y Huy) as [Hc | [Hr' | ->]].
      * exists (S t). split; [lia |]. apply in_app_iff. right. apply in_app_iff. right.
        apply in_map_iff. now exists y.
      * destruct (tagged_In rT y Hr') as [t' Hin'].
        assert (t' <= t).
        { apply Hrq; [| now left]. change t' with (snd (y, t')). now apply in_map. }
        exists t'. split; [lia |]. apply in_app_iff. left. apply in_app_iff. now left.
      * exists t. split; [lia |]. apply in_app_iff. left. apply in_app_iff. right. now left.
Qed.

Lemma bfs_levels_loop (fuel : nat) :
  forall queue result rT qT r,
    map fst rT = result -> map fst qT = queue ->
    bfs_levels g starts rT qT ->
    Bfs.loop fuel g result queue result = Some r ->
    exists rT', map fst rT' = r /\ bfs_levels g starts rT' [].
Proof.
  induction fuel as [| fuel IH]; intros queue result rT qT r Hr Hq Hinv Hloop.
  - destruct queue as [| x rest]; [| discriminate].
    injection Hloop as <-. destruct qT; [| discriminate]. now exists rT.
  - destruct queue as [| x rest].
    + injection Hloop as <-. destruct qT; [| discriminate]. now exists rT.
    + destruct qT as [| [x' t] qT]; [discriminate |].
      simpl in Hq. injection Hq as -> Hq.
      cbn [Bfs.loop] in Hloop. destruct (JSSet.has x result) eqn:Ex.
      * apply (IH rest result rT qT r Hr Hq); [| exact Hloop].
        apply (bfs_levels_skip rT qT x t Hinv). rewrite Hr. now apply set_has_In.
      * rewrite enqueue_children_filter, (set_add_fresh x result Ex) in Hloop.
        set (cs := filter (fun c => negb (JSSet.has c (result ++ [x]))) (getChildren g x))
          in Hloop.
        apply (IH (rest ++ cs) (result ++ [x]) (rT ++ [(x, t)])
                 (qT ++ map (fun c => (c, S t)) cs) r); [| | | exact Hloop].
        -- rewrite map_app, Hr. reflexivity.
        -- rewrite map_app, Hq, map_map. simpl. now rewrite map_id.
        -- apply bfs_levels_visit; [exact Hinv | |].
           ++ intros c Hc. unfold cs in Hc. apply filter_In in Hc. apply Hc.
           ++ intros c Hc. destruct (JSSet.has c (result ++ [x])) eqn:Ec.
              ** apply set_has_In in Ec. apply in_app_iff in Ec. rewrite Hr.
                 destruct Ec as [Ec | [<- | []]]; auto.
              ** left. unfold cs. apply filter_In. split; [exact Hc | now rewrite Ec].
Qed.

Lemma bfs_levels_complete (rT : list (string * nat)) :
  bfs_levels g starts rT [] ->
  forall n x, steps_from (child_rel g) starts n x -> exists t, t <= n /\ In (x, t) rT.
Proof.
  intros [_ [_ [_ [V4 V5]]]] n x Hsteps.
  induction Hsteps as [x Hx | n u x _ IH Hux].
  - destruct (V4 x Hx) as [t [Ht Hin]]. rewrite app_nil_r in Hin. now exists t.
  - destruct IH as [tu [Htu Hu]].
    destruct (V5 u tu x Hu Hux) as [t [Ht Hin]]. rewrite app_nil_r in Hin.
    exists t. split; [lia | exact Hin].
Qed.

End BreadthFirstLevels.

Lemma tagged_unique (l : list (string * nat)) (x : string) (t t' : nat) :
  NoDup (map fst l) -> In (x, t) l -> In (x, t') l -> t = t'.
Proof.
  induction l as [| [y n] l IH]; simpl; intros Hnd H1 H2; [destruct H1 |].
  inversion Hnd as [| ? ? Hy Hnd']; subst.
  destruct H1 as [E1 | H1], H2 as [E2 | H2].
  - congruence.
  - exfalso. apply Hy. injection E1 as -> _. change x with (fst (x, t')). now apply in_map.
  - exfalso. apply Hy. injection E2 as -> _. change x with (fst (x, t)). now apply in_map.
  - now apply IH.
Qed.

Lemma steps_from_incl (R R' : string -> string -> Prop) (starts : list string) :
  (forall a b, R a b -> R' a b) ->
  forall n x, steps_from R starts n x -> steps_from R' starts n x.
Proof.
  intros Hincl n x H. induction H as [y Hy | k u y _ IH Huy].
  - now apply steps_start.
  - apply steps_next with u; [exact IH | now apply Hincl].
Qed.

Lemma DAG_of_steps (s : DAGStructure) (starts : list string) (n : nat) (x : string) :
  steps_from (child_rel (DAG_of s)) starts n x <->
  steps_from (registered_edge s) starts n x.
Proof.
  split; apply steps_from_incl; intros a b Hab; now apply DAG_of_children.
Qed.

(** X22: [bfsFromRoots] lists nearer identifiers first: when [x] stands
    before [y] in the result and [y] is reached from a start identifier in
    [n] steps along listed edges whose source is a node, then [x] is
    reached in [n] steps or fewer. *)
Theorem bfsFromRoots_level_order (s : DAGStructure) (startIds : option (list string)) :
  exists r,
    bfsFromRoots s startIds = Some r /\
    forall x y n,
      precedes r x y ->
      steps_from (registered_edge s) (start_ids (DAG_of s) startIds) n y ->
      exists m, m <= n /\
                steps_from (registered_edge s) (start_ids (DAG_of s) startIds) m x.
Proof.
  destruct (bfsFromRoots_spec s startIds) as [r [Hr [Hnd _]]].
  exists r. split; [exact Hr |].
  unfold bfsFromRoots, bfsFromRoots_fuel in Hr. cbv zeta in Hr.
  set (g := DAG_of s) in *. set (starts := start_ids g startIds) in *.
  destruct (bfs_levels_loop g starts
              (length starts + length (flat_map snd (outgoingEdges g)))
              starts [] [] (map (fun x => (x, 0)) starts) r)
    as [rT [HrT Hinv]]; [reflexivity | | | exact Hr |].
  - rewrite map_map. simpl. apply map_id.
  - split; [| split; [| split; [| split]]].
    + simpl. rewrite tags_new. apply nondecreasing_const.
    + intros a b Ha Hb. rewrite tags_new in Ha, Hb. apply repeat_spec in Ha, Hb. lia.
    + intros x t Hin. simpl in Hin. apply in_map_iff in Hin.
      destruct Hin as [y [[= <- <-] Hy]]. now apply steps_start.
    + intros s0 Hs0. exists 0. split; [lia |]. simpl. apply in_map_iff. now exists s0.
    + intros u tu x [].
  - intros x y n [l1 [l2 [l3 Hsplit]]] Hy.
    rewrite <- HrT in Hsplit, Hnd.
    apply map_eq_app in Hsplit. destruct Hsplit as [k1 [k2 [HrT' [_ Hk2]]]].
    destruct k2 as [| [x' tx] k2]; [discriminate |].
    simpl in Hk2. injection Hk2 as -> Hk2.
    apply map_eq_app in Hk2. destruct Hk2 as [k3 [k4 [Hk2 [_ Hk4]]]].
    destruct k4 as [| [y' ty] k4]; [discriminate |].
    simpl in Hk4. injection Hk4 as -> _.
    subst k2 rT.
    assert (Hxin : In (x, tx) (k1 ++ (x, tx) :: k3 ++ (y, ty) :: k4)).
    { apply in_app_iff. right. now left. }
    assert (Hyin : In (y, ty) (k1 ++ (x, tx) :: k3 ++ (y, ty) :: k4)).
    { apply in_app_iff. right. right. apply in_app_iff. right. now left. }
    assert (Hle : tx <= ty).
    { destruct Hinv as [V1 _]. rewrite app_nil_r, map_app in V1.
      apply nondecreasing_app in V1. destruct V1 as [_ [[Hhead _] _]].
      apply Hhead. rewrite map_app. apply in_app_iff. right. now left. }
    apply DAG_of_steps in Hy.
    destruct (bfs_levels_complete g starts _ Hinv n y Hy) as [t [Ht Hin]].
    assert (t = ty) by (apply (tagged_unique _ y t ty Hnd Hin Hyin)). subst t.
    exists tx. split; [lia |]. apply DAG_of_steps.
    destruct Hinv as [_ [_ [V3 _]]]. apply V3. rewrite app_nil_r. exact Hxin.
Qed.

(* ================================================================= *)
(** ** Validation as a guard for the post-order traversal *)

(** X23: whenever [validateDAG] reports a structure as acyclic, dangling
    edges and repeated identifiers allowed, [dfsPostOrder] from any start
    identifiers lists every child of a listed identifier before it. *)
Theorem isAcyclic_guards_postorder (s : DAGStructure) (startIds : option (list string)) :
  exists res r,
    validateDAG s = Some res /\
    dfsPostOrder s startIds = Some r /\
    (isAcyclic res = true ->
     forall x y, In x r -> registered_edge s x y -> In y r /\ precedes r y x).
Proof.
  destruct (isAcyclic_registered_spec s) as [res [Hres Hiff]].
  destruct (dfsPostOrder_spec s startIds) as [r [Hr [_ [_ [Hchild Hord]]]]].
  exists res, r. split; [exact Hres |]. split; [exact Hr |].
  intros Hac x y Hx Hxy. split.
  - apply (Hchild x y Hx Hxy).
  - apply Hord; [now apply Hiff | exact Hx | exact Hxy].
Qed.
